(** * Fleet-management backend: vendor hierarchy, assignments and compliance

    A shallow embedding of the hierarchy service, the cache service, the
    vehicle and driver controllers, the document utilities and the document
    service, followed by the properties of the specification that concern
    them.

    Conventions of the embedding.
    - A MongoDB [ObjectId] is its hexadecimal string; [null] references are
      [None].
    - The vendor collection is a list of documents in natural order (the
      order [Vendor.find] returns them in); vehicles and drivers are finite
      maps keyed by [_id]: what is proved of them does not depend on the
      order in which [find] lists them.
    - A [Date] is its millisecond timestamp, an integer. A function that
      reads the clock once takes the reading as its parameter [now]; a
      method that reads it again for every document it looks at takes the
      sequence of readings ([Timed]).
    - The Redis keyspace is one finite map from key to the JSON value that
      [set] serialised, together with its time to live.
    - Redis is reachable: the [catch] branches of the cache service, which
      turn a connection error into a miss, are not taken.
    - An [async] method is the function from the state before to its result
      and the state after; a rejected promise is an error result.
    - Strings are ASCII text; lower-casing and trimming act on ASCII letters
      and ASCII white space. *)

From Stdlib Require Import ZArith Lia List Bool Ascii String.
From stdpp Require Import base option list strings gmap.

Definition ObjectId := string.

(** ** String methods of JavaScript, on ASCII text *)

Module JsString.

Definition toLowerAscii (c : ascii) : ascii :=
  let n := nat_of_ascii c in
  if (65 <=? n) && (n <=? 90) then ascii_of_nat (n + 32) else c.

(** [s.toLowerCase()] *)
Fixpoint toLowerCase (s : string) : string :=
  match s with
  | EmptyString => EmptyString
  | String c s => String (toLowerAscii c) (toLowerCase s)
  end.

Fixpoint trimStart (s : string) : string :=
  match s with
  | EmptyString => EmptyString
  | String c s' => if Ascii.is_space c then trimStart s' else s
  end.

Definition trimEnd (s : string) : string := String.rev (trimStart (String.rev s)).

(** [s.trim()] *)
Definition trim (s : string) : string := trimEnd (trimStart s).

(** A string as a condition: only [''] is falsy. *)
Definition truthy (s : string) : bool :=
  match s with
  | EmptyString => false
  | String _ _ => true
  end.

End JsString.

(** ** models/Vendor.js *)

Module Vendor.

Inductive VendorType := SUPER | REGIONAL | CITY | SUB | LOCAL.

#[global] Instance VendorType_eq_dec : EqDecision VendorType.
Proof. solve_decision. Defined.

Definition allTypes : list VendorType := [SUPER; REGIONAL; CITY; SUB; LOCAL].

(** An [operatingArea] as a request body carries it: [zones] may be absent
    and a single [zone] may be given instead. *)
Record OperatingArea := mkArea {
  city : option string;
  zones : option (list string);
  zone : option string;
  pincodes : list string
}.

Record t := mk {
  _id : ObjectId;
  name : string;
  email : string;
  vendorType : VendorType;
  parentVendor : option ObjectId;
  permissions : list string;
  operatingArea : option OperatingArea;
  isActive : bool
}.

#[global] Instance OperatingArea_eq_dec : EqDecision OperatingArea.
Proof. solve_decision. Defined.

#[global] Instance t_eq_dec : EqDecision t.
Proof. solve_decision. Defined.

(** [Vendor.findById(id)]: the document with that [_id], or [null]. *)
Definition findById (db : list t) (id : ObjectId) : option t :=
  find (fun v => bool_decide (_id v = id)) db.

(** [Vendor.find({ parentVendor: id })], in natural order. *)
Definition findByParent (db : list t) (id : ObjectId) : list t :=
  List.filter (fun v => bool_decide (parentVendor v = Some id)) db.

(** [Vendor.find({ parentVendor: id, vendorType: ty })]. *)
Definition findByParentAndType (db : list t) (id : ObjectId) (ty : VendorType) : list t :=
  List.filter (fun v => bool_decide (parentVendor v = Some id) && bool_decide (vendorType v = ty)) db.

(** [Vendor.findOne({ _id: id, vendorType: ty })] *)
Definition findOneByIdAndType (db : list t) (id : ObjectId) (ty : VendorType) : option t :=
  find (fun v => bool_decide (_id v = id) && bool_decide (vendorType v = ty)) db.

(** [Vendor.findOne({ email })] *)
Definition findOneByEmail (db : list t) (mail : string) : option t :=
  find (fun v => bool_decide (email v = mail)) db.

(** [vendor.save()] on a document loaded from the collection: the stored
    document with the same [_id] is replaced. *)
Definition save (db : list t) (v : t) : list t :=
  map (fun w => if bool_decide (_id w = _id v) then v else w) db.

End Vendor.

Import Vendor(VendorType, SUPER, REGIONAL, CITY, SUB, LOCAL).

(** ** JSON values held by the cache *)

Module Json.

(** The node [{ id, name, type, children }] of a hierarchy. *)
#[warnings="-register-all"]
Inductive HierarchyNode :=
| Node (id : ObjectId) (name : string) (type : VendorType) (children : list HierarchyNode).

Record Counts := mkCounts { total : nat; compliant : nat; nonCompliant : nat }.

(** [{ vehicles: {...}, drivers: {...} }] *)
Record Report := mkReport { vehicles : Counts; drivers : Counts }.

(** What [JSON.parse] of a stored string yields; [JOther] stands for the
    objects other services keep in the same keyspace. *)
Inductive t :=
| JNull
| JHierarchy (vendor : HierarchyNode)
| JReport (report : Report)
| JOther.

(** A local variable holds either a plain value or, when an [async] call
    was not awaited, the promise of one. *)
Inductive Value :=
| Plain (j : t)
| PromiseOf (j : t).

(** JavaScript truthiness: [null] is falsy, every object is truthy, and a
    promise is an object whatever it resolves to. *)
Definition truthy (v : Value) : bool :=
  match v with
  | Plain JNull => false
  | Plain _ => true
  | PromiseOf _ => true
  end.

(** What the caller of an [async] function obtains when the function
    returns [v]: a returned promise is adopted. *)
Definition settle (v : Value) : t :=
  match v with
  | Plain j => j
  | PromiseOf j => j
  end.

End Json.

(** ** models/Vehicle.js, models/Driver.js, models/Document.js *)

(** An embedded sub-document [{ number, expiryDate, documentUrl, isVerified }],
    with the two fields the reports read; [isVerified] defaults to [false]. *)
Record EmbeddedDocument := mkEmbedded {
  emb_expiryDate : option Z;
  emb_isVerified : bool
}.

(** A sub-document of which nothing was uploaded: the schema default. *)
Definition notUploaded : EmbeddedDocument := mkEmbedded None false.

Module Vehicle.

(** [documents] of the vehicle schema, lines 29-57: three nested
    sub-documents, present in every vehicle read through the schema. *)
Record Documents := mkDocuments {
  registrationCertificate : EmbeddedDocument;
  permit : EmbeddedDocument;
  pollutionCertificate : EmbeddedDocument
}.

(** The documents of a vehicle created without any. *)
Definition noDocuments : Documents := mkDocuments notUploaded notUploaded notUploaded.

(** [Object.values(v.documents)] *)
Definition values (d : Documents) : list EmbeddedDocument :=
  [registrationCertificate d; permit d; pollutionCertificate d].

Record t := mk {
  registrationNumber : string;
  vendor : ObjectId;
  documents : Documents;
  assignedDriver : option ObjectId
}.

Definition with_assignedDriver (v : t) (d : option ObjectId) : t :=
  mk (registrationNumber v) (vendor v) (documents v) d.

(** [Vehicle.findOne({ _id: id, vendor: vendorId })] *)
Definition findOne (m : gmap ObjectId t) (id vendorId : ObjectId) : option t :=
  match m !! id with
  | Some v => if bool_decide (vendor v = vendorId) then Some v else None
  | None => None
  end.

(** [Vehicle.find({ vendor: vendorId })], each document with its [_id]. *)
Definition findByVendor (m : gmap ObjectId t) (vendorId : ObjectId) : list (ObjectId * t) :=
  List.filter (fun kv => bool_decide (vendor kv.2 = vendorId)) (map_to_list m).

End Vehicle.

Module Driver.

(** [documents] of the driver schema: [drivingLicense] is a nested
    sub-document; [addressProof] and [identityProof] are declared with a
    [type: String] key, which makes each of them a string path. *)
Record Documents := mkDocuments {
  drivingLicense : EmbeddedDocument;
  addressProof : option string;
  identityProof : option string
}.

(** The documents of a driver created without any. *)
Definition noDocuments : Documents := mkDocuments notUploaded None None.

(** [Object.values(d.documents)] as the reports read it: the driving
    licence, then the string paths that are set. A string has no
    [isVerified] and no [expiryDate]: in the callbacks of the reports it
    behaves as a sub-document that is not verified. *)
Definition values (d : Documents) : list EmbeddedDocument :=
  drivingLicense d
  :: omap (fun s : option string => (fun _ => notUploaded) <$> s)
          [addressProof d; identityProof d].

Record t := mk {
  name : string;
  vendor : ObjectId;
  documents : Documents;
  assignedVehicle : option ObjectId
}.

Definition with_assignedVehicle (d : t) (v : option ObjectId) : t :=
  mk (name d) (vendor d) (documents d) v.

(** [Driver.findOne({ _id: id, vendor: vendorId })] *)
Definition findOne (m : gmap ObjectId t) (id vendorId : ObjectId) : option t :=
  match m !! id with
  | Some d => if bool_decide (vendor d = vendorId) then Some d else None
  | None => None
  end.

(** [Driver.find({ vendor: vendorId })], each document with its [_id]. *)
Definition findByVendor (m : gmap ObjectId t) (vendorId : ObjectId) : list (ObjectId * t) :=
  List.filter (fun kv => bool_decide (vendor kv.2 = vendorId)) (map_to_list m).

End Driver.

Module Document.

Inductive EntityType := VEHICLE | DRIVER | VENDOR.

#[global] Instance EntityType_eq_dec : EqDecision EntityType.
Proof. solve_decision. Defined.

Record t := mk {
  _id : ObjectId;
  entityType : EntityType;
  entityId : ObjectId;
  expiryDate : option Z;
  isVerified : bool;
  vendor : ObjectId
}.

End Document.

(** ** The state of the backend *)

(** Calls made on the cache service, most recent first. *)
Inductive CacheCall :=
| CallGet (key : string)
| CallSet (key : string)
| CallDel (key : string)
| CallCacheVendorHierarchy (vendorId : ObjectId).

Record World := mkWorld {
  vendors : list Vendor.t;
  vehicles : gmap ObjectId Vehicle.t;
  drivers : gmap ObjectId Driver.t;
  documents : list Document.t;
  redis : gmap string (Json.t * nat);
  trace : list CacheCall
}.

Definition set_vendors (w : World) (x : list Vendor.t) : World :=
  mkWorld x (vehicles w) (drivers w) (documents w) (redis w) (trace w).

Definition set_vehicles (w : World) (x : gmap ObjectId Vehicle.t) : World :=
  mkWorld (vendors w) x (drivers w) (documents w) (redis w) (trace w).

Definition set_drivers (w : World) (x : gmap ObjectId Driver.t) : World :=
  mkWorld (vendors w) (vehicles w) x (documents w) (redis w) (trace w).

Definition set_redis (w : World) (x : gmap string (Json.t * nat)) : World :=
  mkWorld (vendors w) (vehicles w) (drivers w) (documents w) x (trace w).

Definition log (w : World) (c : CacheCall) : World :=
  mkWorld (vendors w) (vehicles w) (drivers w) (documents w) (redis w) (c :: trace w).

(** The result of an [async] method. *)
Inductive Outcome (A : Type) :=
| Returns (a : A)
| Throws (message : string)
| OutOfFuel.

Arguments Returns {A} a.
Arguments Throws {A} message.
Arguments OutOfFuel {A}.

(** A reference inside a template literal: [`${ref}`]. *)
Definition template (ref : option ObjectId) : string := default "null" ref.

(** ** services/cacheService.js *)

Module CacheService.

(** [set(key, value, expiryInSeconds)], Redis reachable. *)
Definition set (key : string) (value : Json.t) (expiryInSeconds : nat) (w : World) : bool * World :=
  (true, set_redis (log w (CallSet key)) (<[key := (value, expiryInSeconds)]> (redis w))).

(** [get(key)]: [value ? JSON.parse(value) : null]. *)
Definition get (key : string) (w : World) : Json.t * World :=
  (match redis w !! key with
   | Some (value, _) => value
   | None => Json.JNull
   end, log w (CallGet key)).

(** [del(key)] *)
Definition del (key : string) (w : World) : bool * World :=
  (true, set_redis (log w (CallDel key)) (delete key (redis w))).

(** The loop [for (const c of items) { const h = await build(c._id);
    children.push(h.vendor) }]; reading [.vendor] of [null] throws. *)
Fixpoint pushHierarchies (build : ObjectId → Outcome (option Json.HierarchyNode))
    (items : list Vendor.t) (children : list Json.HierarchyNode)
    : Outcome (list Json.HierarchyNode) :=
  match items with
  | [] => Returns children
  | c :: rest =>
      match build (Vendor._id c) with
      | Returns (Some node) => pushHierarchies build rest (children ++ [node])
      | Returns None => Throws "Cannot read properties of null (reading 'vendor')"
      | Throws m => Throws m
      | OutOfFuel => OutOfFuel
      end
  end.

(** [buildVendorHierarchy(vendorId)], the recursion bounded by [fuel]. *)
Fixpoint buildVendorHierarchy (fuel : nat) (db : list Vendor.t) (vendorId : ObjectId)
    : Outcome (option Json.HierarchyNode) :=
  match fuel with
  | O => OutOfFuel
  | S fuel =>
      match Vendor.findById db vendorId with
      | None => Returns None
      | Some vendor =>
          let hierarchy children :=
            Json.Node (Vendor._id vendor) (Vendor.name vendor) (Vendor.vendorType vendor) children in
          match Vendor.vendorType vendor with
          | SUPER =>
              let cityVendors := Vendor.findByParentAndType db vendorId CITY in
              match pushHierarchies (buildVendorHierarchy fuel db) cityVendors [] with
              | Returns children => Returns (Some (hierarchy children))
              | Throws m => Throws m
              | OutOfFuel => OutOfFuel
              end
          | CITY =>
              let subVendors := Vendor.findByParentAndType db vendorId SUB in
              let localVendors := Vendor.findByParentAndType db vendorId LOCAL in
              match pushHierarchies (buildVendorHierarchy fuel db) subVendors [] with
              | Returns children =>
                  Returns (Some (hierarchy (children ++
                    map (fun localVendor =>
                           Json.Node (Vendor._id localVendor) (Vendor.name localVendor)
                                     (Vendor.vendorType localVendor) [])
                        localVendors)))
              | Throws m => Throws m
              | OutOfFuel => OutOfFuel
              end
          | _ => Returns (Some (hierarchy []))
          end
      end
  end.

Definition hierarchyJson (h : option Json.HierarchyNode) : Json.t :=
  match h with
  | Some node => Json.JHierarchy node
  | None => Json.JNull
  end.

(** [cacheVendorHierarchy(vendorId)]: build, store for 600 s, return. *)
Definition cacheVendorHierarchy (fuel : nat) (vendorId : ObjectId) (w : World)
    : Outcome Json.t * World :=
  let w := log w (CallCacheVendorHierarchy vendorId) in
  let key := "vendor_hierarchy_" +:+ vendorId in
  match buildVendorHierarchy fuel (vendors w) vendorId with
  | Returns hierarchy =>
      let '(_, w) := set key (hierarchyJson hierarchy) 600 w in
      (Returns (hierarchyJson hierarchy), w)
  | Throws m => (Throws m, w)
  | OutOfFuel => (OutOfFuel, w)
  end.

(** [Promise.all([del(k1), del(k2), ...])] *)
Definition delAll (keys : list string) (w : World) : World :=
  foldl (fun w key => (del key w).2) w keys.

End CacheService.

(** ** services/vendorHierarchyService.js *)

Module VendorHierarchyService.

(** [getVendorHierarchy(vendorId)], lines 6-15. The call of
    [cacheService.get] is not awaited: [cachedHierarchy] is a promise. *)
Definition getVendorHierarchy (fuel : nat) (vendorId : ObjectId) (w : World)
    : Outcome Json.t * World :=
  let '(resolved, w) := CacheService.get ("vendor_hierarchy_" +:+ vendorId) w in
  let cachedHierarchy := Json.PromiseOf resolved in
  if Json.truthy cachedHierarchy then
    (Returns (Json.settle cachedHierarchy), w)
  else
    CacheService.cacheVendorHierarchy fuel vendorId w.

(** [getSubVendors(vendorId, vendorType = null)], lines 18-24. *)
Definition getSubVendors (db : list Vendor.t) (vendorId : ObjectId)
    (vendorType : option VendorType) : list Vendor.t :=
  match vendorType with
  | Some ty => Vendor.findByParentAndType db vendorId ty
  | None => Vendor.findByParent db vendorId
  end.

(** [validateHierarchy(vendorId, parentVendorId)], lines 49-68. *)
Definition validateHierarchy (db : list Vendor.t) (vendorId parentVendorId : ObjectId) : bool :=
  let vendor := Vendor.findById db vendorId in
  let parentVendor := Vendor.findById db parentVendorId in
  match vendor, parentVendor with
  | Some vendor, Some parentVendor =>
      match Vendor.vendorType parentVendor with
      | SUPER => bool_decide (Vendor.vendorType vendor = CITY)
      | CITY => bool_decide (Vendor.vendorType vendor ∈ [SUB; LOCAL])
      | SUB => bool_decide (Vendor.vendorType vendor = LOCAL)
      | _ => false
      end
  | _, _ => false
  end.

(** [transferVendor(vendorId, newParentId)], lines 71-94. The first key is
    built from [vendor.parentVendor] as it is read on line 90, after the
    assignment of line 86. *)
Definition transferVendor (vendorId newParentId : ObjectId) (w : World)
    : Outcome Vendor.t * World :=
  let vendor := Vendor.findById (vendors w) vendorId in
  let newParent := Vendor.findById (vendors w) newParentId in
  match vendor, newParent with
  | Some vendor, Some _ =>
      let isValid := validateHierarchy (vendors w) vendorId newParentId in
      if negb isValid then (Throws "Invalid vendor hierarchy", w)
      else
        let vendor :=
          Vendor.mk (Vendor._id vendor) (Vendor.name vendor) (Vendor.email vendor)
                    (Vendor.vendorType vendor) (Some newParentId)
                    (Vendor.permissions vendor) (Vendor.operatingArea vendor)
                    (Vendor.isActive vendor) in
        let w := set_vendors w (Vendor.save (vendors w) vendor) in
        let '(_, w) :=
          CacheService.del ("vendor_hierarchy_" +:+ template (Vendor.parentVendor vendor)) w in
        let '(_, w) := CacheService.del ("vendor_hierarchy_" +:+ newParentId) w in
        (Returns vendor, w)
  | _, _ => (Throws "Vendor or parent not found", w)
  end.

(** The loop of lines 129-133: push the child, then its descendants. *)
Fixpoint pushSubVendors (recurse : ObjectId → option (list Vendor.t))
    (directSubVendors : list Vendor.t) (subVendors : list Vendor.t)
    : option (list Vendor.t) :=
  match directSubVendors with
  | [] => Some subVendors
  | subVendor :: rest =>
      match recurse (Vendor._id subVendor) with
      | Some nestedSubVendors =>
          pushSubVendors recurse rest (subVendors ++ [subVendor] ++ nestedSubVendors)
      | None => None
      end
  end.

(** [getAllSubVendors(vendorId)], lines 125-136; [None] when the recursion
    is deeper than [fuel]. *)
Fixpoint getAllSubVendors (fuel : nat) (db : list Vendor.t) (vendorId : ObjectId)
    : option (list Vendor.t) :=
  match fuel with
  | O => None
  | S fuel =>
      let directSubVendors := Vendor.findByParent db vendorId in
      pushSubVendors (getAllSubVendors fuel db) directSubVendors []
  end.

(** An entry [{ id, name, type }] of a parent chain. *)
Record ChainEntry := mkEntry {
  entry_id : ObjectId;
  entry_name : string;
  entry_type : VendorType
}.

(** The [while] loop of lines 31-43; each evaluation of its condition
    takes one unit of [fuel]. *)
Fixpoint parentChainLoop (fuel : nat) (db : list Vendor.t) (currentVendor : option Vendor.t)
    (chain : list ChainEntry) : option (list ChainEntry) :=
  match fuel with
  | O => None
  | S fuel =>
      match currentVendor with
      | Some current =>
          match Vendor.parentVendor current with
          | Some parentId =>
              match Vendor.findById db parentId with
              | Some parent =>
                  parentChainLoop fuel db (Some parent)
                    (chain ++ [mkEntry (Vendor._id parent) (Vendor.name parent)
                                       (Vendor.vendorType parent)])
              | None => Some chain
              end
          | None => Some chain
          end
      | None => Some chain
      end
  end.

(** [getParentChain(vendorId)], lines 27-46. *)
Definition getParentChain (fuel : nat) (db : list Vendor.t) (vendorId : ObjectId)
    : option (list ChainEntry) :=
  parentChainLoop fuel db (Vendor.findById db vendorId) [].

End VendorHierarchyService.

(** ** HTTP responses *)

(** [{ success: true, data }] with its status, or
    [{ success: false, error: { message, statusCode } }]. *)
Inductive Response (D : Type) :=
| Success (statusCode : nat) (data : D)
| Failure (statusCode : nat) (message : string).

Arguments Success {D} statusCode data.
Arguments Failure {D} statusCode message.

Definition statusCode {D} (r : Response D) : nat :=
  match r with
  | Success c _ => c
  | Failure c _ => c
  end.

Definition succeeded {D} (r : Response D) : bool :=
  match r with
  | Success _ _ => true
  | Failure _ _ => false
  end.

(** The [data] of both assignment handlers. *)
Record AssignmentData := mkAssignment {
  data_driver : ObjectId;
  data_assignedVehicle : option ObjectId;
  data_vehicle : ObjectId;
  data_assignedDriver : option ObjectId
}.

(** The [data] of both unassignment handlers: the entity of the request
    and the partner that was released. *)
Record UnassignmentData := mkUnassignment {
  data_message : string;
  data_entity : ObjectId;
  data_unassigned : ObjectId
}.

(** ** controllers/driverController.js *)

Module DriverController.

(** [deleteDriver], lines 248-302; [reqVendor] is [req.vendor._id] and
    [id] is [req.params.id]. *)
Definition deleteDriver (reqVendor id : ObjectId) (w : World) : Response string * World :=
  match Driver.findOne (drivers w) id reqVendor with
  | None => (Failure 404 "Driver not found", w)
  | Some driver =>
      let w := set_drivers w (delete id (drivers w)) in
      let w :=
        match Driver.assignedVehicle driver with
        | Some vehicleId =>
            set_vehicles w
              (alter (fun v => Vehicle.with_assignedDriver v None) vehicleId (vehicles w))
        | None => w
        end in
      let w := CacheService.delAll
                 ["driver_" +:+ id; "vendor_drivers_" +:+ Driver.vendor driver; "all_drivers"] w in
      (Success 200 "Driver deleted successfully", w)
  end.

(** [assignVehicleToDriver], lines 305-430; [driverId] is [req.params.id]
    and [vehicleId] comes from the body. *)
Definition assignVehicleToDriver (reqVendor driverId vehicleId : ObjectId) (w : World)
    : Response AssignmentData * World :=
  match Driver.findOne (drivers w) driverId reqVendor with
  | None => (Failure 404 "Driver not found", w)
  | Some driver =>
      match Vehicle.findOne (vehicles w) vehicleId reqVendor with
      | None => (Failure 404 "Vehicle not found", w)
      | Some vehicle =>
          if bool_decide (is_Some (Vehicle.assignedDriver vehicle))
             && negb (bool_decide (Vehicle.assignedDriver vehicle = Some driverId))
          then (Failure 400 "Vehicle is already assigned to another driver", w)
          else if bool_decide (is_Some (Driver.assignedVehicle driver))
                  && negb (bool_decide (Driver.assignedVehicle driver = Some vehicleId))
          then (Failure 400 "Driver is already assigned to another vehicle", w)
          else
            let driver := Driver.with_assignedVehicle driver (Some vehicleId) in
            let w := set_drivers w (<[driverId := driver]> (drivers w)) in
            let vehicle := Vehicle.with_assignedDriver vehicle (Some driverId) in
            let w := set_vehicles w (<[vehicleId := vehicle]> (vehicles w)) in
            let w := CacheService.delAll
                       ["driver_" +:+ driverId; "vehicle_" +:+ vehicleId;
                        "vendor_drivers_" +:+ Driver.vendor driver;
                        "vendor_vehicles_" +:+ Vehicle.vendor vehicle] w in
            (Success 200 (mkAssignment driverId (Driver.assignedVehicle driver)
                                       vehicleId (Vehicle.assignedDriver vehicle)), w)
      end
  end.

(** [unassignVehicleFromDriver], lines 437-516. *)
Definition unassignVehicleFromDriver (reqVendor driverId : ObjectId) (w : World)
    : Response UnassignmentData * World :=
  match Driver.findOne (drivers w) driverId reqVendor with
  | None => (Failure 404 "Driver not found", w)
  | Some driver =>
      match Driver.assignedVehicle driver with
      | None => (Failure 400 "Driver does not have an assigned vehicle.", w)
      | Some vehicleIdToUnassign =>
          let driver := Driver.with_assignedVehicle driver None in
          let w := set_drivers w (<[driverId := driver]> (drivers w)) in
          let w := set_vehicles w
                     (alter (fun v => Vehicle.with_assignedDriver v None)
                            vehicleIdToUnassign (vehicles w)) in
          let w := CacheService.delAll
                     ["driver_" +:+ driverId; "vehicle_" +:+ vehicleIdToUnassign;
                      "vendor_drivers_" +:+ Driver.vendor driver;
                      "vendor_vehicles_" +:+ vehicleIdToUnassign] w in
          (Success 200 (mkUnassignment "Vehicle unassigned successfully"
                                       driverId vehicleIdToUnassign), w)
      end
  end.

End DriverController.

(** ** controllers/vehicleController.js *)

Module VehicleController.

(** [deleteVehicle], lines 224-267. *)
Definition deleteVehicle (id : ObjectId) (w : World) : Response string * World :=
  match vehicles w !! id with
  | None => (Failure 404 "Vehicle not found", w)
  | Some vehicle =>
      let w := set_vehicles w (delete id (vehicles w)) in
      let w := CacheService.delAll
                 ["vehicle_" +:+ id; "vendor_vehicles_" +:+ Vehicle.vendor vehicle;
                  "fleet_stats_" +:+ Vehicle.vendor vehicle] w in
      (Success 200 "Vehicle deleted successfully", w)
  end.

(** [assignDriverToVehicle], lines 270-405; [vehicleId] is
    [req.params.id] and [driverId] comes from the body. *)
Definition assignDriverToVehicle (reqVendor vehicleId driverId : ObjectId) (w : World)
    : Response AssignmentData * World :=
  match Vehicle.findOne (vehicles w) vehicleId reqVendor with
  | None => (Failure 404 "Vehicle not found", w)
  | Some vehicle =>
      match Driver.findOne (drivers w) driverId reqVendor with
      | None => (Failure 404 "Driver not found", w)
      | Some driver =>
          if bool_decide (is_Some (Driver.assignedVehicle driver))
             && negb (bool_decide (Driver.assignedVehicle driver = Some vehicleId))
          then (Failure 400 "Driver is already assigned to another vehicle.", w)
          else if bool_decide (is_Some (Vehicle.assignedDriver vehicle))
                  && negb (bool_decide (Vehicle.assignedDriver vehicle = Some driverId))
          then (Failure 400 "Vehicle is already assigned to another driver.", w)
          else
            let vehicle := Vehicle.with_assignedDriver vehicle (Some driverId) in
            let w := set_vehicles w (<[vehicleId := vehicle]> (vehicles w)) in
            let driver := Driver.with_assignedVehicle driver (Some vehicleId) in
            let w := set_drivers w (<[driverId := driver]> (drivers w)) in
            let w := CacheService.delAll
                       ["vehicle_" +:+ vehicleId;
                        "vendor_vehicles_" +:+ Vehicle.vendor vehicle;
                        "fleet_stats_" +:+ Vehicle.vendor vehicle] w in
            (Success 200 (mkAssignment driverId (Driver.assignedVehicle driver)
                                       vehicleId (Vehicle.assignedDriver vehicle)), w)
      end
  end.

(** [unassignDriverFromVehicle], lines 408-490. *)
Definition unassignDriverFromVehicle (reqVendor vehicleId : ObjectId) (w : World)
    : Response UnassignmentData * World :=
  match Vehicle.findOne (vehicles w) vehicleId reqVendor with
  | None => (Failure 404 "Vehicle not found", w)
  | Some vehicle =>
      match Vehicle.assignedDriver vehicle with
      | None => (Failure 400 "Vehicle does not have an assigned driver.", w)
      | Some driverIdToUnassign =>
          let vehicle := Vehicle.with_assignedDriver vehicle None in
          let w := set_vehicles w (<[vehicleId := vehicle]> (vehicles w)) in
          let w := set_drivers w
                     (alter (fun d => Driver.with_assignedVehicle d None)
                            driverIdToUnassign (drivers w)) in
          let w := CacheService.delAll
                     ["vehicle_" +:+ vehicleId;
                      "vendor_vehicles_" +:+ Vehicle.vendor vehicle;
                      "fleet_stats_" +:+ Vehicle.vendor vehicle] w in
          (Success 200 (mkUnassignment "Driver unassigned successfully"
                                       vehicleId driverIdToUnassign), w)
      end
  end.

End VehicleController.

(** ** Time *)

(** [new Date()] reads the system clock. A method that reads it once per
    document sees time pass while it runs: [clock k] is what the reading
    number [k] returns, and a computation takes the number of readings made
    before it and returns the number made after it. *)
Definition Timed (A : Type) : Type := (nat → Z) → nat → A * nat.

Module Timed.

Definition ret {A} (a : A) : Timed A := fun _ t => (a, t).

Definition bind {A B} (m : Timed A) (f : A → Timed B) : Timed B :=
  fun clock t => let '(a, t') := m clock t in f a clock t'.

(** [new Date()] *)
Definition newDate : Timed Z := fun clock t => (clock t, S t).

(** [items.every(f)]: stops at the first element for which [f] is false. *)
Fixpoint every {A} (f : A → Timed bool) (items : list A) : Timed bool :=
  match items with
  | [] => ret true
  | x :: rest => bind (f x) (fun b => if b then every f rest else ret false)
  end.


(** [items.filter(f)]: [f] is called on every element, in order. *)
Fixpoint filter {A} (f : A → Timed bool) (items : list A) : Timed (list A) :=
  match items with
  | [] => ret []
  | x :: rest =>
      bind (f x) (fun b =>
      bind (filter f rest) (fun kept => ret (if b then x :: kept else kept)))
  end.

End Timed.

Notation "'let*' x := m 'in' k" := (Timed.bind m (fun x => k))
  (at level 10, x name, m at level 100, k at level 200).

(** ** utils/documentUtils.js *)

Module DocumentUtils.

Definition msPerDay : Z := (1000 * 60 * 60 * 24)%Z.

(** [Math.ceil(a / b)] for integers [a] and positive [b], as the ceiling
    of the exact quotient. Division of doubles is monotone and exact on
    representable quotients, so comparing the ceiling with an integer [n]
    gives the answer of the exact quotient whenever [1 / b] exceeds the
    spacing of doubles around [n]; with [b] the milliseconds of a day this
    holds for every day count up to 2^26. *)
Definition ceilDiv (a b : Z) : Z := (- ((- a) / b))%Z.

(** [isDocumentExpired(expiryDate)], lines 4-8. *)
Definition isDocumentExpired (now expiryDate : Z) : bool :=
  let today := now in
  let expiry := expiryDate in
  (today >? expiry)%Z.

(** [isDocumentExpiringSoon(expiryDate, days = 30)], lines 11-17. *)
Definition isDocumentExpiringSoon (now expiryDate : Z) (days : Z) : bool :=
  let today := now in
  let expiry := expiryDate in
  let diffTime := (expiry - today)%Z in
  let diffDays := ceilDiv diffTime msPerDay in
  (diffDays <=? days)%Z && (diffDays >? 0)%Z.

(** [expiry - today] as [getDaysUntilExpiry] uses it, a number of any
    size. The timestamps of two Dates are integers of magnitude at most
    8.64e15 and are doubles; their difference has magnitude below 2^54 and
    is a double up to 2^53. Beyond, the doubles are the even integers: the
    subtraction returns the nearest one, and from an odd difference, which
    lies half way, the multiple of 4. *)
Definition dateDifference (expiry today : Z) : Z :=
  let d := (expiry - today)%Z in
  if (Z.abs d <=? 2 ^ 53)%Z then d
  else if Z.even d then d
  else if (d mod 4 =? 1)%Z then (d - 1)%Z else (d + 1)%Z.

(** [getDaysUntilExpiry(expiryDate)], lines 20-25. The ceiling of the
    quotient of doubles is the ceiling of the exact quotient of
    [diffTime]: a quotient that is not an integer is at least one part in
    86400000 away from the integers, and two parts once [diffTime] exceeds
    2^53 and is even, which is more than half the spacing of the doubles
    around it, below 2^27 and below 2^28. *)
Definition getDaysUntilExpiry (now expiryDate : Z) : Z :=
  let today := now in
  let expiry := expiryDate in
  let diffTime := dateDifference expiry today in
  ceilDiv diffTime msPerDay.

End DocumentUtils.

(** ** services/documentService.js *)

Module DocumentService.

(** [isDocumentExpired(document)], lines 131-133, as a condition. *)
Definition isDocumentExpired (now : Z) (document : Document.t) : bool :=
  match Document.expiryDate document with
  | Some expiryDate => (expiryDate <? now)%Z
  | None => false
  end.

(** [isDocumentExpiringSoon(document)], lines 136-140. *)
Definition isDocumentExpiringSoon (now : Z) (document : Document.t) : bool :=
  match Document.expiryDate document with
  | None => false
  | Some expiryDate =>
      let thirtyDaysFromNow := (now + 30 * 24 * 60 * 60 * 1000)%Z in
      (expiryDate <=? thirtyDaysFromNow)%Z && (expiryDate >? now)%Z
  end.

(** A call [this.isDocumentExpired(doc)] while a method runs: [new Date()]
    is evaluated, and the clock read, when the document has an expiry
    date. *)
Definition callIsDocumentExpired (document : Document.t) : Timed bool :=
  match Document.expiryDate document with
  | Some _ => let* now := Timed.newDate in Timed.ret (isDocumentExpired now document)
  | None => Timed.ret false
  end.

(** [isEntityCompliant(entityId, documents)], lines 201-205. *)
Definition isEntityCompliant (entityId : ObjectId) (documents : list Document.t) : Timed bool :=
  let entityDocs :=
    List.filter (fun doc => bool_decide (Document.entityId doc = entityId)) documents in
  if bool_decide (0 < length entityDocs) then
    Timed.every (fun doc =>
                   if Document.isVerified doc then
                     let* expired := callIsDocumentExpired doc in Timed.ret (negb expired)
                   else Timed.ret false)
                entityDocs
  else Timed.ret false.

(** [Document.find({ entityId: { $in: ids }, entityType: ty })] *)
Definition findDocuments (docs : list Document.t) (ids : list ObjectId)
    (ty : Document.EntityType) : list Document.t :=
  List.filter (fun doc => bool_decide (Document.entityId doc ∈ ids)
                          && bool_decide (Document.entityType doc = ty)) docs.

(** The object literal [report] of lines 181-192, its six properties
    evaluated in order. *)
Definition buildReport (vehicles : list (ObjectId * Vehicle.t))
    (drivers : list (ObjectId * Driver.t)) (vehicleDocs driverDocs : list Document.t)
    : Timed Json.Report :=
  let* vc := Timed.filter (fun v => isEntityCompliant v.1 vehicleDocs) vehicles in
  let* vn := Timed.filter (fun v => let* c := isEntityCompliant v.1 vehicleDocs in
                                    Timed.ret (negb c)) vehicles in
  let* dc := Timed.filter (fun d => isEntityCompliant d.1 driverDocs) drivers in
  let* dn := Timed.filter (fun d => let* c := isEntityCompliant d.1 driverDocs in
                                    Timed.ret (negb c)) drivers in
  Timed.ret (Json.mkReport (Json.mkCounts (length vehicles) (length vc) (length vn))
                           (Json.mkCounts (length drivers) (length dc) (length dn))).

(** [getVendorComplianceReport(vendorId)], lines 159-198; [clock] gives
    the readings of the clock made during the call, from the first. *)
Definition getVendorComplianceReport (clock : nat → Z) (vendorId : ObjectId) (w : World)
    : Json.t * World :=
  let cacheKey := "compliance_report_" +:+ vendorId in
  let '(cachedReport, w) := CacheService.get cacheKey w in
  if Json.truthy (Json.Plain cachedReport) then (cachedReport, w)
  else
    let vehicles := Vehicle.findByVendor (vehicles w) vendorId in
    let drivers := Driver.findByVendor (drivers w) vendorId in
    let vehicleIds := map fst vehicles in
    let driverIds := map fst drivers in
    let vehicleDocs := findDocuments (documents w) vehicleIds Document.VEHICLE in
    let driverDocs := findDocuments (documents w) driverIds Document.DRIVER in
    let report := (buildReport vehicles drivers vehicleDocs driverDocs clock 0).1 in
    let '(_, w) := CacheService.set cacheKey (Json.JReport report) 300 w in
    (Json.JReport report, w).

End DocumentService.

(** ** controllers/vendorController.js *)

Module VendorController.

(** The fields [registerLocalVendor] reads from [req.body]. *)
Record RegisterBody := mkBody {
  body_name : string;
  body_email : string;
  body_parentVendorId : ObjectId;
  body_permissions : list string;
  body_operatingArea : option Vendor.OperatingArea
}.

(** What the schema keeps of an [operatingArea]: [trim] on the city and on
    each zone and pincode, arrays defaulting to [[]], unknown paths dropped. *)
Definition storedArea (a : Vendor.OperatingArea) : Vendor.OperatingArea :=
  Vendor.mkArea (JsString.trim <$> Vendor.city a)
                (Some (map JsString.trim (default [] (Vendor.zones a))))
                None
                (map JsString.trim (Vendor.pincodes a)).

(** What is stored when the constructor is given [operatingArea] or none:
    of an absent one the schema keeps the two empty arrays. *)
Definition storedAreaOf (a : option Vendor.OperatingArea) : option Vendor.OperatingArea :=
  Some (storedArea (default (Vendor.mkArea None None None []) a)).

(** The condition of lines 351-355 under which [isAuthorizedCreator]
    becomes true. *)
Definition isAuthorizedCreator (reqVendor parentVendor : Vendor.t) (parentVendorId : ObjectId)
    : bool :=
  (bool_decide (Vendor.vendorType reqVendor = SUPER)
   && bool_decide (Vendor.parentVendor parentVendor = Some (Vendor._id reqVendor)))
  || (bool_decide (Vendor.vendorType reqVendor = CITY)
      && bool_decide (Vendor._id reqVendor = parentVendorId))
  || (bool_decide (Vendor.vendorType reqVendor = SUB)
      && bool_decide (Vendor.parentVendor reqVendor = Some parentVendorId)).

(** [registerLocalVendor], lines 327-485; [reqVendor] is [req.vendor] and
    [newId] the [_id] generated for the new document. *)
Definition registerLocalVendor (reqVendor : Vendor.t) (body : RegisterBody)
    (newId : ObjectId) (w : World) : Response Vendor.t * World :=
  let parentVendorId := body_parentVendorId body in
  let operatingArea := body_operatingArea body in
  match Vendor.findOneByIdAndType (vendors w) parentVendorId CITY with
  | None => (Failure 400 "Local vendors can only be registered under a City vendor.", w)
  | Some parentVendor =>
      if negb (isAuthorizedCreator reqVendor parentVendor parentVendorId) then
        (Failure 403 "You are not authorized to create a Local vendor under this City vendor.", w)
      else
        let localCity :=
          JsString.trim (JsString.toLowerCase (default "" (operatingArea ≫= Vendor.city))) in
        let parentCity :=
          JsString.trim (JsString.toLowerCase
                           (default "" (Vendor.operatingArea parentVendor ≫= Vendor.city))) in
        if negb (JsString.truthy localCity) || negb (JsString.truthy parentCity)
           || negb (bool_decide (localCity = parentCity))
        then
          (Failure 400 "Local vendor operating area city must match the parent City vendor operating area city.", w)
        else
          match operatingArea, Vendor.operatingArea parentVendor with
          | Some operatingArea, Some parentArea =>
              let localZones :=
                match Vendor.zones operatingArea with
                | Some zones => zones
                | None =>
                    match Vendor.zone operatingArea with
                    | Some zone => if JsString.truthy zone then [zone] else []
                    | None => []
                    end
                end in
              let parentZones := default [] (Vendor.zones parentArea) in
              let isZoneValid :=
                existsb (fun zone =>
                           bool_decide (JsString.trim (JsString.toLowerCase zone)
                                        ∈ map (fun z => JsString.trim (JsString.toLowerCase z))
                                              parentZones))
                        localZones in
              if negb isZoneValid then
                (Failure 400 "One or more zones specified for the Local vendor do not exist in the parent City vendor's zones.", w)
              else
                match Vendor.findOneByEmail (vendors w) (body_email body) with
                | Some _ => (Failure 400 "Vendor already exists", w)
                | None =>
                    let vendor :=
                      Vendor.mk newId (body_name body) (body_email body) LOCAL
                                (Some parentVendorId) (body_permissions body)
                                (Some (storedArea operatingArea)) true in
                    let w := set_vendors w (vendors w ++ [vendor]) in
                    let '(_, w) := CacheService.del "all_vendors" w in
                    let w :=
                      match Vendor.parentVendor vendor with
                      | Some _ =>
                          (CacheService.del
                             ("vendor_hierarchy_" +:+ template (Vendor.parentVendor vendor)) w).2
                      | None => w
                      end in
                    (Success 201 vendor, w)
                end
          | _, _ => (Failure 400 "Cannot read properties of undefined (reading 'zones')", w)
          end
  end.

(** The fields [registerVendor] reads from [req.body]. *)
Record RegisterVendorBody := mkVendorBody {
  vbody_name : string;
  vbody_email : string;
  vbody_vendorType : string;
  vbody_parentVendorId : option ObjectId;
  vbody_permissions : list string
}.

(** The statements that end [registerVendor] (lines 60-87),
    [registerCityVendor] (lines 171-197) and [registerSubVendor]
    (lines 282-308): [vendor.save()] appends the document, the list of all
    vendors and the hierarchy of the parent leave the cache, and the
    answer is 201. *)
Definition createVendor (vendor : Vendor.t) (w : World) : Response Vendor.t * World :=
  let w := set_vendors w (vendors w ++ [vendor]) in
  let '(_, w) := CacheService.del "all_vendors" w in
  let w :=
    match Vendor.parentVendor vendor with
    | Some _ =>
        (CacheService.del ("vendor_hierarchy_" +:+ template (Vendor.parentVendor vendor)) w).2
    | None => w
    end in
  (Success 201 vendor, w).

(** [registerVendor], lines 11-103. *)
Definition registerVendor (body : RegisterVendorBody) (newId : ObjectId) (w : World)
    : Response Vendor.t * World :=
  if negb (bool_decide (vbody_vendorType body = "SUPER")) then
    (Failure 400 "Only SUPER vendor registration is allowed via this endpoint. Use specific endpoints for other types.", w)
  else if JsString.truthy (default "" (vbody_parentVendorId body)) then
    (Failure 400 "SUPER vendors cannot have a parent vendor.", w)
  else
    match Vendor.findOneByEmail (vendors w) (vbody_email body) with
    | Some _ => (Failure 400 "Vendor already exists", w)
    | None =>
        createVendor (Vendor.mk newId (vbody_name body) (vbody_email body) SUPER None
                                (vbody_permissions body) (storedAreaOf None) true) w
    end.

(** [registerCityVendor], lines 106-213. *)
Definition registerCityVendor (reqVendor : Vendor.t) (body : RegisterBody)
    (newId : ObjectId) (w : World) : Response Vendor.t * World :=
  let parentVendorId := body_parentVendorId body in
  if negb (bool_decide (Vendor.vendorType reqVendor = SUPER)) then
    (Failure 403 "Only a Super vendor can register a City vendor.", w)
  else if negb (bool_decide (Vendor._id reqVendor = parentVendorId)) then
    (Failure 400 "The parentVendorId must be the ID of the Super vendor making the request.", w)
  else
    match Vendor.findById (vendors w) parentVendorId with
    | Some parentVendor =>
        if negb (bool_decide (Vendor.vendorType parentVendor = SUPER)) then
          (Failure 400 "Invalid parent vendor. City vendors must be registered under a Super vendor.", w)
        else
          match Vendor.findOneByEmail (vendors w) (body_email body) with
          | Some _ => (Failure 400 "Vendor already exists", w)
          | None =>
              createVendor (Vendor.mk newId (body_name body) (body_email body) CITY
                                      (Some parentVendorId) (body_permissions body)
                                      (storedAreaOf (body_operatingArea body)) true) w
          end
    | None =>
        (Failure 400 "Invalid parent vendor. City vendors must be registered under a Super vendor.", w)
    end.

(** [registerSubVendor], lines 216-324. *)
Definition registerSubVendor (reqVendor : Vendor.t) (body : RegisterBody)
    (newId : ObjectId) (w : World) : Response Vendor.t * World :=
  let parentVendorId := body_parentVendorId body in
  match Vendor.findOneByIdAndType (vendors w) parentVendorId CITY with
  | None => (Failure 400 "Sub vendors can only be registered under a City vendor.", w)
  | Some parentVendor =>
      if negb (bool_decide (Vendor.vendorType reqVendor = SUPER))
         && negb (bool_decide (Vendor._id reqVendor = parentVendorId))
      then
        (Failure 403 "You are not authorized to create a Sub vendor under this City vendor.", w)
      else if bool_decide (Vendor.vendorType reqVendor = SUPER)
              && negb (bool_decide (Vendor.parentVendor parentVendor
                                    = Some (Vendor._id reqVendor)))
      then
        (Failure 400 "The specified parent City vendor is not a direct child of your Super vendor account.", w)
      else
        match Vendor.findOneByEmail (vendors w) (body_email body) with
        | Some _ => (Failure 400 "Vendor already exists", w)
        | None =>
            createVendor (Vendor.mk newId (body_name body) (body_email body) SUB
                                    (Some parentVendorId) (body_permissions body)
                                    (storedAreaOf (body_operatingArea body)) true) w
        end
  end.






End VendorController.

(** * Vocabulary of the properties and sample states *)

Import VendorHierarchyService.

(** ** For validateHierarchy *)

(** The pairs (parent type, child type) the specification lists. *)
Definition permittedPairs : list (VendorType * VendorType) :=
  [(SUPER, CITY); (CITY, SUB); (CITY, LOCAL); (SUB, LOCAL)].

(** The 25 combinations of a parent type and a child type. *)
Definition allCombinations : list (VendorType * VendorType) :=
  pt ← Vendor.allTypes; ct ← Vendor.allTypes; [(pt, ct)].

(** A collection holding one parent of type [pt] and one child of type [ct]. *)
Definition parentAndChild (pt ct : VendorType) : list Vendor.t :=
  [Vendor.mk "parent" "P" "p@example.com" pt None [] None true;
   Vendor.mk "child" "C" "c@example.com" ct None [] None true].

(** The answer of [validateHierarchy] for a child of type [ct] and a parent
    of type [pt]. *)
Definition verdict (pc : VendorType * VendorType) : bool :=
  validateHierarchy (parentAndChild pc.1 pc.2) "child" "parent".

(** ** For transferVendor and getVendorHierarchy *)

(** Two SUPER vendors, and a CITY vendor under the first. *)
Definition transferVendors : list Vendor.t :=
  [Vendor.mk "s1" "North" "north@example.com" SUPER None [] None true;
   Vendor.mk "s2" "South" "south@example.com" SUPER None [] None true;
   Vendor.mk "c1" "Metro" "metro@example.com" CITY (Some "s1") [] None true].

(** The same collection once the hierarchies of both SUPER vendors were
    requested and cached. *)
Definition transferWorld : World :=
  let w := mkWorld transferVendors ∅ ∅ [] ∅ [] in
  let w := (CacheService.cacheVendorHierarchy 3 "s1" w).2 in
  (CacheService.cacheVendorHierarchy 3 "s2" w).2.

(** ** For the compliance reports *)

(** Expired at the instant [now]: the expiry date lies before it. *)
Definition expired (now : Z) (d : Document.t) : Prop :=
  match Document.expiryDate d with
  | Some e => (e < now)%Z
  | None => False
  end.

#[global] Instance expired_dec now d : Decision (expired now d).
Proof. unfold expired. destruct (Document.expiryDate d); apply _. Defined.

(** A document is in order at [now] when it is verified and not expired. *)
Definition inOrder (now : Z) (d : Document.t) : Prop :=
  Document.isVerified d = true ∧ ¬ expired now d.

#[global] Instance inOrder_dec now d : Decision (inOrder now d).
Proof. unfold inOrder. apply _. Defined.

(** The documents attached to the entity [id], and those attached to the
    entity [id] of kind [ty]. *)
Definition attachedTo (id : ObjectId) (d : Document.t) : Prop := Document.entityId d = id.

Definition documentOf (ty : Document.EntityType) (id : ObjectId) (d : Document.t) : Prop :=
  Document.entityType d = ty ∧ Document.entityId d = id.

#[global] Instance attachedTo_dec id d : Decision (attachedTo id d).
Proof. unfold attachedTo. apply _. Defined.

#[global] Instance documentOf_dec ty id d : Decision (documentOf ty id d).
Proof. unfold documentOf. apply _. Defined.

(** Compliant at [now]: at least one of [docs] is the entity's [own], and
    every one that is, is in order. *)
Definition compliant (now : Z) (own : Document.t → Prop) (docs : list Document.t) : Prop :=
  Exists own docs ∧ Forall (fun d => own d → inOrder now d) docs.

#[global] Instance compliant_dec now own `{!∀ d, Decision (own d)} docs :
  Decision (compliant now own docs).
Proof. unfold compliant. apply _. Defined.

(** No expiry date among [docs] is passed while the clock is read: every
    reading finds expired what is expired at [now], and nothing else. *)
Definition steady (clock : nat → Z) (now : Z) (docs : list Document.t) : Prop :=
  ∀ k d, d ∈ docs → expired (clock k) d ↔ expired now d.

(** Every entity falls in exactly one bucket. *)
Definition partitioned (c : Json.Counts) : Prop :=
  Json.compliant c + Json.nonCompliant c = Json.total c.

(** The entry of the compliance report of a vendor, if cached, is a report
    with partitioned counts: what this method stores while time stands. *)
Definition cachedReportsPartitioned (vendorId : ObjectId) (w : World) : Prop :=
  ∀ j ttl, redis w !! ("compliance_report_" +:+ vendorId) = Some (j, ttl) →
    ∃ r, j = Json.JReport r ∧ partitioned (Json.vehicles r) ∧ partitioned (Json.drivers r).

(** The counts of the [items] that satisfy [P], and of the rest. *)
Definition countsOf {A} (P : A → Prop) `{!∀ x, Decision (P x)} (items : list A) : Json.Counts :=
  Json.mkCounts (length items) (length (filter P items))
                (length (filter (fun x => ¬ P x) items)).

(** In the legacy report: the expiry date of an embedded document lies
    after [now], or is reached at [now]. *)
Definition expiresAfter (now : Z) (d : EmbeddedDocument) : Prop :=
  match emb_expiryDate d with
  | Some e => (now < e)%Z
  | None => False
  end.

Definition expiresNotAfter (now : Z) (d : EmbeddedDocument) : Prop :=
  match emb_expiryDate d with
  | Some e => (e ≤ now)%Z
  | None => False
  end.

#[global] Instance expiresAfter_dec now d : Decision (expiresAfter now d).
Proof. unfold expiresAfter. destruct (emb_expiryDate d); apply _. Defined.

#[global] Instance expiresNotAfter_dec now d : Decision (expiresNotAfter now d).
Proof. unfold expiresNotAfter. destruct (emb_expiryDate d); apply _. Defined.

(** Every embedded document is verified and expires after [now]; some
    embedded document is not verified or has reached its expiry date. *)
Definition allEmbeddedInOrder (now : Z) (docs : list EmbeddedDocument) : Prop :=
  Forall (fun d => emb_isVerified d = true ∧ expiresAfter now d) docs.

Definition someEmbeddedNotInOrder (now : Z) (docs : list EmbeddedDocument) : Prop :=
  Exists (fun d => emb_isVerified d = false ∨ expiresNotAfter now d) docs.

#[global] Instance allEmbeddedInOrder_dec now docs : Decision (allEmbeddedInOrder now docs).
Proof. unfold allEmbeddedInOrder. apply _. Defined.

#[global] Instance someEmbeddedNotInOrder_dec now docs :
  Decision (someEmbeddedNotInOrder now docs).
Proof. unfold someEmbeddedNotInOrder. apply _. Defined.


(** A clock that does not move; one that advances by a millisecond at
    each of its first hundred readings, from 1000; and one that reads 1000
    and, a millisecond later, 1001 from then on. *)
Definition still (now : Z) : nat → Z := fun _ => now.

Definition ticking : nat → Z := fun k => (1000 + Z.of_nat (Nat.min k 100))%Z.

Definition advancing : nat → Z := fun k => match k with 0 => 1000%Z | _ => 1001%Z end.


(** Two vehicles of one vendor, seen at time 1000: both documents of
    [car1] are verified and still running, the document of [car2] ran out
    at 500. *)
Definition twoVehicles : World :=
  mkWorld []
    {["car1" := Vehicle.mk "KA01" "vendor" Vehicle.noDocuments None;
      "car2" := Vehicle.mk "KA02" "vendor" Vehicle.noDocuments None]}
    ∅
    [Document.mk "doc1" Document.VEHICLE "car1" (Some 2000%Z) true "vendor";
     Document.mk "doc2" Document.VEHICLE "car1" (Some 3000%Z) true "vendor";
     Document.mk "doc3" Document.VEHICLE "car2" (Some 500%Z) true "vendor"]
    ∅ [].

(** One vehicle whose only document, verified, runs until 1000. *)
Definition expiringFleet : World :=
  mkWorld []
    {["car" := Vehicle.mk "KA01" "vendor" Vehicle.noDocuments None]}
    ∅
    [Document.mk "doc" Document.VEHICLE "car" (Some 1000%Z) true "vendor"]
    ∅ [].

(** ** For the document checks *)

(** The timestamp of a valid [Date]: at most 8.64e15 milliseconds from the
    epoch. *)
Definition validDate (t : Z) : Prop := (Z.abs t ≤ 8640000000000000)%Z.

(** ** For registerLocalVendor *)

(** The form in which cities and zones are compared. *)
Definition normalise (s : string) : string := JsString.trim (JsString.toLowerCase s).

Definition cityMismatch : string :=
  "Local vendor operating area city must match the parent City vendor operating area city.".

(** The CITY vendor of Metropolis, with zones North and South, under a
    SUPER vendor. *)
Definition metropolisCity : Vendor.t :=
  Vendor.mk "c" "Metro Cabs" "metro@example.com" CITY (Some "s") ["FLEET_MANAGEMENT"]
            (Some (Vendor.mkArea (Some "Metropolis") (Some ["North"; "South"]) None [])) true.

Definition metropolis : World :=
  mkWorld [Vendor.mk "s" "Head Office" "head@example.com" SUPER None ["ALL"] None true;
           metropolisCity]
          ∅ ∅ [] ∅ [].

(** A request of the CITY vendor itself for a LOCAL vendor in [city] with
    the given [zones]. *)
Definition localRequest (city : string) (zones : list string) : VendorController.RegisterBody :=
  VendorController.mkBody "Corner Cabs" "corner@example.com" "c" []
    (Some (Vendor.mkArea (Some city) (Some zones) None [])).

(** ** For assignments and deletions *)

(** Every assignment pointer is answered by the partner's pointer. *)
Definition bidirectional (w : World) : Prop :=
  (∀ d driver v,
     drivers w !! d = Some driver → Driver.assignedVehicle driver = Some v →
     ∃ vehicle, vehicles w !! v = Some vehicle ∧ Vehicle.assignedDriver vehicle = Some d)
  ∧ (∀ v vehicle d,
       vehicles w !! v = Some vehicle → Vehicle.assignedDriver vehicle = Some d →
       ∃ driver, drivers w !! d = Some driver ∧ Driver.assignedVehicle driver = Some v).

(** No two drivers reference the same vehicle, no two vehicles the same
    driver. *)
Definition exclusive (w : World) : Prop :=
  (∀ d1 d2 x1 x2 v,
     drivers w !! d1 = Some x1 → drivers w !! d2 = Some x2 →
     Driver.assignedVehicle x1 = Some v → Driver.assignedVehicle x2 = Some v → d1 = d2)
  ∧ (∀ v1 v2 x1 x2 d,
       vehicles w !! v1 = Some x1 → vehicles w !! v2 = Some x2 →
       Vehicle.assignedDriver x1 = Some d → Vehicle.assignedDriver x2 = Some d → v1 = v2).

Definition assignmentInvariant (w : World) : Prop := bidirectional w ∧ exclusive w.

(** The driver points at another vehicle, or the vehicle at another driver. *)
Definition conflict (driverId vehicleId : ObjectId) (driver : Driver.t) (vehicle : Vehicle.t) : Prop :=
  (∃ v, Driver.assignedVehicle driver = Some v ∧ v ≠ vehicleId)
  ∨ (∃ d, Vehicle.assignedDriver vehicle = Some d ∧ d ≠ driverId).

(** The state after either handler completed the assignment of [v] and
    [d]: both were free or already paired, and both pointers are set. *)
Definition paired (d v : ObjectId) (w w' : World) : Prop :=
  ∃ driver vehicle,
    drivers w !! d = Some driver ∧ vehicles w !! v = Some vehicle
    ∧ (Driver.assignedVehicle driver = None ∨ Driver.assignedVehicle driver = Some v)
    ∧ (Vehicle.assignedDriver vehicle = None ∨ Vehicle.assignedDriver vehicle = Some d)
    ∧ drivers w' = <[d := Driver.with_assignedVehicle driver (Some v)]> (drivers w)
    ∧ vehicles w' = <[v := Vehicle.with_assignedDriver vehicle (Some d)]> (vehicles w).

(** The vehicle [car] and the driver [drv] of one vendor, assigned to each
    other. *)
Definition assignedPair : World :=
  mkWorld []
    {["car" := Vehicle.mk "KA01" "vendor" Vehicle.noDocuments (Some "drv")]}
    {["drv" := Driver.mk "Asha" "vendor" Driver.noDocuments (Some "car")]}
    [] ∅ [].

(** A vehicle and a driver of one vendor, both free. *)
Definition freePair : World :=
  mkWorld []
    {["car" := Vehicle.mk "KA01" "vendor" Vehicle.noDocuments None]}
    {["drv" := Driver.mk "Asha" "vendor" Driver.noDocuments None]}
    [] ∅ [].

(** The assigned pair and a second, free vehicle of the same vendor. *)
Definition pairAndSpare : World :=
  set_vehicles assignedPair
    (<["car2" := Vehicle.mk "KA02" "vendor" Vehicle.noDocuments None]> (vehicles assignedPair)).

(** ** For getAllSubVendors *)

(** [reaches db x a]: following [parentVendor] pointers upward from the
    vendor with id [x] leads, in one step or more, to the id [a]. *)
Inductive reaches (db : list Vendor.t) : ObjectId → ObjectId → Prop :=
| reaches_parent x v a :
    Vendor.findById db x = Some v → Vendor.parentVendor v = Some a → reaches db x a
| reaches_step x v p a :
    Vendor.findById db x = Some v → Vendor.parentVendor v = Some p →
    reaches db p a → reaches db x a.

(** The transitive descendants of [vendorId]. *)
Definition descendant (db : list Vendor.t) (vendorId : ObjectId) (v : Vendor.t) : Prop :=
  v ∈ db ∧ reaches db (Vendor._id v) vendorId.

(** No vendor is its own ancestor. *)
Definition acyclic (db : list Vendor.t) : Prop := ∀ x, ¬ reaches db x x.

(** A SUPER vendor, its CITY vendor, and under it a SUB vendor with one
    LOCAL vendor and a LOCAL vendor of the city itself. *)
Definition treeVendors : list Vendor.t :=
  [Vendor.mk "s" "Head Office" "head@example.com" SUPER None [] None true;
   Vendor.mk "c" "Metro Cabs" "metro@example.com" CITY (Some "s") [] None true;
   Vendor.mk "u" "East Depot" "east@example.com" SUB (Some "c") [] None true;
   Vendor.mk "l" "Corner Cabs" "corner@example.com" LOCAL (Some "c") [] None true;
   Vendor.mk "m" "Lane Cabs" "lane@example.com" LOCAL (Some "u") [] None true].

Definition treeRank (id : ObjectId) : nat :=
  if bool_decide (id = "s") then 3
  else if bool_decide (id = "c") then 2
  else if bool_decide (id = "u") then 1
  else 0.

(** A CITY vendor and a SUB vendor that name each other as parent. *)
Definition cyclicVendors : list Vendor.t :=
  [Vendor.mk "a" "Metro Cabs" "metro@example.com" CITY (Some "b") [] None true;
   Vendor.mk "b" "East Depot" "east@example.com" SUB (Some "a") [] None true].

(** ** For buildVendorHierarchy *)

(** A node without children. *)
Definition leafNode (v : Vendor.t) : Json.HierarchyNode :=
  Json.Node (Vendor._id v) (Vendor.name v) (Vendor.vendorType v) [].

(** A CITY vendor with its SUB vendors, then its LOCAL vendors. *)
Definition cityNode (db : list Vendor.t) (c : Vendor.t) : Json.HierarchyNode :=
  Json.Node (Vendor._id c) (Vendor.name c) (Vendor.vendorType c)
    (map leafNode (Vendor.findByParentAndType db (Vendor._id c) SUB)
     ++ map leafNode (Vendor.findByParentAndType db (Vendor._id c) LOCAL)).

(** A SUPER vendor with its CITY vendors. *)
Definition superNode (db : list Vendor.t) (s : Vendor.t) : Json.HierarchyNode :=
  Json.Node (Vendor._id s) (Vendor.name s) (Vendor.vendorType s)
    (map (cityNode db) (Vendor.findByParentAndType db (Vendor._id s) CITY)).

(** The hierarchy of a vendor written out level by level. *)
Definition hierarchyOf (db : list Vendor.t) (vendorId : ObjectId) : option Json.HierarchyNode :=
  match Vendor.findById db vendorId with
  | None => None
  | Some v =>
      Some (match Vendor.vendorType v with
            | SUPER => superNode db v
            | CITY => cityNode db v
            | _ => leafNode v
            end)
  end.

(** The ids of the nodes of a hierarchy, the root first. *)
Fixpoint nodeIds (n : Json.HierarchyNode) : list ObjectId :=
  match n with
  | Json.Node id _ _ children => id :: flat_map nodeIds children
  end.

(** ** For the shape of the vendor collection *)

(** The rank of a vendor type in the ordering SUPER > CITY > SUB > LOCAL. *)
Definition level (ty : VendorType) : nat :=
  match ty with
  | SUPER => 3
  | CITY => 2
  | SUB => 1
  | _ => 0
  end.

(** Every parent pointer leads to a vendor of the collection, and the pair
    is one that [validateHierarchy] accepts. *)
Definition wellTyped (db : list Vendor.t) : Prop :=
  ∀ v p, v ∈ db → Vendor.parentVendor v = Some p →
    ∃ parent, Vendor.findById db p = Some parent
              ∧ (Vendor.vendorType parent, Vendor.vendorType v) ∈ permittedPairs.

(** Ids are unique and the collection is well typed. *)
Definition consistent (db : list Vendor.t) : Prop :=
  NoDup (map Vendor._id db) ∧ wellTyped db.

(** One request that changes the vendor collection, served with an [_id]
    that no stored vendor has. *)
Inductive served : World → World → Prop :=
| served_registerVendor body newId w :
    newId ∉ map Vendor._id (vendors w) →
    served w (VendorController.registerVendor body newId w).2
| served_registerCityVendor reqVendor body newId w :
    newId ∉ map Vendor._id (vendors w) →
    served w (VendorController.registerCityVendor reqVendor body newId w).2
| served_registerSubVendor reqVendor body newId w :
    newId ∉ map Vendor._id (vendors w) →
    served w (VendorController.registerSubVendor reqVendor body newId w).2
| served_registerLocalVendor reqVendor body newId w :
    newId ∉ map Vendor._id (vendors w) →
    served w (VendorController.registerLocalVendor reqVendor body newId w).2
| served_transferVendor vendorId newParentId w :
    served w (transferVendor vendorId newParentId w).2.

(** What a registration handler leaves behind: nothing on a refusal, and on
    success one more vendor of type [ty] with the id it was given, under a
    stored parent of type [pty] when it has a parent. *)
Definition registration (ty : VendorType) (pty : VendorType) (newId : ObjectId)
    (w : World) (out : Response Vendor.t * World) : Prop :=
  (succeeded out.1 = false ∧ out.2 = w)
  ∨ ∃ vendor,
      out.1 = Success 201 vendor
      ∧ vendors out.2 = vendors w ++ [vendor]
      ∧ Vendor._id vendor = newId
      ∧ Vendor.vendorType vendor = ty
      ∧ ∀ p, Vendor.parentVendor vendor = Some p →
             ∃ parent, (Vendor.findById (vendors w) p = Some parent
                        ∨ Vendor.findOneByIdAndType (vendors w) p pty = Some parent)
                       ∧ Vendor.vendorType parent = pty ∧ Vendor._id parent = p.

(** ** For the cache *)

(** Metropolis once the hierarchies of the SUPER vendor and of the CITY
    vendor were cached. *)
Definition metropolisCached : World :=
  let w := (CacheService.cacheVendorHierarchy 3 "s" metropolis).2 in
  (CacheService.cacheVendorHierarchy 3 "c" w).2.

(** ** For the requests on drivers and vehicles *)

(** The state after the pair [d], [v] was released: both pointers are
    cleared and nothing else changed in the two collections. *)
Definition released (d v : ObjectId) (w w' : World) : Prop :=
  drivers w' = alter (fun x => Driver.with_assignedVehicle x None) d (drivers w)
  ∧ vehicles w' = alter (fun x => Vehicle.with_assignedDriver x None) v (vehicles w).

(** One request of the vendor [reqVendor] on its drivers and vehicles. *)
Inductive fleetRequest (reqVendor : ObjectId) : World → World → Prop :=
| request_assignVehicleToDriver d v w :
    fleetRequest reqVendor w (DriverController.assignVehicleToDriver reqVendor d v w).2
| request_assignDriverToVehicle v d w :
    fleetRequest reqVendor w (VehicleController.assignDriverToVehicle reqVendor v d w).2
| request_unassignVehicleFromDriver d w :
    fleetRequest reqVendor w (DriverController.unassignVehicleFromDriver reqVendor d w).2
| request_unassignDriverFromVehicle v w :
    fleetRequest reqVendor w (VehicleController.unassignDriverFromVehicle reqVendor v w).2
| request_deleteDriver d w :
    fleetRequest reqVendor w (DriverController.deleteDriver reqVendor d w).2.

(** What such a request does to the two collections. *)
Inductive effect (reqVendor : ObjectId) (w w' : World) : Prop :=
| effect_none :
    drivers w' = drivers w → vehicles w' = vehicles w → effect reqVendor w w'
| effect_paired d v driver vehicle :
    drivers w !! d = Some driver → vehicles w !! v = Some vehicle →
    Driver.vendor driver = reqVendor → Vehicle.vendor vehicle = reqVendor →
    Driver.assignedVehicle driver = None ∨ Driver.assignedVehicle driver = Some v →
    Vehicle.assignedDriver vehicle = None ∨ Vehicle.assignedDriver vehicle = Some d →
    drivers w' = <[d := Driver.with_assignedVehicle driver (Some v)]> (drivers w) →
    vehicles w' = <[v := Vehicle.with_assignedDriver vehicle (Some d)]> (vehicles w) →
    effect reqVendor w w'
| effect_released_by_driver d v driver :
    drivers w !! d = Some driver → Driver.vendor driver = reqVendor →
    Driver.assignedVehicle driver = Some v →
    released d v w w' →
    effect reqVendor w w'
| effect_released_by_vehicle d v vehicle :
    vehicles w !! v = Some vehicle → Vehicle.vendor vehicle = reqVendor →
    Vehicle.assignedDriver vehicle = Some d →
    released d v w w' →
    effect reqVendor w w'
| effect_deleted d driver :
    drivers w !! d = Some driver → Driver.vendor driver = reqVendor →
    drivers w' = delete d (drivers w) →
    vehicles w' = match Driver.assignedVehicle driver with
                  | Some v => alter (fun x => Vehicle.with_assignedDriver x None) v (vehicles w)
                  | None => vehicles w
                  end →
    effect reqVendor w w'.

(** Every assignment pointer stays within one vendor: a driver and the
    vehicle it names, a vehicle and the driver it names, belong to the same
    vendor, whether or not the one named names it back. *)
Definition pointersWithinVendor (w : World) : Prop :=
  (∀ d x v y,
     drivers w !! d = Some x → Driver.assignedVehicle x = Some v →
     vehicles w !! v = Some y → Vehicle.vendor y = Driver.vendor x)
  ∧ (∀ v y d x,
       vehicles w !! v = Some y → Vehicle.assignedDriver y = Some d →
       drivers w !! d = Some x → Driver.vendor x = Vehicle.vendor y).

(** The drivers and vehicles of every vendor other than [reqVendor] are
    the same in [w] and [w']: none added, none removed, none changed. *)
Definition othersUntouched (reqVendor : ObjectId) (w w' : World) : Prop :=
  (∀ d x, Driver.vendor x ≠ reqVendor → drivers w' !! d = Some x ↔ drivers w !! d = Some x)
  ∧ (∀ v x, Vehicle.vendor x ≠ reqVendor → vehicles w' !! v = Some x ↔ vehicles w !! v = Some x).

(** The fleets of two vendors: [assignedPair] of the first and a free
    vehicle and a free driver of the second. *)
Definition twoFleets : World :=
  mkWorld []
    (<["van" := Vehicle.mk "MH02" "rival" Vehicle.noDocuments None]> (vehicles assignedPair))
    (<["dan" := Driver.mk "Dan" "rival" Driver.noDocuments None]> (drivers assignedPair))
    [] ∅ [].

(** A driver of one vendor whose pointer names the vehicle of another
    vendor, which is assigned to a driver of its own vendor. *)
Definition crossedFleets : World :=
  mkWorld []
    {["van" := Vehicle.mk "MH02" "rival" Vehicle.noDocuments (Some "dan")]}
    {["drv" := Driver.mk "Asha" "vendor" Driver.noDocuments (Some "van");
      "dan" := Driver.mk "Dan" "rival" Driver.noDocuments (Some "van")]}
    [] ∅ [].

(** * Properties *)

(** ** Lookups in the vendor collection *)

Lemma findById_Some db id v :
  Vendor.findById db id = Some v → v ∈ db ∧ Vendor._id v = id.
Proof.
  unfold Vendor.findById. intros H. apply find_some in H as [Hin Heq].
  apply bool_decide_eq_true in Heq. split; [by apply list_elem_of_In | done].
Qed.

Lemma findById_unique db v :
  NoDup (map Vendor._id db) → v ∈ db → Vendor.findById db (Vendor._id v) = Some v.
Proof.
  unfold Vendor.findById. induction db as [|a db IH]; intros Hnd Hin.
  - by apply elem_of_nil in Hin.
  - simpl in *. apply NoDup_cons in Hnd as [Hna Hnd].
    apply elem_of_cons in Hin as [->|Hin].
    + by rewrite bool_decide_eq_true_2.
    + rewrite bool_decide_eq_false_2; [by apply IH|].
      intros Heq. apply Hna. rewrite Heq. by apply list_elem_of_fmap_2.
Qed.

Lemma elem_of_findByParent db id v :
  v ∈ Vendor.findByParent db id ↔ v ∈ db ∧ Vendor.parentVendor v = Some id.
Proof.
  unfold Vendor.findByParent. rewrite !list_elem_of_In, filter_In.
  by rewrite bool_decide_eq_true.
Qed.

(** ** validateHierarchy *)

Lemma validateHierarchy_true_iff db childId parentId :
  validateHierarchy db childId parentId = true ↔
  ∃ child parent,
    Vendor.findById db childId = Some child ∧
    Vendor.findById db parentId = Some parent ∧
    (Vendor.vendorType parent, Vendor.vendorType child) ∈ permittedPairs.
Proof.
  unfold validateHierarchy, permittedPairs.
  destruct (Vendor.findById db childId) as [c|], (Vendor.findById db parentId) as [p|];
    try (split; [done | by intros (? & ? & ? & ? & ?)]).
  split.
  - intros H. exists c, p. split_and!; try done.
    destruct (Vendor.vendorType p), (Vendor.vendorType c); try done;
      rewrite !elem_of_cons; auto.
  - intros (c' & p' & [= <-] & [= <-] & H).
    rewrite !elem_of_cons, elem_of_nil in H.
    destruct H as [H|[H|[H|[H|[]]]]]; injection H as -> ->; by vm_compute.
Qed.

(** C1, as amended: [validateHierarchy] answers true exactly when both
    vendors exist and (parent type, child type) is one of the four pairs
    SUPER→CITY, CITY→SUB, CITY→LOCAL, SUB→LOCAL, and false otherwise, also
    when a vendor is missing; of the 25 combinations of types it accepts 4
    and rejects 21. *)
Theorem validateHierarchy_four_pairs :
  (∀ db childId parentId,
     validateHierarchy db childId parentId = true ↔
     ∃ child parent,
       Vendor.findById db childId = Some child ∧
       Vendor.findById db parentId = Some parent ∧
       (Vendor.vendorType parent, Vendor.vendorType child) ∈ permittedPairs)
  ∧ (∀ db childId parentId,
       validateHierarchy db childId parentId =
       match Vendor.findById db childId, Vendor.findById db parentId with
       | Some child, Some parent =>
           bool_decide ((Vendor.vendorType parent, Vendor.vendorType child) ∈ permittedPairs)
       | _, _ => false
       end)
  ∧ List.filter verdict allCombinations = permittedPairs
  ∧ length (List.filter verdict allCombinations) = 4
  ∧ length (List.filter (fun pc => negb (verdict pc)) allCombinations) = 21.
Proof.
  split; [exact validateHierarchy_true_iff|]. split; [|by vm_compute].
  intros db childId parentId. unfold validateHierarchy.
  destruct (Vendor.findById db childId) as [c|], (Vendor.findById db parentId) as [p|];
    try done.
  destruct (Vendor.vendorType p), (Vendor.vendorType c); by vm_compute.
Qed.

(** C1, as stated, fails: the accepted combinations are not five and the
    rejected ones are not twenty. *)
Lemma validateHierarchy_not_five_pairs :
  ¬ (length (List.filter verdict allCombinations) = 5
     ∧ length (List.filter (fun pc => negb (verdict pc)) allCombinations) = 20).
Proof. vm_compute. by intros [? _]. Qed.

(** ** transferVendor *)

Lemma findById_save db v id :
  Vendor.findById (Vendor.save db v) id =
  (fun w => if bool_decide (Vendor._id w = Vendor._id v) then v else w) <$> Vendor.findById db id.
Proof.
  unfold Vendor.findById, Vendor.save. induction db as [|a db IH]; [done|].
  cbn [map find]. destruct (decide (Vendor._id a = Vendor._id v)) as [Ha|Ha].
  - rewrite (bool_decide_eq_true_2 _ Ha), Ha.
    destruct (bool_decide (Vendor._id v = id)) eqn:Hid; [|exact IH].
    cbn. by rewrite bool_decide_eq_true_2.
  - rewrite (bool_decide_eq_false_2 _ Ha).
    destruct (bool_decide (Vendor._id a = id)) eqn:Hid; [|exact IH].
    cbn. by rewrite bool_decide_eq_false_2.
Qed.

Lemma hierarchy_key_inj a b :
  "vendor_hierarchy_" +:+ a = "vendor_hierarchy_" +:+ b → a = b.
Proof. apply String.app_inj. Qed.

(** What a successful [transferVendor] does, on every input: the vendor is
    re-parented and only the entry of the new parent leaves the cache. *)
Lemma transferVendor_returns vendorId newParentId w v w' :
  transferVendor vendorId newParentId w = (Returns v, w') →
  Vendor.parentVendor v = Some newParentId
  ∧ Vendor.findById (vendors w') vendorId = Some v
  ∧ redis w' = delete ("vendor_hierarchy_" +:+ newParentId) (redis w).
Proof.
  unfold transferVendor.
  destruct (Vendor.findById (vendors w) vendorId) as [vendor|] eqn:Hv; [|done].
  destruct (Vendor.findById (vendors w) newParentId) as [np|]; [|done].
  destruct (validateHierarchy (vendors w) vendorId newParentId); [|done].
  simpl. intros [= <- <-]. simpl. split_and!; [done| |].
  - rewrite findById_save, Hv. simpl.
    apply findById_Some in Hv as [_ Hid].
    by rewrite bool_decide_eq_true_2.
  - by rewrite delete_delete_eq.
Qed.

(** The entry of the old parent survives the transfer. *)
Lemma transferVendor_old_parent_entry vendorId newParentId oldParentId w v w' :
  oldParentId ≠ newParentId →
  transferVendor vendorId newParentId w = (Returns v, w') →
  redis w' !! ("vendor_hierarchy_" +:+ oldParentId)
  = redis w !! ("vendor_hierarchy_" +:+ oldParentId).
Proof.
  intros Hne H. apply transferVendor_returns in H as (_ & _ & ->).
  apply lookup_delete_ne. intros Heq. apply hierarchy_key_inj in Heq. done.
Qed.

(** C3, at a failing input: the CITY vendor [c1] moves from [s1] to [s2];
    the transfer succeeds and the entry of the new parent is gone, but the
    entry [vendor_hierarchy_s1] of the old parent is still cached and
    still lists [c1] as a child. *)
Theorem transferVendor_stale_old_parent :
  ∃ v w',
    transferVendor "c1" "s2" transferWorld = (Returns v, w')
    ∧ Vendor.parentVendor v = Some "s2"
    ∧ Vendor.findById (vendors w') "c1" = Some v
    ∧ redis w' !! "vendor_hierarchy_s2" = None
    ∧ redis w' !! "vendor_hierarchy_s1"
      = Some (Json.JHierarchy
                (Json.Node "s1" "North" SUPER [Json.Node "c1" "Metro" CITY []]), 600).
Proof.
  destruct (transferVendor "c1" "s2" transferWorld) as [r w'] eqn:H.
  assert (r = Returns (Vendor.mk "c1" "Metro" "metro@example.com" CITY (Some "s2") [] None true))
    as -> by (by vm_compute in H; injection H as <- _).
  eexists _, w'. split; [done|].
  pose proof (transferVendor_returns _ _ _ _ _ H) as (H1 & H2 & H3).
  split_and!; try done.
  - rewrite H3. apply lookup_delete_eq.
  - change "vendor_hierarchy_s1" with ("vendor_hierarchy_" +:+ "s1").
    rewrite (transferVendor_old_parent_entry "c1" "s2" "s1" _ _ _ ltac:(done) H).
    by vm_compute.
Qed.

(** ** getVendorHierarchy *)

(** The branch that builds and caches is dead: whatever the cache holds,
    the method returns what [get] resolves to and only [get] is called. *)
Lemma getVendorHierarchy_never_builds fuel vendorId w :
  getVendorHierarchy fuel vendorId w
  = let '(j, w') := CacheService.get ("vendor_hierarchy_" +:+ vendorId) w in
    (Returns j, w').
Proof. done. Qed.

(** C10: on a cache miss [getVendorHierarchy] resolves to [null]; the
    collections and the cache are unchanged, and the only call made on the
    cache service is the [get], never [cacheVendorHierarchy]. *)
Theorem getVendorHierarchy_miss_returns_null fuel vendorId w :
  redis w !! ("vendor_hierarchy_" +:+ vendorId) = None →
  ∃ w',
    getVendorHierarchy fuel vendorId w = (Returns Json.JNull, w')
    ∧ redis w' = redis w
    ∧ vendors w' = vendors w
    ∧ trace w' = CallGet ("vendor_hierarchy_" +:+ vendorId) :: trace w
    ∧ (∀ id, CallCacheVendorHierarchy id ∈ trace w' → CallCacheVendorHierarchy id ∈ trace w)
    ∧ (∀ key, CallSet key ∈ trace w' → CallSet key ∈ trace w).
Proof.
  intros Hmiss. eexists. unfold getVendorHierarchy, CacheService.get.
  rewrite Hmiss. simpl. split_and!; try done.
  - intros id Hin. by apply elem_of_cons in Hin as [?|?].
  - intros key Hin. by apply elem_of_cons in Hin as [?|?].
Qed.

Lemma getVendorHierarchy_miss_witness :
  ∃ w',
    getVendorHierarchy 3 "s1" (mkWorld transferVendors ∅ ∅ [] ∅ [])
    = (Returns Json.JNull, w')
    ∧ redis w' = ∅
    ∧ trace w' = [CallGet "vendor_hierarchy_s1"].
Proof.
  destruct (getVendorHierarchy_miss_returns_null 3 "s1" (mkWorld transferVendors ∅ ∅ [] ∅ []))
    as (w' & H1 & H2 & _ & H4 & _).
  - reflexivity.
  - exists w'. split_and!; done.
Defined.

(** ** documentUtils: expired and expiring soon *)

Lemma ceilDiv_pos a b : (0 < b)%Z → (0 < DocumentUtils.ceilDiv a b ↔ 0 < a)%Z.
Proof.
  intros Hb. unfold DocumentUtils.ceilDiv.
  pose proof (Z.div_mod (- a) b ltac:(lia)).
  pose proof (Z.mod_pos_bound (- a) b Hb). nia.
Qed.

Lemma ceilDiv_le a b k : (0 < b)%Z → (DocumentUtils.ceilDiv a b ≤ k ↔ a ≤ k * b)%Z.
Proof.
  intros Hb. unfold DocumentUtils.ceilDiv.
  pose proof (Z.div_mod (- a) b ltac:(lia)).
  pose proof (Z.mod_pos_bound (- a) b Hb). nia.
Qed.

Lemma isDocumentExpired_iff now date :
  DocumentUtils.isDocumentExpired now date = true ↔ (date < now)%Z.
Proof. unfold DocumentUtils.isDocumentExpired. cbv zeta. rewrite Z.gtb_gt. lia. Qed.

Lemma isDocumentExpiringSoon_iff now date days :
  DocumentUtils.isDocumentExpiringSoon now date days = true
  ↔ (now < date ∧ date ≤ now + days * DocumentUtils.msPerDay)%Z.
Proof.
  unfold DocumentUtils.isDocumentExpiringSoon. cbv zeta.
  rewrite andb_true_iff, Z.leb_le, Z.gtb_gt.
  assert (0 < DocumentUtils.msPerDay)%Z as Hd by done.
  rewrite (ceilDiv_le _ _ days Hd).
  pose proof (ceilDiv_pos (date - now) _ Hd). lia.
Qed.

(** C8: [isDocumentExpired(date)] holds exactly when [date < now];
    [isDocumentExpiringSoon(date, 30)] holds exactly when
    [now < date ≤ now + 30 days]; the two never hold together; a date
    exactly 30 days ahead is expiring soon, the current date and a past
    date are not. *)
Theorem expired_and_expiring_soon now date :
  (DocumentUtils.isDocumentExpired now date = true ↔ (date < now)%Z)
  ∧ (DocumentUtils.isDocumentExpiringSoon now date 30 = true
     ↔ (now < date ∧ date ≤ now + 30 * DocumentUtils.msPerDay)%Z)
  ∧ ¬ (DocumentUtils.isDocumentExpired now date = true
       ∧ DocumentUtils.isDocumentExpiringSoon now date 30 = true)
  ∧ DocumentUtils.isDocumentExpiringSoon now (now + 30 * DocumentUtils.msPerDay) 30 = true
  ∧ DocumentUtils.isDocumentExpiringSoon now (now + 30 * DocumentUtils.msPerDay + 1) 30 = false
  ∧ DocumentUtils.isDocumentExpiringSoon now now 30 = false
  ∧ ((date < now)%Z ↔ DocumentUtils.isDocumentExpiringSoon now date 30 = false
                      ∧ DocumentUtils.isDocumentExpired now date = true).
Proof.
  pose proof (isDocumentExpired_iff now date) as He.
  pose proof (isDocumentExpiringSoon_iff now date 30) as Hs.
  assert (0 < DocumentUtils.msPerDay)%Z as Hd by done.
  split_and!; try done.
  - rewrite He, Hs. lia.
  - apply isDocumentExpiringSoon_iff. lia.
  - apply not_true_is_false. rewrite isDocumentExpiringSoon_iff. lia.
  - apply not_true_is_false. rewrite isDocumentExpiringSoon_iff. lia.
  - rewrite <- not_true_iff_false, He, Hs. lia.
Qed.

(** ** Reading the clock *)

(** When [f] gives on each element the answer of [g], whatever the
    reading at which it is asked, the three loops are those of [g]. *)
Lemma every_forallb {A} (f : A → Timed bool) (g : A → bool) clock (l : list A) :
  (∀ x t, x ∈ l → (f x clock t).1 = g x) →
  ∀ t, (Timed.every f l clock t).1 = forallb g l.
Proof.
  induction l as [|x l IH]; intros H t; simpl; [done|].
  unfold Timed.bind. pose proof (H x t ltac:(by left)) as Hx.
  destruct (f x clock t) as [b t']. simpl in Hx. subst b.
  destruct (g x); simpl; [|done]. apply IH. intros y s Hy. apply H. by right.
Qed.


Lemma filter_filter {A} (f : A → Timed bool) (g : A → bool) clock (l : list A) :
  (∀ x t, x ∈ l → (f x clock t).1 = g x) →
  ∀ t, (Timed.filter f l clock t).1 = List.filter g l.
Proof.
  induction l as [|x l IH]; intros H t; simpl; [done|].
  unfold Timed.bind. pose proof (H x t ltac:(by left)) as Hx.
  destruct (f x clock t) as [b t']. simpl in Hx. subst b.
  specialize (IH (fun y s Hy => H y s ltac:(by right)) t').
  destruct (Timed.filter f l clock t') as [kept t'']. simpl in *. subst kept.
  by destruct (g x).
Qed.


(** A boolean filter is the filter of the property it decides. *)
Lemma filter_decide {A} (g : A → bool) (P : A → Prop) `{!∀ x, Decision (P x)} (l : list A) :
  (∀ x, x ∈ l → g x = true ↔ P x) → List.filter g l = filter P l.
Proof.
  induction l as [|x l IH]; intros Hg; simpl; [done|].
  rewrite filter_cons, IH by (intros y Hy; apply Hg; by right).
  pose proof (Hg x ltac:(by left)) as Hx.
  destruct (g x), (decide (P x)) as [HP|HP]; try reflexivity.
  - exfalso. apply HP. by apply Hx.
  - apply Hx in HP. discriminate HP.
Qed.

Lemma eq_bool_decide (b : bool) (P : Prop) `{!Decision P} : (b = true ↔ P) → b = bool_decide P.
Proof.
  intros Hb. destruct b; case_bool_decide as HP; try reflexivity.
  - exfalso. apply HP. by apply Hb.
  - apply Hb in HP. discriminate HP.
Qed.

Lemma countsOf_partitioned {A} (P : A → Prop) `{!∀ x, Decision (P x)} (l : list A) :
  partitioned (countsOf P l).
Proof.
  unfold partitioned, countsOf. simpl.
  induction l as [|x l IH]; [done|]. rewrite !filter_cons.
  destruct (decide (P x)), (decide (¬ P x)); simpl; try lia; contradiction.
Qed.

Lemma countsOf_filter {A} (g : A → bool) (P : A → Prop) `{!∀ x, Decision (P x)} (l : list A) :
  (∀ x, x ∈ l → g x = true ↔ P x) →
  Json.mkCounts (length l) (length (List.filter g l))
                (length (List.filter (fun x => negb (g x)) l))
  = countsOf P l.
Proof.
  intros Hg. unfold countsOf.
  rewrite (filter_decide g P l Hg).
  rewrite (filter_decide (fun x => negb (g x)) (fun x => ¬ P x) l); [done|].
  intros x Hx. rewrite negb_true_iff, <- not_true_iff_false. by rewrite (Hg x Hx).
Qed.

(** ** isEntityCompliant and the two compliance reports *)

Lemma elem_of_findDocuments docs ids ty d :
  d ∈ DocumentService.findDocuments docs ids ty
  ↔ d ∈ docs ∧ Document.entityId d ∈ ids ∧ Document.entityType d = ty.
Proof.
  unfold DocumentService.findDocuments.
  rewrite !list_elem_of_In, filter_In, andb_true_iff, !bool_decide_eq_true.
  by rewrite list_elem_of_In.
Qed.

(** On a steady clock a call of [isDocumentExpired] answers whether the
    document is expired at [now]. *)
Lemma callIsDocumentExpired_steady clock now docs d t :
  steady clock now docs → d ∈ docs →
  (DocumentService.callIsDocumentExpired d clock t).1 = bool_decide (expired now d).
Proof.
  intros Hs Hd. specialize (Hs t d Hd). apply eq_bool_decide. rewrite <- Hs.
  unfold DocumentService.callIsDocumentExpired, DocumentService.isDocumentExpired, expired.
  destruct (Document.expiryDate d) as [e|]; simpl; [apply Z.ltb_lt | done].
Qed.

(** The documents that [isEntityCompliant] looks at. *)
Lemma elem_of_entityDocs entityId docs d :
  In d (List.filter (fun doc => bool_decide (Document.entityId doc = entityId)) docs)
  ↔ d ∈ docs ∧ attachedTo entityId d.
Proof. by rewrite filter_In, bool_decide_eq_true, list_elem_of_In. Qed.

Lemma isEntityCompliant_steady clock now entityId docs t :
  steady clock now docs →
  (DocumentService.isEntityCompliant entityId docs clock t).1 = true
  ↔ compliant now (attachedTo entityId) docs.
Proof.
  intros Hs. unfold DocumentService.isEntityCompliant, compliant. cbv zeta.
  pose proof (elem_of_entityDocs entityId docs) as Hin.
  destruct (List.filter _ docs) as [|d0 entityDocs] eqn:E.
  { simpl. rewrite Exists_exists. split; [done|]. intros [(d & Hd & Ha) _].
    destruct (proj2 (Hin d) (conj Hd Ha)). }
  set (l := d0 :: entityDocs) in *.
  replace (bool_decide (0 < length l)) with true
    by (symmetry; apply bool_decide_eq_true; simpl; lia).
  rewrite Exists_exists, Forall_forall.
  rewrite (every_forallb _ (fun d => bool_decide (inOrder now d))).
  - rewrite forallb_forall. split.
    + intros Hall. split.
      * exists d0. apply Hin. by left.
      * intros d Hd Ha. eapply bool_decide_eq_true, Hall, Hin. done.
    + intros [_ Hall] d Hd. apply Hin in Hd as [Hd Ha].
      apply bool_decide_eq_true. by apply Hall.
  - intros d s Hd. apply list_elem_of_In, Hin in Hd as [Hd _].
    apply eq_bool_decide. unfold inOrder. destruct (Document.isVerified d) eqn:Ev.
    + unfold Timed.bind.
      pose proof (callIsDocumentExpired_steady clock now docs d s Hs Hd) as He.
      destruct (DocumentService.callIsDocumentExpired d clock s) as [b s']. simpl in *.
      subst b. rewrite negb_true_iff, bool_decide_eq_false. tauto.
    + simpl. split; [done|]. intros [? _]. discriminate.
Qed.



(** Among the documents found for the entities [ids] of kind [ty], those
    attached to one of these entities are its documents in the collection. *)
Lemma attachedTo_findDocuments docs ids ty id d :
  id ∈ ids →
  d ∈ DocumentService.findDocuments docs ids ty ∧ attachedTo id d
  ↔ d ∈ docs ∧ documentOf ty id d.
Proof.
  intros Hid. rewrite elem_of_findDocuments. unfold attachedTo, documentOf. split.
  - intros [(? & ? & ?) ?]. done.
  - intros (? & ? & He). rewrite He. done.
Qed.

Lemma compliant_findDocuments now docs ids ty id :
  id ∈ ids →
  compliant now (attachedTo id) (DocumentService.findDocuments docs ids ty)
  ↔ compliant now (documentOf ty id) docs.
Proof.
  intros Hid. unfold compliant. rewrite !Exists_exists, !Forall_forall.
  pose proof (attachedTo_findDocuments docs ids ty id) as Hd. split.
  - intros [(d & H1 & H2) Hall]. split.
    + exists d. by apply Hd.
    + intros x Hx Ho. destruct (proj2 (Hd x Hid) (conj Hx Ho)). by apply Hall.
  - intros [(d & H1 & H2) Hall]. split.
    + exists d. by apply Hd.
    + intros x Hx Ha. destruct (proj1 (Hd x Hid) (conj Hx Ha)). by apply Hall.
Qed.


Lemma steady_findDocuments clock now docs ids ty :
  steady clock now docs → steady clock now (DocumentService.findDocuments docs ids ty).
Proof.
  intros Hs k d Hd. apply Hs. by apply elem_of_findDocuments in Hd as (? & _).
Qed.

(** The counts for one kind of entity, on a steady clock and on any. *)
Lemma negated_filter {A} (f : A → Timed bool) (g : A → bool) clock (l : list A) :
  (∀ x t, x ∈ l → (f x clock t).1 = g x) →
  ∀ t, (Timed.filter (fun x => let* c := f x in Timed.ret (negb c)) l clock t).1
       = List.filter (fun x => negb (g x)) l.
Proof.
  intros Hf. apply filter_filter. intros x t Hx. unfold Timed.bind, Timed.ret.
  specialize (Hf x t Hx). destruct (f x clock t) as [b t']. simpl in *. by subst b.
Qed.

Lemma entity_in_ids {A} (items : list (ObjectId * A)) x : x ∈ items → x.1 ∈ map fst items.
Proof. intros Hx. apply list_elem_of_fmap. by exists x. Qed.

Lemma bind_run {A B} (m : Timed A) (k : A → Timed B) clock t :
  Timed.bind m k clock t = k (m clock t).1 clock (m clock t).2.
Proof. unfold Timed.bind. by destruct (m clock t). Qed.

(** The report, read off the four filters. *)
Lemma buildReport_filters vs ds vdocs ddocs clock t :
  ∃ t1 t2 t3,
    (DocumentService.buildReport vs ds vdocs ddocs clock t).1
    = Json.mkReport
        (Json.mkCounts
           (length vs)
           (length (Timed.filter (fun v => DocumentService.isEntityCompliant v.1 vdocs)
                                 vs clock t).1)
           (length (Timed.filter (fun v => let* c := DocumentService.isEntityCompliant v.1 vdocs
                                           in Timed.ret (negb c)) vs clock t1).1))
        (Json.mkCounts
           (length ds)
           (length (Timed.filter (fun d => DocumentService.isEntityCompliant d.1 ddocs)
                                 ds clock t2).1)
           (length (Timed.filter (fun d => let* c := DocumentService.isEntityCompliant d.1 ddocs
                                           in Timed.ret (negb c)) ds clock t3).1)).
Proof.
  unfold DocumentService.buildReport.
  do 4 (rewrite bind_run; cbv beta). by eexists _, _, _.
Qed.

Lemma getVendorComplianceReport_miss clock vendorId w :
  redis w !! ("compliance_report_" +:+ vendorId) = None →
  ∃ r w',
    DocumentService.getVendorComplianceReport clock vendorId w = (Json.JReport r, w')
    ∧ redis w' = <["compliance_report_" +:+ vendorId := (Json.JReport r, 300)]> (redis w)
    ∧ r = (let vs := Vehicle.findByVendor (vehicles w) vendorId in
           let ds := Driver.findByVendor (drivers w) vendorId in
           DocumentService.buildReport vs ds
             (DocumentService.findDocuments (documents w) (map fst vs) Document.VEHICLE)
             (DocumentService.findDocuments (documents w) (map fst ds) Document.DRIVER)
             clock 0).1.
Proof.
  intros Hmiss. unfold DocumentService.getVendorComplianceReport, CacheService.get.
  rewrite Hmiss. simpl. eexists _, _. split_and!; reflexivity.
Qed.

(** On a steady clock the report counts, among the vendor's vehicles and
    drivers, those that are compliant at [now] and the others. *)
Lemma getVendorComplianceReport_steady clock now vendorId w :
  redis w !! ("compliance_report_" +:+ vendorId) = None →
  steady clock now (documents w) →
  ∃ r w',
    DocumentService.getVendorComplianceReport clock vendorId w = (Json.JReport r, w')
    ∧ redis w' = <["compliance_report_" +:+ vendorId := (Json.JReport r, 300)]> (redis w)
    ∧ Json.vehicles r
      = countsOf (fun v => compliant now (documentOf Document.VEHICLE v.1) (documents w))
                 (Vehicle.findByVendor (vehicles w) vendorId)
    ∧ Json.drivers r
      = countsOf (fun d => compliant now (documentOf Document.DRIVER d.1) (documents w))
                 (Driver.findByVendor (drivers w) vendorId).
Proof.
  intros Hmiss Hs.
  destruct (getVendorComplianceReport_miss clock vendorId w Hmiss) as (r & w' & Hrun & Hr & ->).
  eexists _, w'. split; [exact Hrun|]. split; [exact Hr|]. cbv zeta.
  set (vs := Vehicle.findByVendor (vehicles w) vendorId).
  set (ds := Driver.findByVendor (drivers w) vendorId).
  set (vdocs := DocumentService.findDocuments _ (map fst vs) _).
  set (ddocs := DocumentService.findDocuments _ (map fst ds) _).
  destruct (buildReport_filters vs ds vdocs ddocs clock 0) as (t1 & t2 & t3 & ->). simpl.
  assert (∀ (ids : list ObjectId) ty id t,
            (DocumentService.isEntityCompliant id
               (DocumentService.findDocuments (documents w) ids ty) clock t).1
            = bool_decide (compliant now (attachedTo id)
                             (DocumentService.findDocuments (documents w) ids ty))) as Hc.
  { intros ids ty id t. apply eq_bool_decide, isEntityCompliant_steady.
    by apply steady_findDocuments. }
  split.
  - rewrite (filter_filter _ (fun v => bool_decide (compliant now (attachedTo v.1) vdocs)))
      by (intros; apply Hc).
    rewrite (negated_filter _ (fun v => bool_decide (compliant now (attachedTo v.1) vdocs)))
      by (intros; apply Hc).
    apply countsOf_filter. intros v Hv. rewrite bool_decide_eq_true.
    apply compliant_findDocuments. by apply entity_in_ids.
  - rewrite (filter_filter _ (fun d => bool_decide (compliant now (attachedTo d.1) ddocs)))
      by (intros; apply Hc).
    rewrite (negated_filter _ (fun d => bool_decide (compliant now (attachedTo d.1) ddocs)))
      by (intros; apply Hc).
    apply countsOf_filter. intros d Hd. rewrite bool_decide_eq_true.
    apply compliant_findDocuments. by apply entity_in_ids.
Qed.












Lemma getVendorComplianceReport_partitioned clock now vendorId w :
  steady clock now (documents w) →
  cachedReportsPartitioned vendorId w →
  ∃ r w',
    DocumentService.getVendorComplianceReport clock vendorId w = (Json.JReport r, w')
    ∧ partitioned (Json.vehicles r) ∧ partitioned (Json.drivers r)
    ∧ cachedReportsPartitioned vendorId w'.
Proof.
  intros Hs Hc.
  destruct (redis w !! ("compliance_report_" +:+ vendorId)) as [[j ttl]|] eqn:Hk.
  - destruct (Hc j ttl Hk) as (r & -> & Hv & Hd).
    unfold DocumentService.getVendorComplianceReport, CacheService.get.
    rewrite Hk. simpl. eexists r, _. split_and!; try done.
  - destruct (getVendorComplianceReport_steady clock now vendorId w Hk Hs)
      as (r & w' & -> & Hr & Hv & Hd).
    exists r, w'.
    assert (partitioned (Json.vehicles r) ∧ partitioned (Json.drivers r)) as [Pv Pd].
    { rewrite Hv, Hd. split; apply countsOf_partitioned. }
    split_and!; try done.
    intros j ttl. rewrite Hr, lookup_insert_eq. intros [= <- <-]. by exists r.
Qed.

(** C7, as amended: while no expiry date is passed during the call,
    [getVendorComplianceReport] on a cache miss returns six counts, and
    stores them: the vendor's vehicles (drivers), those of them that have
    at least one document and all documents verified and not expired, and
    the others, so that compliant and non-compliant add up to the total;
    with a cache that holds what the method stored, the counts returned
    add up as well; for a vendor with exactly two vehicles, one whose
    documents are all verified and unexpired and one with an expired
    document, the vehicle counts are total 2, compliant 1, non-compliant
    1. *)
Theorem compliance_report_partition :
  (∀ clock now vendorId w,
     redis w !! ("compliance_report_" +:+ vendorId) = None →
     steady clock now (documents w) →
     ∃ r w',
       DocumentService.getVendorComplianceReport clock vendorId w = (Json.JReport r, w')
       ∧ redis w' = <["compliance_report_" +:+ vendorId := (Json.JReport r, 300)]> (redis w)
       ∧ Json.vehicles r
         = countsOf (fun v => compliant now (documentOf Document.VEHICLE v.1) (documents w))
                    (Vehicle.findByVendor (vehicles w) vendorId)
       ∧ Json.drivers r
         = countsOf (fun d => compliant now (documentOf Document.DRIVER d.1) (documents w))
                    (Driver.findByVendor (drivers w) vendorId)
       ∧ partitioned (Json.vehicles r) ∧ partitioned (Json.drivers r))
  ∧ (∀ clock now vendorId w,
       steady clock now (documents w) →
       cachedReportsPartitioned vendorId w →
       ∃ r w',
         DocumentService.getVendorComplianceReport clock vendorId w = (Json.JReport r, w')
         ∧ partitioned (Json.vehicles r) ∧ partitioned (Json.drivers r)
         ∧ cachedReportsPartitioned vendorId w')
  ∧ (∀ clock now vendorId w a va b vb,
       redis w !! ("compliance_report_" +:+ vendorId) = None →
       steady clock now (documents w) →
       Vehicle.findByVendor (vehicles w) vendorId ≡ₚ [(a, va); (b, vb)] →
       compliant now (documentOf Document.VEHICLE a) (documents w) →
       Exists (fun d => documentOf Document.VEHICLE b d ∧ expired now d) (documents w) →
       ∃ r w',
         DocumentService.getVendorComplianceReport clock vendorId w = (Json.JReport r, w')
         ∧ Json.vehicles r = Json.mkCounts 2 1 1).
Proof.
  split_and!.
  - intros clock now vendorId w Hmiss Hs.
    destruct (getVendorComplianceReport_steady clock now vendorId w Hmiss Hs)
      as (r & w' & Hrun & Hr & Hv & Hd).
    exists r, w'. split_and!; try done.
    + rewrite Hv. apply countsOf_partitioned.
    + rewrite Hd. apply countsOf_partitioned.
  - exact getVendorComplianceReport_partitioned.
  - intros clock now vendorId w a va b vb Hmiss Hs Hperm Ha Hb.
    destruct (getVendorComplianceReport_steady clock now vendorId w Hmiss Hs)
      as (r & w' & Hrun & _ & Hv & _).
    exists r, w'. split; [done|]. rewrite Hv. unfold countsOf.
    rewrite Hperm. simpl.
    assert (¬ compliant now (documentOf Document.VEHICLE b) (documents w)) as Hnb.
    { intros [_ Hall]. apply Exists_exists in Hb as (d & Hd & Ho & He).
      rewrite Forall_forall in Hall. destruct (Hall d Hd Ho) as [_ Hne]. by apply Hne. }
    rewrite !filter_cons, !filter_nil. simpl.
    rewrite (decide_True (P := compliant now (documentOf Document.VEHICLE a) (documents w)))
      by done.
    rewrite (decide_False (P := compliant now (documentOf Document.VEHICLE b) (documents w)))
      by done.
    rewrite (decide_False (P := ¬ compliant now (documentOf Document.VEHICLE a) (documents w)))
      by tauto.
    rewrite (decide_True (P := ¬ compliant now (documentOf Document.VEHICLE b) (documents w)))
      by done.
    done.
Qed.

Lemma ticking_steady : steady ticking 1000 (documents twoVehicles).
Proof.
  intros k d Hd. simpl in Hd. rewrite !elem_of_cons, elem_of_nil in Hd.
  destruct Hd as [->|[->|[->|[]]]]; unfold expired, ticking; simpl; lia.
Qed.

Lemma compliance_report_partition_witness :
  ∃ w',
    DocumentService.getVendorComplianceReport ticking "vendor" twoVehicles
    = (Json.JReport (Json.mkReport (Json.mkCounts 2 1 1) (Json.mkCounts 0 0 0)), w')
    ∧ partitioned (Json.mkCounts 2 1 1).
Proof.
  destruct compliance_report_partition as (H1 & _ & H3).
  destruct (H1 ticking 1000%Z "vendor" twoVehicles eq_refl ticking_steady)
    as (r & w' & Hrun & _ & _ & Hd & Pv & _).
  destruct (H3 ticking 1000%Z "vendor" twoVehicles
              "car1" (Vehicle.mk "KA01" "vendor" Vehicle.noDocuments None)
              "car2" (Vehicle.mk "KA02" "vendor" Vehicle.noDocuments None)
              eq_refl ticking_steady) as (r' & w'' & Hrun' & Hv).
  - vm_compute. first [reflexivity | apply perm_swap].
  - apply (bool_decide_unpack _). by vm_compute.
  - apply (bool_decide_unpack _). by vm_compute.
  - rewrite Hrun in Hrun'. injection Hrun' as <- <-.
    exists w'. destruct r as [rv rd]. simpl in *. subst rv. rewrite Hd in *.
    split; [exact Hrun | exact Pv].
Defined.

(** C7, as stated, fails when an expiry date is passed between the two
    filters: the one vehicle of this vendor has one document, verified and
    running until 1000; the first filter reads the clock at 1000 and
    counts the vehicle compliant, the second reads it at 1001 and counts
    the vehicle non-compliant, and the two buckets exceed the total. *)
Lemma compliance_report_counts_twice :
  ∃ w',
    DocumentService.getVendorComplianceReport advancing "vendor" expiringFleet
    = (Json.JReport (Json.mkReport (Json.mkCounts 1 1 1) (Json.mkCounts 0 0 0)), w')
    ∧ ¬ partitioned (Json.mkCounts 1 1 1).
Proof. eexists. split; [reflexivity|]. unfold partitioned. simpl. lia. Qed.

(** ** Deleting a driver or a vehicle *)

(** [deleteDriver] removes the driver and clears the pointer of the
    vehicle the driver was assigned to. *)
Lemma deleteDriver_clears_vehicle reqVendor id w r w' driver vehicleId :
  DriverController.deleteDriver reqVendor id w = (r, w') →
  succeeded r = true →
  drivers w !! id = Some driver →
  Driver.assignedVehicle driver = Some vehicleId →
  drivers w' !! id = None
  ∧ ∀ vehicle, vehicles w' !! vehicleId = Some vehicle → Vehicle.assignedDriver vehicle = None.
Proof.
  unfold DriverController.deleteDriver, Driver.findOne. intros Hrun Hok Hd Ha.
  rewrite Hd in Hrun.
  destruct (bool_decide (Driver.vendor driver = reqVendor)); [|by injection Hrun as <- <-].
  rewrite Ha in Hrun. injection Hrun as <- <-. simpl. split.
  - apply lookup_delete_eq.
  - intros vehicle. rewrite lookup_alter_eq.
    destruct (vehicles w !! vehicleId); simpl; [|done]. by intros [= <-].
Qed.

(** [deleteVehicle] touches no driver. *)
Lemma deleteVehicle_drivers id w r w' :
  VehicleController.deleteVehicle id w = (r, w') → drivers w' = drivers w.
Proof.
  unfold VehicleController.deleteVehicle.
  destruct (vehicles w !! id); intros [= <- <-]; done.
Qed.

(** C5, at a failing input: deleting the driver of an assigned pair clears
    the pointer of the vehicle, but deleting the vehicle succeeds and
    leaves the driver pointing at the vehicle that no longer exists. *)
Theorem deleteVehicle_leaves_driver_pointer :
  (∃ w', DriverController.deleteDriver "vendor" "drv" assignedPair
           = (Success 200 "Driver deleted successfully", w')
         ∧ drivers w' !! "drv" = None
         ∧ Vehicle.assignedDriver <$> vehicles w' !! "car" = Some None)
  ∧ (∃ w', VehicleController.deleteVehicle "car" assignedPair
             = (Success 200 "Vehicle deleted successfully", w')
           ∧ vehicles w' !! "car" = None
           ∧ Driver.assignedVehicle <$> drivers w' !! "drv" = Some (Some "car")).
Proof.
  split.
  - destruct (DriverController.deleteDriver "vendor" "drv" assignedPair) as [r w'] eqn:E.
    exists w'. split_and!.
    + vm_compute in E. by injection E as <- _.
    + unfold DriverController.deleteDriver in E. vm_compute Driver.findOne in E.
      injection E as _ <-. by vm_compute.
    + unfold DriverController.deleteDriver in E. vm_compute Driver.findOne in E.
      injection E as _ <-. by vm_compute.
  - destruct (VehicleController.deleteVehicle "car" assignedPair) as [r w'] eqn:E.
    exists w'. split_and!.
    + vm_compute in E. by injection E as <- _.
    + unfold VehicleController.deleteVehicle in E. injection E as _ <-. by vm_compute.
    + rewrite (deleteVehicle_drivers _ _ _ _ E). by vm_compute.
Qed.

(** ** registerLocalVendor *)

(** A request that reaches the city comparison is rejected with status 400
    and the city-mismatch message, the state unchanged, exactly when one of
    the two normalised cities is empty or they differ. *)
Lemma registerLocalVendor_city reqVendor body newId w parent :
  Vendor.findOneByIdAndType (vendors w) (VendorController.body_parentVendorId body) CITY
  = Some parent →
  VendorController.isAuthorizedCreator
    reqVendor parent (VendorController.body_parentVendorId body) = true →
  let localCity := normalise (default "" (VendorController.body_operatingArea body ≫= Vendor.city)) in
  let parentCity := normalise (default "" (Vendor.operatingArea parent ≫= Vendor.city)) in
  (localCity = "" ∨ parentCity = "" ∨ localCity ≠ parentCity)
  ↔ VendorController.registerLocalVendor reqVendor body newId w = (Failure 400 cityMismatch, w).
Proof.
  intros Hp Ha localCity parentCity.
  unfold VendorController.registerLocalVendor. cbv zeta. rewrite Hp, Ha. cbn [negb].
  fold (normalise (default "" (VendorController.body_operatingArea body ≫= Vendor.city))).
  fold (normalise (default "" (Vendor.operatingArea parent ≫= Vendor.city))).
  fold localCity parentCity.
  destruct (decide (localCity = parentCity)) as [Heq|Hne].
  - rewrite (bool_decide_eq_true_2 _ Heq). cbn [negb]. rewrite orb_false_r.
    destruct localCity as [|c l] eqn:El; [split; [done | by left]|].
    rewrite <- Heq. simpl. split; [by intros [?|[?|?]]|].
    intros H. exfalso.
    destruct (VendorController.body_operatingArea body), (Vendor.operatingArea parent);
      try discriminate H.
    repeat match type of H with
           | context [if ?b then _ else _] => destruct b; try discriminate H
           | context [match ?b with Some _ => _ | None => _ end] => destruct b; try discriminate H
           end.
  - rewrite (bool_decide_eq_false_2 _ Hne). cbn [negb]. rewrite orb_true_r.
    split; [done | by right; right].
Qed.

(** The zone check of a request that passed the city comparison and brings
    a new email: it is accepted as soon as one of its zones is, after
    normalisation, a zone of the parent. *)
Lemma registerLocalVendor_zone_rule reqVendor body newId w parent area parentArea zs :
  Vendor.findOneByIdAndType (vendors w) (VendorController.body_parentVendorId body) CITY
  = Some parent →
  VendorController.isAuthorizedCreator
    reqVendor parent (VendorController.body_parentVendorId body) = true →
  VendorController.body_operatingArea body = Some area →
  Vendor.operatingArea parent = Some parentArea →
  Vendor.zones area = Some zs →
  normalise (default "" (Vendor.city area)) = normalise (default "" (Vendor.city parentArea)) →
  normalise (default "" (Vendor.city area)) ≠ "" →
  Vendor.findOneByEmail (vendors w) (VendorController.body_email body) = None →
  succeeded (VendorController.registerLocalVendor reqVendor body newId w).1 = true
  ↔ ∃ z, z ∈ zs ∧ normalise z ∈ map normalise (default [] (Vendor.zones parentArea)).
Proof.
  intros Hp Ha Harea Hparea Hzs Hcity Hne Hmail.
  unfold VendorController.registerLocalVendor. cbv zeta.
  rewrite Hp, Ha, Harea, Hparea. cbn [negb mbind option_bind default].
  fold (normalise (default "" (Vendor.city area))).
  fold (normalise (default "" (Vendor.city parentArea))).
  rewrite <- Hcity, (bool_decide_eq_true_2 _ eq_refl).
  destruct (normalise (default "" (Vendor.city area))) as [|c rest] eqn:E; [done|].
  cbn [JsString.truthy negb orb]. rewrite Hzs, Hmail.
  set (ok := existsb _ zs).
  assert (ok = true ↔ ∃ z, z ∈ zs ∧ normalise z ∈ map normalise (default [] (Vendor.zones parentArea)))
    as Hok.
  { unfold ok. rewrite existsb_exists. split.
    - intros (z & Hz & H). apply bool_decide_eq_true in H. exists z.
      by rewrite list_elem_of_In.
    - intros (z & Hz & H). exists z. rewrite <- list_elem_of_In. split; [done|].
      by apply bool_decide_eq_true. }
  rewrite <- Hok. by destruct ok.
Qed.

(** The scenarios of the specification: another city is rejected with the
    city-mismatch error, the same city with a zone of the parent is
    accepted; a request none of whose zones the parent has is rejected. *)
Lemma registerLocalVendor_scenarios :
  VendorController.registerLocalVendor metropolisCity (localRequest "OtherCity" ["North"]) "l" metropolis
  = (Failure 400 cityMismatch, metropolis)
  ∧ (∃ w', VendorController.registerLocalVendor
             metropolisCity (localRequest "Metropolis" ["North"]) "l" metropolis
           = (Success 201
                (Vendor.mk "l" "Corner Cabs" "corner@example.com" LOCAL (Some "c") []
                   (Some (Vendor.mkArea (Some "Metropolis") (Some ["North"]) None [])) true), w'))
  ∧ VendorController.registerLocalVendor metropolisCity (localRequest "Metropolis" ["Mars"]) "l" metropolis
    = (Failure 400 "One or more zones specified for the Local vendor do not exist in the parent City vendor's zones.", metropolis).
Proof.
  split_and!.
  - by vm_compute.
  - eexists. unfold VendorController.registerLocalVendor.
    vm_compute Vendor.findOneByIdAndType. vm_compute negb. cbv iota.
    vm_compute existsb. vm_compute Vendor.findOneByEmail. cbv iota zeta beta.
    reflexivity.
  - by vm_compute.
Qed.

(** C9, at a failing input: the request lists the zones North and Mars
    under a parent whose zones are North and South; Mars is not a zone of
    the parent, yet the vendor is created with both zones. *)
Theorem registerLocalVendor_accepts_foreign_zone :
  ("Mars" ∉ default [] (Vendor.operatingArea metropolisCity ≫= Vendor.zones))
  ∧ (normalise "Mars"
     ∉ map normalise (default [] (Vendor.operatingArea metropolisCity ≫= Vendor.zones)))
  ∧ ∃ w',
      VendorController.registerLocalVendor
        metropolisCity (localRequest "Metropolis" ["North"; "Mars"]) "l" metropolis
      = (Success 201
           (Vendor.mk "l" "Corner Cabs" "corner@example.com" LOCAL (Some "c") []
              (Some (Vendor.mkArea (Some "Metropolis") (Some ["North"; "Mars"]) None [])) true), w')
      ∧ Vendor.findById (vendors w') "l"
        = Some (Vendor.mk "l" "Corner Cabs" "corner@example.com" LOCAL (Some "c") []
                  (Some (Vendor.mkArea (Some "Metropolis") (Some ["North"; "Mars"]) None [])) true).
Proof.
  split_and!.
  - vm_compute (default _ _). intros H.
    repeat (apply elem_of_cons in H as [H|H]; [discriminate H|]). by apply elem_of_nil in H.
  - vm_compute (map _ _). vm_compute (normalise _). intros H.
    repeat (apply elem_of_cons in H as [H|H]; [discriminate H|]). by apply elem_of_nil in H.
  - destruct (VendorController.registerLocalVendor
                metropolisCity (localRequest "Metropolis" ["North"; "Mars"]) "l" metropolis)
      as [r w'] eqn:E.
    exists w'.
    assert (r = Success 201
           (Vendor.mk "l" "Corner Cabs" "corner@example.com" LOCAL (Some "c") []
              (Some (Vendor.mkArea (Some "Metropolis") (Some ["North"; "Mars"]) None [])) true)
            ∧ vendors w' = vendors metropolis ++
           [Vendor.mk "l" "Corner Cabs" "corner@example.com" LOCAL (Some "c") []
              (Some (Vendor.mkArea (Some "Metropolis") (Some ["North"; "Mars"]) None [])) true])
      as [-> Hv].
    { vm_compute in E. injection E as <- <-. by vm_compute. }
    split; [done|]. rewrite Hv. by vm_compute.
Qed.

(** ** Assigning vehicles and drivers *)

Lemma bidirectional_exclusive w : bidirectional w → exclusive w.
Proof.
  intros [Hd Hv]. split.
  - intros d1 d2 x1 x2 v H1 H2 A1 A2.
    destruct (Hd d1 x1 v H1 A1) as (y1 & Hy1 & B1).
    destruct (Hd d2 x2 v H2 A2) as (y2 & Hy2 & B2). congruence.
  - intros v1 v2 x1 x2 d H1 H2 A1 A2.
    destruct (Hv v1 x1 d H1 A1) as (y1 & Hy1 & B1).
    destruct (Hv v2 x2 d H2 A2) as (y2 & Hy2 & B2). congruence.
Qed.

Lemma assigned_elsewhere_true (o : option ObjectId) x :
  bool_decide (is_Some o) && negb (bool_decide (o = Some x)) = true
  ↔ ∃ y, o = Some y ∧ y ≠ x.
Proof.
  rewrite andb_true_iff, negb_true_iff, bool_decide_eq_true, bool_decide_eq_false.
  split.
  - intros [[y ->] Hne]. exists y. split; [done | congruence].
  - intros (y & -> & Hne). split; [by eexists | congruence].
Qed.

Lemma assigned_elsewhere_false (o : option ObjectId) x :
  bool_decide (is_Some o) && negb (bool_decide (o = Some x)) = false
  ↔ o = None ∨ o = Some x.
Proof.
  rewrite <- not_true_iff_false, assigned_elsewhere_true. split.
  - intros H. destruct o as [y|]; [|by left]. right.
    destruct (decide (y = x)) as [->|Hne]; [done|]. exfalso. apply H. by exists y.
  - intros [->| ->] (y & Hy & Hne); congruence.
Qed.

Lemma driver_findOne_Some m id vendorId driver :
  Driver.findOne m id vendorId = Some driver → m !! id = Some driver.
Proof.
  unfold Driver.findOne. destruct (m !! id); [|done].
  by destruct (bool_decide _); intros [= ->].
Qed.

Lemma vehicle_findOne_Some m id vendorId vehicle :
  Vehicle.findOne m id vendorId = Some vehicle → m !! id = Some vehicle.
Proof.
  unfold Vehicle.findOne. destruct (m !! id); [|done].
  by destruct (bool_decide _); intros [= ->].
Qed.

Lemma assignVehicleToDriver_outcome reqVendor d v w r w' :
  DriverController.assignVehicleToDriver reqVendor d v w = (r, w') →
  (succeeded r = false ∧ w' = w) ∨ (succeeded r = true ∧ paired d v w w').
Proof.
  unfold DriverController.assignVehicleToDriver.
  destruct (Driver.findOne (drivers w) d reqVendor) as [driver|] eqn:Hd;
    [|intros [= <- <-]; by left].
  destruct (Vehicle.findOne (vehicles w) v reqVendor) as [vehicle|] eqn:Hv;
    [|intros [= <- <-]; by left].
  destruct (bool_decide (is_Some (Vehicle.assignedDriver vehicle)) && _) eqn:Gv;
    [intros [= <- <-]; by left|].
  destruct (bool_decide (is_Some (Driver.assignedVehicle driver)) && _) eqn:Gd;
    [intros [= <- <-]; by left|].
  intros [= <- <-]. right. split; [done|].
  apply assigned_elsewhere_false in Gv, Gd.
  apply driver_findOne_Some in Hd. apply vehicle_findOne_Some in Hv.
  exists driver, vehicle. split_and!; done.
Qed.

Lemma assignDriverToVehicle_outcome reqVendor d v w r w' :
  VehicleController.assignDriverToVehicle reqVendor v d w = (r, w') →
  (succeeded r = false ∧ w' = w) ∨ (succeeded r = true ∧ paired d v w w').
Proof.
  unfold VehicleController.assignDriverToVehicle.
  destruct (Vehicle.findOne (vehicles w) v reqVendor) as [vehicle|] eqn:Hv;
    [|intros [= <- <-]; by left].
  destruct (Driver.findOne (drivers w) d reqVendor) as [driver|] eqn:Hd;
    [|intros [= <- <-]; by left].
  destruct (bool_decide (is_Some (Driver.assignedVehicle driver)) && _) eqn:Gd;
    [intros [= <- <-]; by left|].
  destruct (bool_decide (is_Some (Vehicle.assignedDriver vehicle)) && _) eqn:Gv;
    [intros [= <- <-]; by left|].
  intros [= <- <-]. right. split; [done|].
  apply assigned_elsewhere_false in Gv, Gd.
  apply driver_findOne_Some in Hd. apply vehicle_findOne_Some in Hv.
  exists driver, vehicle. split_and!; done.
Qed.

Lemma paired_pointers d v w w' :
  paired d v w w' →
  Driver.assignedVehicle <$> drivers w' !! d = Some (Some v)
  ∧ Vehicle.assignedDriver <$> vehicles w' !! v = Some (Some d).
Proof.
  intros (driver & vehicle & _ & _ & _ & _ & -> & ->).
  by rewrite !lookup_insert_eq.
Qed.

Lemma paired_bidirectional d v w w' :
  paired d v w w' → bidirectional w → bidirectional w'.
Proof.
  intros (driver & vehicle & Hd & Hv & Fd & Fv & Ed & Ev) [Bd Bv].
  split.
  - intros d0 x v0. rewrite Ed, Ev. destruct (decide (d0 = d)) as [->|Hne].
    + rewrite lookup_insert_eq. intros [= <-]. simpl. intros [= <-].
      rewrite lookup_insert_eq. by eexists.
    + rewrite lookup_insert_ne by done. intros Hx Ax.
      destruct (Bd d0 x v0 Hx Ax) as (y & Hy & Ay).
      destruct (decide (v0 = v)) as [->|Hv0].
      * rewrite Hv in Hy. injection Hy as <-. destruct Fv; congruence.
      * rewrite lookup_insert_ne by done. by exists y.
  - intros v0 y d0. rewrite Ed, Ev. destruct (decide (v0 = v)) as [->|Hne].
    + rewrite lookup_insert_eq. intros [= <-]. simpl. intros [= <-].
      rewrite lookup_insert_eq. by eexists.
    + rewrite lookup_insert_ne by done. intros Hy Ay.
      destruct (Bv v0 y d0 Hy Ay) as (x & Hx & Ax).
      destruct (decide (d0 = d)) as [->|Hd0].
      * rewrite Hd in Hx. injection Hx as <-. destruct Fd; congruence.
      * rewrite lookup_insert_ne by done. by exists x.
Qed.

Lemma paired_invariant d v w w' :
  paired d v w w' → assignmentInvariant w → assignmentInvariant w'.
Proof.
  intros Hp [Hb _]. pose proof (paired_bidirectional _ _ _ _ Hp Hb) as Hb'.
  split; [done | by apply bidirectional_exclusive].
Qed.

Lemma assign_conflict_rejected reqVendor d v w driver vehicle :
  Driver.findOne (drivers w) d reqVendor = Some driver →
  Vehicle.findOne (vehicles w) v reqVendor = Some vehicle →
  conflict d v driver vehicle →
  (∃ m, DriverController.assignVehicleToDriver reqVendor d v w = (Failure 400 m, w))
  ∧ (∃ m, VehicleController.assignDriverToVehicle reqVendor v d w = (Failure 400 m, w)).
Proof.
  intros Hd Hv Hc.
  unfold DriverController.assignVehicleToDriver, VehicleController.assignDriverToVehicle.
  rewrite Hd, Hv.
  destruct (bool_decide (is_Some (Vehicle.assignedDriver vehicle)) && _) eqn:Gv;
  destruct (bool_decide (is_Some (Driver.assignedVehicle driver)) && _) eqn:Gd;
    try (split; by eexists).
  exfalso. apply assigned_elsewhere_false in Gv, Gd.
  destruct Hc as [(x & Hx & Hne)|(x & Hx & Hne)]; [destruct Gd | destruct Gv]; congruence.
Qed.

(** C4: a successful [assignVehicleToDriver] leaves the driver pointing at
    the vehicle and the vehicle at the driver; both handlers answer 400
    and change nothing when the driver has another vehicle or the vehicle
    another driver; and both handlers preserve the invariant that
    assignments are bidirectional and exclusive. *)
Theorem assignment_is_symmetric (reqVendor driverId vehicleId : ObjectId) (w : World) :
  (∀ r w',
     DriverController.assignVehicleToDriver reqVendor driverId vehicleId w = (r, w') →
     succeeded r = true →
     Driver.assignedVehicle <$> drivers w' !! driverId = Some (Some vehicleId)
     ∧ Vehicle.assignedDriver <$> vehicles w' !! vehicleId = Some (Some driverId)
     ∧ r = Success 200 (mkAssignment driverId (Some vehicleId) vehicleId (Some driverId)))
  ∧ (∀ driver vehicle,
       Driver.findOne (drivers w) driverId reqVendor = Some driver →
       Vehicle.findOne (vehicles w) vehicleId reqVendor = Some vehicle →
       conflict driverId vehicleId driver vehicle →
       (∃ m, DriverController.assignVehicleToDriver reqVendor driverId vehicleId w
             = (Failure 400 m, w))
       ∧ (∃ m, VehicleController.assignDriverToVehicle reqVendor vehicleId driverId w
               = (Failure 400 m, w)))
  ∧ (assignmentInvariant w →
     assignmentInvariant (DriverController.assignVehicleToDriver reqVendor driverId vehicleId w).2
     ∧ assignmentInvariant (VehicleController.assignDriverToVehicle reqVendor vehicleId driverId w).2).
Proof.
  split_and!.
  - intros r w' Hrun Hok.
    destruct (assignVehicleToDriver_outcome _ _ _ _ _ _ Hrun) as [[Hf _]|[_ Hp]]; [congruence|].
    destruct (paired_pointers _ _ _ _ Hp) as [H1 H2]. split_and!; try done.
    revert Hrun Hok. unfold DriverController.assignVehicleToDriver.
    repeat match goal with
           | |- context [match ?x with Some _ => _ | None => _ end] => destruct x
           | |- context [if ?b then _ else _] => destruct b
           end; intros [= <- <-]; done.
  - intros driver vehicle. apply assign_conflict_rejected.
  - intros Hinv. split.
    + destruct (DriverController.assignVehicleToDriver reqVendor driverId vehicleId w)
        as [r w'] eqn:Hrun.
      destruct (assignVehicleToDriver_outcome _ _ _ _ _ _ Hrun) as [[_ ->]|[_ Hp]]; [done|].
      by apply (paired_invariant _ _ _ _ Hp).
    + destruct (VehicleController.assignDriverToVehicle reqVendor vehicleId driverId w)
        as [r w'] eqn:Hrun.
      destruct (assignDriverToVehicle_outcome _ _ _ _ _ _ Hrun) as [[_ ->]|[_ Hp]]; [done|].
      by apply (paired_invariant _ _ _ _ Hp).
Qed.

Lemma freePair_invariant : assignmentInvariant freePair.
Proof.
  assert (bidirectional freePair) as Hb.
  { split.
    - intros d driver v H A. unfold freePair in H. cbn [drivers] in H.
      apply lookup_singleton_Some in H as [_ <-]. discriminate A.
    - intros v vehicle d H A. unfold freePair in H. cbn [vehicles] in H.
      apply lookup_singleton_Some in H as [_ <-]. discriminate A. }
  split; [done | by apply bidirectional_exclusive].
Qed.

Lemma assignment_is_symmetric_witness :
  (∃ w', DriverController.assignVehicleToDriver "vendor" "drv" "car" freePair
         = (Success 200 (mkAssignment "drv" (Some "car") "car" (Some "drv")), w')
         ∧ Driver.assignedVehicle <$> drivers w' !! "drv" = Some (Some "car")
         ∧ Vehicle.assignedDriver <$> vehicles w' !! "car" = Some (Some "drv")
         ∧ assignmentInvariant w')
  ∧ (∃ m, DriverController.assignVehicleToDriver "vendor" "drv" "car2" pairAndSpare
          = (Failure 400 m, pairAndSpare))
  ∧ (∃ m, VehicleController.assignDriverToVehicle "vendor" "car2" "drv" pairAndSpare
          = (Failure 400 m, pairAndSpare)).
Proof.
  split_and!.
  - destruct (assignment_is_symmetric "vendor" "drv" "car" freePair) as (H1 & _ & H3).
    destruct (DriverController.assignVehicleToDriver "vendor" "drv" "car" freePair)
      as [r w'] eqn:Hrun.
    assert (succeeded r = true) as Hok by (vm_compute in Hrun; by injection Hrun as <- _).
    destruct (H1 r w' eq_refl Hok) as (Hd & Hv & ->).
    exists w'. split_and!; try done. exact (proj1 (H3 freePair_invariant)).
  - destruct (assignment_is_symmetric "vendor" "drv" "car2" pairAndSpare) as (_ & H2 & _).
    refine (proj1 (H2 (Driver.mk "Asha" "vendor" Driver.noDocuments (Some "car"))
                      (Vehicle.mk "KA02" "vendor" Vehicle.noDocuments None) _ _ _)).
    + reflexivity.
    + reflexivity.
    + left. exists "car". split; done.
  - destruct (assignment_is_symmetric "vendor" "drv" "car2" pairAndSpare) as (_ & H2 & _).
    refine (proj2 (H2 (Driver.mk "Asha" "vendor" Driver.noDocuments (Some "car"))
                      (Vehicle.mk "KA02" "vendor" Vehicle.noDocuments None) _ _ _)).
    + reflexivity.
    + reflexivity.
    + left. exists "car". split; done.
Defined.

(** ** getAllSubVendors *)

(** The loop appends, for each direct child in turn, the child followed by
    the descendants found for it. *)
Lemma pushSubVendors_Some f cs acc l :
  pushSubVendors f cs acc = Some l
  ↔ (∀ c, c ∈ cs → is_Some (f (Vendor._id c)))
    ∧ l = acc ++ (cs ≫= fun c => c :: default [] (f (Vendor._id c))).
Proof.
  revert acc. induction cs as [|c cs IH]; intros acc; simpl.
  - rewrite app_nil_r. split.
    + intros [= ->]. split; [|done]. intros c Hc. by apply elem_of_nil in Hc.
    + by intros [_ ->].
  - destruct (f (Vendor._id c)) as [lc|] eqn:Hc.
    + rewrite IH. simpl. rewrite <- !app_assoc. simpl. split.
      * intros [Hall ->]. split; [|done].
        intros c' [->|Hin]%elem_of_cons; [by rewrite Hc | by apply Hall].
      * intros [Hall ->]. split; [|done]. intros c' Hin. apply Hall. by right.
    + split; [done|]. intros [Hall _].
      destruct (Hall c) as [? Hs]; [by left | congruence].
Qed.

Lemma getAllSubVendors_S fuel db vendorId l :
  getAllSubVendors (S fuel) db vendorId = Some l
  ↔ (∀ c, c ∈ Vendor.findByParent db vendorId → is_Some (getAllSubVendors fuel db (Vendor._id c)))
    ∧ l = (Vendor.findByParent db vendorId ≫=
             fun c => c :: default [] (getAllSubVendors fuel db (Vendor._id c))).
Proof. simpl. by rewrite pushSubVendors_Some. Qed.

Lemma bind_ext_elem_of {A B} (f g : A → list B) (l : list A) :
  (∀ x, x ∈ l → f x = g x) → l ≫= f = l ≫= g.
Proof.
  induction l as [|a l IH]; intros H; csimpl; [done|].
  rewrite (H a) by (by left). rewrite IH; [done|]. intros x Hx. apply H. by right.
Qed.

(** More fuel does not change a result. *)
Lemma getAllSubVendors_mono fuel db vendorId l :
  getAllSubVendors fuel db vendorId = Some l →
  getAllSubVendors (S fuel) db vendorId = Some l.
Proof.
  revert vendorId l. induction fuel as [|fuel IH]; intros vendorId l; [done|].
  rewrite !(getAllSubVendors_S _ db vendorId). intros [Hall ->]. split.
  - intros c Hc. destruct (Hall c Hc) as [lc Hlc]. rewrite (IH _ _ Hlc). by eexists.
  - apply bind_ext_elem_of. intros c Hc.
    destruct (Hall c Hc) as [lc Hlc]. by rewrite (IH _ _ Hlc), Hlc.
Qed.

Lemma getAllSubVendors_more fuel fuel' db vendorId l :
  fuel ≤ fuel' →
  getAllSubVendors fuel db vendorId = Some l →
  getAllSubVendors fuel' db vendorId = Some l.
Proof.
  induction 1 as [|fuel' _ IH]; [done|]. intros H. by apply getAllSubVendors_mono, IH.
Qed.

Section Acyclic.

Variable db : list Vendor.t.
Hypothesis unique_ids : NoDup (map Vendor._id db).

Lemma same_id v v' : v ∈ db → v' ∈ db → Vendor._id v = Vendor._id v' → v = v'.
Proof.
  intros Hv Hv' Heq. apply (findById_unique db _ unique_ids) in Hv, Hv'.
  rewrite Heq in Hv. congruence.
Qed.

Lemma child_reaches c id :
  c ∈ Vendor.findByParent db id → reaches db (Vendor._id c) id.
Proof.
  intros [Hc Hp]%elem_of_findByParent.
  eapply reaches_parent; [by apply findById_unique | done].
Qed.

Lemma reaches_trans x y z : reaches db x y → reaches db y z → reaches db x z.
Proof.
  induction 1 as [x v a Hf Hp | x v p a Hf Hp _ IH]; intros Hz.
  - by eapply reaches_step.
  - eapply reaches_step; [done..|]. by apply IH.
Qed.

(** The last step of a path enters [a] from one of its direct children. *)
Lemma reaches_last x a :
  reaches db x a →
  ∃ c, c ∈ Vendor.findByParent db a ∧ (Vendor._id c = x ∨ reaches db x (Vendor._id c)).
Proof.
  induction 1 as [x v a Hf Hp | x v p a Hf Hp _ (c & Hc & IH)].
  - apply findById_Some in Hf as [Hin Hid]. exists v. split; [|by left].
    by apply elem_of_findByParent.
  - exists c. split; [done|]. right. destruct IH as [<-|IH].
    + by eapply reaches_parent.
    + by eapply reaches_step.
Qed.

(** Paths upward from one vendor lie on one line. *)
Lemma reaches_linear x a b :
  reaches db x a → reaches db x b → a = b ∨ reaches db a b ∨ reaches db b a.
Proof.
  intros Ha. revert b.
  induction Ha as [x v a Hf Hp | x v p a Hf Hp Hpa IH]; intros b Hb.
  - inversion Hb as [? v' ? Hf' Hp' | ? v' p' ? Hf' Hp' Hpb]; subst.
    + left. congruence.
    + right. left. congruence.
  - inversion Hb as [? v' ? Hf' Hp' | ? v' p' ? Hf' Hp' Hpb]; subst.
    + right. right. congruence.
    + apply IH. congruence.
Qed.

(** On a cycle the recursion comes back to where it started: no amount of
    fuel is enough. *)
Lemma getAllSubVendors_diverges_on_cycle fuel :
  ∀ x, reaches db x x → getAllSubVendors fuel db x = None.
Proof.
  induction fuel as [|fuel IH]; intros x Hx; [done|].
  destruct (getAllSubVendors (S fuel) db x) as [l|] eqn:E; [exfalso|done].
  apply getAllSubVendors_S in E as [Hall _].
  destruct (reaches_last _ _ Hx) as (c & Hc & Hv).
  destruct (Hall c Hc) as [lc Hlc]. rewrite IH in Hlc; [done|].
  pose proof (child_reaches _ _ Hc) as Hup.
  destruct Hv as [<-|Hr]; [done|]. by eapply reaches_trans.
Qed.

Hypothesis no_cycle : acyclic db.

(** Two direct children of one vendor are not above one another. *)
Lemma siblings_apart c1 c2 id :
  c1 ∈ Vendor.findByParent db id → c2 ∈ Vendor.findByParent db id →
  ¬ reaches db (Vendor._id c1) (Vendor._id c2).
Proof.
  intros H1 H2 Hr. pose proof (child_reaches _ _ H2) as Hup.
  apply elem_of_findByParent in H1 as [Hin1 Hp1].
  pose proof (findById_unique db _ unique_ids Hin1) as Hf1.
  inversion Hr as [? v ? Hf Hp | ? v p ? Hf Hp Hrest]; subst.
  - apply (no_cycle (Vendor._id c2)). congruence.
  - apply (no_cycle (Vendor._id c2)). apply (reaches_trans _ id); [done|]. congruence.
Qed.

(** Termination: along a path of distinct ancestors, the fuel that is left
    and the length of the path exceed the size of the collection. *)
Lemma getAllSubVendors_terminates_along fuel :
  ∀ vendorId (path : list ObjectId),
    NoDup path →
    (∀ x, x ∈ path → x ∈ map Vendor._id db) →
    (∀ x, x ∈ path → x = vendorId ∨ reaches db vendorId x) →
    length db < length path + fuel →
    is_Some (getAllSubVendors fuel db vendorId).
Proof.
  induction fuel as [|fuel IH]; intros vendorId path Hnd Hin Hup Hlen.
  - exfalso. pose proof (submseteq_length _ _ (NoDup_submseteq _ _ Hnd Hin)) as Hle.
    rewrite length_map in Hle. lia.
  - assert (∀ c, c ∈ Vendor.findByParent db vendorId →
                 is_Some (getAllSubVendors fuel db (Vendor._id c))) as Hall.
    { intros c Hc. pose proof (child_reaches _ _ Hc) as Hcr.
      assert (∀ x, x ∈ path → reaches db (Vendor._id c) x) as Hpath.
      { intros x Hx. destruct (Hup x Hx) as [->|Hr]; [done|]. by eapply reaches_trans. }
      apply (IH _ (Vendor._id c :: path)).
      - apply NoDup_cons. split; [|done]. intros Hx. by apply (no_cycle _ (Hpath _ Hx)).
      - intros x [->|Hx]%elem_of_cons; [|by apply Hin].
        apply list_elem_of_fmap_2. by apply elem_of_findByParent in Hc as [? _].
      - intros x [->|Hx]%elem_of_cons; [by left | right; by apply Hpath].
      - simpl. lia. }
    eexists. apply getAllSubVendors_S. split; [exact Hall | done].
Qed.

Lemma getAllSubVendors_terminates vendorId :
  is_Some (getAllSubVendors (S (length db)) db vendorId).
Proof.
  apply (getAllSubVendors_terminates_along _ vendorId []).
  - constructor.
  - intros x Hx. by apply elem_of_nil in Hx.
  - intros x Hx. by apply elem_of_nil in Hx.
  - simpl. lia.
Qed.

(** What is returned is the set of descendants, without repetition. *)
Lemma getAllSubVendors_descendants fuel :
  ∀ vendorId l,
    getAllSubVendors fuel db vendorId = Some l →
    (∀ v, v ∈ l ↔ descendant db vendorId v) ∧ NoDup l.
Proof.
  induction fuel as [|fuel IH]; intros vendorId l; [done|].
  rewrite getAllSubVendors_S. intros [Hall ->].
  set (sub := fun c : Vendor.t => default [] (getAllSubVendors fuel db (Vendor._id c))).
  assert (∀ c, c ∈ Vendor.findByParent db vendorId →
               (∀ v, v ∈ sub c ↔ descendant db (Vendor._id c) v) ∧ NoDup (sub c)) as Hsub.
  { intros c Hc. destruct (Hall c Hc) as [lc Hlc]. unfold sub. rewrite Hlc. simpl.
    by apply IH. }
  assert (∀ c v, c ∈ Vendor.findByParent db vendorId → v ∈ c :: sub c →
                 v ∈ db ∧ (v = c ∨ reaches db (Vendor._id v) (Vendor._id c))) as Hmem.
  { intros c v Hc [->|Hv]%elem_of_cons.
    - split; [|by left]. by apply elem_of_findByParent in Hc as [? _].
    - apply (Hsub c Hc) in Hv as [? ?]. split; [done | by right]. }
  split.
  - intros v. rewrite list_elem_of_bind. split.
    + intros (c & Hv & Hc). destruct (Hmem c v Hc Hv) as [Hin [->|Hr]].
      * split; [done | by apply child_reaches].
      * split; [done|]. eapply reaches_trans; [done | by apply child_reaches].
    + intros [Hin Hr]. apply reaches_last in Hr as (c & Hc & Hv).
      exists c. split; [|done]. apply elem_of_cons. destruct Hv as [Hid|Hr].
      * left. apply same_id; [done | | done]. by apply elem_of_findByParent in Hc as [? _].
      * right. by apply (Hsub c Hc).
  - apply NoDup_bind.
    + intros c1 c2 v H1 H2 Hv1 Hv2.
      destruct (Hmem c1 v H1 Hv1) as [Hin [E1|Hr1]], (Hmem c2 v H2 Hv2) as [_ [E2|Hr2]].
      * congruence.
      * subst v. by destruct (siblings_apart _ _ _ H1 H2).
      * subst v. by destruct (siblings_apart _ _ _ H2 H1).
      * destruct (reaches_linear _ _ _ Hr1 Hr2) as [E|[Hr|Hr]].
        -- apply same_id; [| |done].
           ++ by apply elem_of_findByParent in H1 as [? _].
           ++ by apply elem_of_findByParent in H2 as [? _].
        -- by destruct (siblings_apart _ _ _ H1 H2).
        -- by destruct (siblings_apart _ _ _ H2 H1).
    + intros c Hc. apply NoDup_cons. split; [|by apply (Hsub c Hc)].
      intros Hv. apply (Hsub c Hc) in Hv as [_ Hr]. by apply (no_cycle _ Hr).
    + unfold Vendor.findByParent. apply NoDup_ListNoDup, List.NoDup_filter, NoDup_ListNoDup.
      by apply (NoDup_fmap_1 Vendor._id).
Qed.

End Acyclic.

(** A level that drops along every parent pointer rules cycles out. *)
Lemma acyclic_by_rank db (rank : ObjectId → nat) :
  Forall (fun v => ∀ p, Vendor.parentVendor v = Some p → rank (Vendor._id v) < rank p) db →
  acyclic db.
Proof.
  intros Hrank.
  assert (∀ x a, reaches db x a → rank x < rank a) as Hlt.
  { induction 1 as [x v a Hf Hp | x v p a Hf Hp _ IH];
      apply findById_Some in Hf as [Hin <-];
      pose proof (proj1 (Forall_forall _ _) Hrank v Hin _ Hp); lia. }
  intros x Hx. apply Hlt in Hx. lia.
Qed.

(** C2, as amended: on a collection with unique ids in which no vendor is
    its own ancestor, [getAllSubVendors] terminates (any fuel above the
    size of the collection gives the same list), the list holds exactly the
    transitive descendants of [vendorId], without duplicates, and it is in
    depth-first order: each direct child, in collection order, followed by
    the list of that child. *)
Theorem getAllSubVendors_on_acyclic (db : list Vendor.t) (vendorId : ObjectId) :
  NoDup (map Vendor._id db) →
  acyclic db →
  ∃ l,
    (∀ fuel, length db < fuel → getAllSubVendors fuel db vendorId = Some l)
    ∧ (∀ v, v ∈ l ↔ descendant db vendorId v)
    ∧ NoDup l
    ∧ l = (Vendor.findByParent db vendorId ≫= fun c =>
             c :: default [] (getAllSubVendors (S (length db)) db (Vendor._id c))).
Proof.
  intros Hids Hacyc.
  destruct (getAllSubVendors_terminates db Hids Hacyc vendorId) as [l Hl].
  exists l. split_and!.
  - intros fuel Hfuel. apply (getAllSubVendors_more (S (length db))); [lia | done].
  - by apply (getAllSubVendors_descendants db Hids Hacyc _ _ _ Hl).
  - by apply (getAllSubVendors_descendants db Hids Hacyc _ _ _ Hl).
  - apply getAllSubVendors_mono in Hl. by apply getAllSubVendors_S in Hl as [_ ->].
Qed.

Lemma getAllSubVendors_on_acyclic_witness :
  ∃ l,
    getAllSubVendors 6 treeVendors "s" = Some l
    ∧ Vendor._id <$> l = ["c"; "u"; "m"; "l"]
    ∧ NoDup l
    ∧ (∀ v, v ∈ l ↔ descendant treeVendors "s" v).
Proof.
  destruct (getAllSubVendors_on_acyclic treeVendors "s") as (l & Hfuel & Hdesc & Hnd & _).
  - apply (bool_decide_unpack (NoDup _)). by vm_compute.
  - apply (acyclic_by_rank _ treeRank).
    repeat constructor; intros p [= <-]; vm_compute; lia.
  - exists l. split_and!; try done.
    + apply Hfuel. simpl. lia.
    + specialize (Hfuel 6 ltac:(simpl; lia)). vm_compute in Hfuel.
      injection Hfuel as <-. reflexivity.
Defined.

(** C2, as stated, fails: nothing bounds the recursion, and on a
    collection with a cycle of parent pointers no fuel makes
    [getAllSubVendors] return. *)
Lemma getAllSubVendors_cycle_never_returns :
  ¬ ∃ fuel l, getAllSubVendors fuel cyclicVendors "a" = Some l.
Proof.
  intros (fuel & l & H).
  rewrite getAllSubVendors_diverges_on_cycle in H; [done| |].
  - apply (bool_decide_unpack (NoDup _)). by vm_compute.
  - eapply reaches_step; [reflexivity | reflexivity |].
    eapply reaches_parent; reflexivity.
Qed.


(** * Further properties of the hierarchy service *)

(** ** getParentChain *)

Lemma findById_self db x v :
  Vendor.findById db x = Some v → Vendor.findById db (Vendor._id v) = Some v.
Proof. intros H. by destruct (findById_Some _ _ _ H) as [_ ->]. Qed.

Lemma reaches_exists db x a : reaches db x a → is_Some (Vendor.findById db x).
Proof. by intros [? v ? -> _ | ? v ? ? -> _ _]. Qed.

(** The entries pushed so far do not influence the loop. *)
Lemma parentChainLoop_acc fuel db current chain :
  parentChainLoop fuel db current chain
  = (chain ++.) <$> parentChainLoop fuel db current [].
Proof.
  revert current chain. induction fuel as [|fuel IH]; intros current chain; [done|].
  cbn [parentChainLoop].
  destruct current as [cur|]; [|by simpl; rewrite app_nil_r].
  destruct (Vendor.parentVendor cur) as [pid|]; [|by simpl; rewrite app_nil_r].
  destruct (Vendor.findById db pid) as [parent|]; [|by simpl; rewrite app_nil_r].
  rewrite (IH _ (chain ++ _)), (IH _ ([] ++ _)).
  destruct (parentChainLoop fuel db (Some parent) []) as [l|]; [|done].
  simpl. by rewrite <- app_assoc.
Qed.

(** One round of the loop: the parent that is found comes first. *)
Lemma parentChainLoop_S fuel db current :
  parentChainLoop (S fuel) db (Some current) []
  = match Vendor.parentVendor current ≫= Vendor.findById db with
    | Some parent =>
        cons (mkEntry (Vendor._id parent) (Vendor.name parent) (Vendor.vendorType parent))
          <$> parentChainLoop fuel db (Some parent) []
    | None => Some []
    end.
Proof.
  cbn [parentChainLoop]. destruct (Vendor.parentVendor current) as [pid|]; [|done].
  simpl. destruct (Vendor.findById db pid) as [parent|]; [|done].
  by rewrite parentChainLoop_acc.
Qed.

Lemma parentChainLoop_mono fuel db current l :
  parentChainLoop fuel db current [] = Some l →
  parentChainLoop (S fuel) db current [] = Some l.
Proof.
  revert current l. induction fuel as [|fuel IH]; intros current l; [done|].
  destruct current as [cur|]; [|done].
  rewrite !parentChainLoop_S.
  destruct (Vendor.parentVendor cur ≫= Vendor.findById db) as [parent|]; [|done].
  destruct (parentChainLoop fuel db (Some parent) []) as [l'|] eqn:E; [|done].
  by rewrite (IH _ _ E).
Qed.

Lemma parentChainLoop_more fuel fuel' db current l :
  fuel ≤ fuel' →
  parentChainLoop fuel db current [] = Some l →
  parentChainLoop fuel' db current [] = Some l.
Proof.
  induction 1 as [|fuel' _ IH]; [done|]. intros H. by apply parentChainLoop_mono, IH.
Qed.

(** The ids of the chain are the ancestors that exist. *)
Lemma parentChainLoop_ancestors fuel db :
  ∀ current l,
    Vendor.findById db (Vendor._id current) = Some current →
    parentChainLoop fuel db (Some current) [] = Some l →
    ∀ a, a ∈ entry_id <$> l
         ↔ reaches db (Vendor._id current) a ∧ is_Some (Vendor.findById db a).
Proof.
  induction fuel as [|fuel IH]; intros cur l Hcur; [done|].
  rewrite parentChainLoop_S.
  destruct (Vendor.parentVendor cur) as [pid|] eqn:Hp; simpl.
  - destruct (Vendor.findById db pid) as [parent|] eqn:Hf; simpl.
    + destruct (parentChainLoop fuel db (Some parent) []) as [l'|] eqn:E; [|done].
      simpl. intros [= <-] a. simpl. rewrite elem_of_cons.
      pose proof (findById_Some _ _ _ Hf) as [_ Hid].
      rewrite (IH _ _ (findById_self _ _ _ Hf) E a), Hid. split.
      * intros [->|[Hr Ha]].
        -- split; [by eapply reaches_parent | by rewrite Hf].
        -- split; [by eapply reaches_step | done].
      * intros [Hr Ha].
        inversion Hr as [? v ? Hv Hpv | ? v p ? Hv Hpv Hrest]; subst.
        -- left. congruence.
        -- right. split; [|done]. congruence.
    + intros [= <-] a. split; [by intros ?%elem_of_nil|].
      intros [Hr [av Ha]].
      inversion Hr as [? v ? Hv Hpv | ? v p ? Hv Hpv Hrest]; subst.
      * congruence.
      * destruct (reaches_exists _ _ _ Hrest) as [? ?]. congruence.
  - intros [= <-] a. split; [by intros ?%elem_of_nil|].
    intros [Hr _]. inversion Hr; congruence.
Qed.

(** Without a cycle the loop ends before the collection is exhausted. *)
Lemma parentChainLoop_terminates fuel db :
  acyclic db →
  ∀ current (path : list ObjectId),
    Vendor.findById db (Vendor._id current) = Some current →
    NoDup path →
    (∀ x, x ∈ path → x ∈ map Vendor._id db) →
    (∀ x, x ∈ path → reaches db x (Vendor._id current)) →
    length db < length path + fuel →
    is_Some (parentChainLoop fuel db (Some current) []).
Proof.
  intros Hacyc. induction fuel as [|fuel IH]; intros cur path Hcur Hnd Hin Hup Hlen.
  - exfalso. pose proof (submseteq_length _ _ (NoDup_submseteq _ _ Hnd Hin)) as Hle.
    rewrite length_map in Hle. lia.
  - rewrite parentChainLoop_S.
    destruct (Vendor.parentVendor cur) as [pid|] eqn:Hp; simpl; [|by eexists].
    destruct (Vendor.findById db pid) as [parent|] eqn:Hf; simpl; [|by eexists].
    pose proof (findById_Some _ _ _ Hf) as [_ Hid].
    assert (reaches db (Vendor._id cur) pid) as Hstep by (by eapply reaches_parent).
    destruct (IH parent (Vendor._id cur :: path)) as [l Hl].
    + by eapply findById_self.
    + apply NoDup_cons. split; [|done]. intros Hx. by apply (Hacyc _ (Hup _ Hx)).
    + intros x [->|Hx]%elem_of_cons; [|by apply Hin].
      apply list_elem_of_fmap_2. by apply findById_Some in Hcur as [? _].
    + rewrite Hid. intros x [->|Hx]%elem_of_cons; [done|].
      eapply reaches_trans; [by apply Hup | done].
    + simpl. lia.
    + rewrite Hl. by eexists.
Qed.

Lemma parentChainLoop_NoDup fuel db :
  acyclic db →
  ∀ current l,
    Vendor.findById db (Vendor._id current) = Some current →
    parentChainLoop fuel db (Some current) [] = Some l →
    NoDup (entry_id <$> l).
Proof.
  intros Hacyc. induction fuel as [|fuel IH]; intros cur l Hcur; [done|].
  rewrite parentChainLoop_S.
  destruct (Vendor.parentVendor cur ≫= Vendor.findById db) as [parent|] eqn:Hf;
    [|intros [= <-]; constructor].
  destruct (Vendor.parentVendor cur) as [pid|]; [|done]. simpl in Hf.
  destruct (parentChainLoop fuel db (Some parent) []) as [l'|] eqn:E; [|done].
  simpl. intros [= <-]. simpl. apply NoDup_cons. split.
  - rewrite (parentChainLoop_ancestors _ _ _ _ (findById_self _ _ _ Hf) E).
    intros [Hr _]. by apply (Hacyc _ Hr).
  - by apply (IH _ _ (findById_self _ _ _ Hf) E).
Qed.

(** On a cycle the loop never ends. *)
Lemma parentChainLoop_diverges fuel db :
  ∀ current chain,
    Vendor.findById db (Vendor._id current) = Some current →
    reaches db (Vendor._id current) (Vendor._id current) →
    parentChainLoop fuel db (Some current) chain = None.
Proof.
  induction fuel as [|fuel IH]; intros cur chain Hcur Hcyc; [done|].
  cbn [parentChainLoop].
  assert (∃ p parent, Vendor.parentVendor cur = Some p
                      ∧ Vendor.findById db p = Some parent
                      ∧ reaches db p p) as (p & parent & -> & Hf & Hpp).
  { inversion Hcyc as [? v ? Hv Hpv | ? v p ? Hv Hpv Hrest]; subst;
      rewrite Hcur in Hv; injection Hv as <-.
    - exists (Vendor._id cur), cur. by split_and!.
    - destruct (reaches_exists _ _ _ Hrest) as [parent Hparent].
      exists p, parent. split_and!; try done.
      eapply reaches_trans; [done|]. by eapply reaches_parent. }
  rewrite Hf. apply IH; [by eapply findById_self|].
  by destruct (findById_Some _ _ _ Hf) as [_ ->].
Qed.

Lemma parentChainLoop_stored fuel db :
  ∀ current chain l,
    parentChainLoop fuel db current chain = Some l →
    (∀ e, e ∈ chain → ∃ v, Vendor.findById db (entry_id e) = Some v
                           ∧ e = mkEntry (Vendor._id v) (Vendor.name v) (Vendor.vendorType v)) →
    ∀ e, e ∈ l → ∃ v, Vendor.findById db (entry_id e) = Some v
                      ∧ e = mkEntry (Vendor._id v) (Vendor.name v) (Vendor.vendorType v).
Proof.
  induction fuel as [|fuel IH]; intros current chain l; [done|].
  cbn [parentChainLoop].
  destruct current as [cur|]; [|by intros [= <-]].
  destruct (Vendor.parentVendor cur) as [pid|]; [|by intros [= <-]].
  destruct (Vendor.findById db pid) as [parent|] eqn:Hf; [|by intros [= <-]].
  intros Hl Hchain. apply (IH _ _ _ Hl).
  intros e [He|He]%elem_of_app; [by apply Hchain|].
  apply list_elem_of_singleton in He as ->. exists parent. split; [|done].
  simpl. by eapply findById_self.
Qed.

(** X1. Without a cycle of parent pointers [getParentChain] terminates;
    the chain holds, once each, the ancestors of the vendor that exist in
    the collection, the nearest first, each with the name and type stored
    for it; for a vendor that does not exist the chain is empty. *)
Theorem getParentChain_on_acyclic (db : list Vendor.t) (vendorId : ObjectId) :
  acyclic db →
  ∃ chain : list ChainEntry,
    (∀ fuel, length db < fuel → getParentChain fuel db vendorId = Some chain)
    ∧ (∀ a, a ∈ entry_id <$> chain
            ↔ reaches db vendorId a ∧ is_Some (Vendor.findById db a))
    ∧ NoDup (entry_id <$> chain)
    ∧ (∀ e, e ∈ chain →
         ∃ v, Vendor.findById db (entry_id e) = Some v
              ∧ e = mkEntry (Vendor._id v) (Vendor.name v) (Vendor.vendorType v))
    ∧ chain =
      match (Vendor.findById db vendorId ≫= Vendor.parentVendor) ≫= Vendor.findById db with
      | Some parent =>
          mkEntry (Vendor._id parent) (Vendor.name parent) (Vendor.vendorType parent)
          :: default [] (getParentChain (length db) db (Vendor._id parent))
      | None => []
      end
    ∧ (Vendor.findById db vendorId = None → chain = []).
Proof.
  intros Hacyc. unfold getParentChain.
  destruct (Vendor.findById db vendorId) as [cur|] eqn:Hcur.
  - pose proof (findById_self _ _ _ Hcur) as Hself.
    pose proof (findById_Some _ _ _ Hcur) as [_ Hid].
    destruct (parentChainLoop_terminates (S (length db)) db Hacyc cur [] Hself)
      as [chain Hchain].
    { constructor. } { by intros x ?%elem_of_nil. } { by intros x ?%elem_of_nil. }
    { simpl. lia. }
    exists chain. split_and!; try done.
    + intros fuel Hfuel. by apply (parentChainLoop_more (S (length db))); [lia|].
    + intros a. rewrite <- Hid. by apply (parentChainLoop_ancestors _ _ _ _ Hself Hchain).
    + by apply (parentChainLoop_NoDup _ _ Hacyc _ _ Hself Hchain).
    + apply (parentChainLoop_stored _ _ _ _ _ Hchain). by intros e ?%elem_of_nil.
    + rewrite parentChainLoop_S in Hchain. simpl.
      destruct (Vendor.parentVendor cur ≫= Vendor.findById db) as [parent|] eqn:Hp;
        [|by injection Hchain as <-].
      destruct (Vendor.parentVendor cur) as [pid|]; [|done]. simpl in Hp.
      rewrite (findById_self _ _ _ Hp).
      destruct (parentChainLoop (length db) db (Some parent) []); [|done].
      by injection Hchain as <-.
  - exists []. split_and!; try done.
    + intros fuel Hfuel. destruct fuel; [lia | done].
    + intros a. split; [by intros ?%elem_of_nil|].
      intros [Hr _]. destruct (reaches_exists _ _ _ Hr) as [? ?]. congruence.
    + constructor.
    + by intros e ?%elem_of_nil.
Qed.

Lemma getParentChain_on_acyclic_witness :
  ∃ chain,
    getParentChain 6 treeVendors "m" = Some chain
    ∧ entry_id <$> chain = ["u"; "c"; "s"]
    ∧ NoDup (entry_id <$> chain).
Proof.
  destruct (getParentChain_on_acyclic treeVendors "m") as (chain & Hfuel & _ & Hnd & _).
  - apply (acyclic_by_rank _ treeRank).
    repeat constructor; intros p [= <-]; vm_compute; lia.
  - exists chain. split_and!; try done.
    + apply Hfuel. simpl. lia.
    + specialize (Hfuel 6 ltac:(simpl; lia)). vm_compute in Hfuel.
      injection Hfuel as <-. reflexivity.
Defined.

(** X2. [getAllSubVendors] and [getParentChain] are two views of the same
    relation: on a collection with unique ids and no cycle, a vendor is in
    the list of sub-vendors of an existing vendor [p] exactly when [p] is
    in the parent chain of that vendor. *)
Theorem subVendors_iff_parentChain (db : list Vendor.t) (p : ObjectId) (v : Vendor.t) :
  NoDup (map Vendor._id db) →
  acyclic db →
  v ∈ db →
  is_Some (Vendor.findById db p) →
  ∃ subVendors chain,
    (∀ fuel, length db < fuel →
       getAllSubVendors fuel db p = Some subVendors
       ∧ getParentChain fuel db (Vendor._id v) = Some chain)
    ∧ (v ∈ subVendors ↔ p ∈ entry_id <$> chain).
Proof.
  intros Hids Hacyc Hv Hp.
  destruct (getAllSubVendors_terminates db Hids Hacyc p) as [subs Hsubs].
  pose proof (findById_unique db v Hids Hv) as Hself.
  destruct (parentChainLoop_terminates (S (length db)) db Hacyc v [] Hself)
    as [chain Hchain].
  { constructor. } { by intros x ?%elem_of_nil. } { by intros x ?%elem_of_nil. }
  { simpl. lia. }
  exists subs, chain. split.
  - intros fuel Hfuel. split.
    + by apply (getAllSubVendors_more (S (length db))); [lia|].
    + unfold getParentChain. rewrite Hself.
      by apply (parentChainLoop_more (S (length db))); [lia|].
  - rewrite (proj1 (getAllSubVendors_descendants db Hids Hacyc _ _ _ Hsubs) v).
    rewrite (parentChainLoop_ancestors _ _ _ _ Hself Hchain p).
    unfold descendant. tauto.
Qed.

Lemma subVendors_iff_parentChain_witness :
  ∃ subVendors chain,
    getAllSubVendors 6 treeVendors "c" = Some subVendors
    ∧ getParentChain 6 treeVendors "m" = Some chain
    ∧ Vendor._id <$> subVendors = ["u"; "m"; "l"]
    ∧ entry_id <$> chain = ["u"; "c"; "s"].
Proof.
  destruct (subVendors_iff_parentChain treeVendors "c"
              (Vendor.mk "m" "Lane Cabs" "lane@example.com" LOCAL (Some "u") [] None true))
    as (subs & chain & Hrun & _).
  - apply (bool_decide_unpack (NoDup _)). by vm_compute.
  - apply (acyclic_by_rank _ treeRank).
    repeat constructor; intros p [= <-]; vm_compute; lia.
  - unfold treeVendors. rewrite !elem_of_cons. tauto.
  - by eexists.
  - destruct (Hrun 6 ltac:(simpl; lia)) as [H1 H2].
    exists subs, chain. split_and!; try done.
    + vm_compute in H1. by injection H1 as <-.
    + vm_compute in H2. by injection H2 as <-.
Defined.

(** X3. [getParentChain] has no guard against cycles either: for a vendor
    that lies on a cycle of parent pointers the loop never ends. *)
Theorem getParentChain_diverges_on_cycle (db : list Vendor.t) (vendorId : ObjectId) :
  reaches db vendorId vendorId →
  ∀ fuel, getParentChain fuel db vendorId = None.
Proof.
  intros Hcyc fuel. unfold getParentChain.
  destruct (reaches_exists _ _ _ Hcyc) as [cur Hcur]. rewrite Hcur.
  pose proof (findById_Some _ _ _ Hcur) as [_ Hid].
  apply parentChainLoop_diverges; [by eapply findById_self | by rewrite Hid].
Qed.

Lemma getParentChain_diverges_on_cycle_witness :
  reaches cyclicVendors "a" "a" ∧ ∀ fuel, getParentChain fuel cyclicVendors "a" = None.
Proof.
  assert (reaches cyclicVendors "a" "a") as H.
  { eapply reaches_step; [reflexivity | reflexivity |].
    eapply reaches_parent; reflexivity. }
  split; [exact H | exact (getParentChain_diverges_on_cycle cyclicVendors "a" H)].
Defined.

(** ** buildVendorHierarchy *)

Lemma elem_of_findByParentAndType db id ty v :
  v ∈ Vendor.findByParentAndType db id ty
  ↔ v ∈ db ∧ Vendor.parentVendor v = Some id ∧ Vendor.vendorType v = ty.
Proof.
  unfold Vendor.findByParentAndType.
  rewrite !list_elem_of_In, filter_In, andb_true_iff, !bool_decide_eq_true. tauto.
Qed.

Lemma pushHierarchies_map build (g : Vendor.t → Json.HierarchyNode) items children :
  (∀ c, c ∈ items → build (Vendor._id c) = Returns (Some (g c))) →
  CacheService.pushHierarchies build items children = Returns (children ++ map g items).
Proof.
  revert children. induction items as [|c items IH]; intros children Hall; simpl.
  - by rewrite app_nil_r.
  - rewrite (Hall c) by (by left). rewrite IH.
    + by rewrite <- app_assoc.
    + intros c' Hc'. apply Hall. by right.
Qed.

Section Hierarchy.

Variable db : list Vendor.t.
Hypothesis unique_ids : NoDup (map Vendor._id db).

Lemma build_leaf fuel x v :
  Vendor.findById db x = Some v →
  Vendor.vendorType v ≠ SUPER → Vendor.vendorType v ≠ CITY →
  CacheService.buildVendorHierarchy (S fuel) db x = Returns (Some (leafNode v)).
Proof.
  intros Hf Hs Hc. cbn [CacheService.buildVendorHierarchy]. rewrite Hf.
  unfold leafNode. destruct (Vendor.vendorType v); first [done | by destruct Hs | by destruct Hc].
Qed.

Lemma build_city fuel x v :
  Vendor.findById db x = Some v →
  Vendor.vendorType v = CITY →
  CacheService.buildVendorHierarchy (S (S fuel)) db x = Returns (Some (cityNode db v)).
Proof.
  intros Hf Hty. pose proof (findById_Some _ _ _ Hf) as [_ Hid].
  cbn [CacheService.buildVendorHierarchy]. rewrite Hf, Hty.
  rewrite (pushHierarchies_map _ leafNode).
  - unfold cityNode. by rewrite Hty, Hid.
  - intros c [Hc [_ Hct]]%elem_of_findByParentAndType.
    apply build_leaf; [by apply findById_unique | by rewrite Hct..].
Qed.

Lemma build_super fuel x v :
  Vendor.findById db x = Some v →
  Vendor.vendorType v = SUPER →
  CacheService.buildVendorHierarchy (S (S (S fuel))) db x = Returns (Some (superNode db v)).
Proof.
  intros Hf Hty. pose proof (findById_Some _ _ _ Hf) as [_ Hid].
  cbn [CacheService.buildVendorHierarchy]. rewrite Hf, Hty.
  rewrite (pushHierarchies_map _ (cityNode db)).
  - unfold superNode. by rewrite Hty, Hid.
  - intros c [Hc [_ Hct]]%elem_of_findByParentAndType.
    apply build_city; [by apply findById_unique | done].
Qed.

Lemma build_hierarchyOf fuel vendorId :
  3 ≤ fuel →
  CacheService.buildVendorHierarchy fuel db vendorId = Returns (hierarchyOf db vendorId).
Proof.
  intros Hfuel. destruct fuel as [|[|[|fuel]]]; try lia.
  unfold hierarchyOf.
  destruct (Vendor.findById db vendorId) as [v|] eqn:Hf.
  - destruct (Vendor.vendorType v) eqn:Hty.
    + by apply build_super.
    + apply build_leaf; [done | by rewrite Hty..].
    + by apply build_city.
    + apply build_leaf; [done | by rewrite Hty..].
    + apply build_leaf; [done | by rewrite Hty..].
  - cbn [CacheService.buildVendorHierarchy]. by rewrite Hf.
Qed.

End Hierarchy.

(** X4. With unique ids [buildVendorHierarchy] never recurses deeper than
    three calls, whatever the parent pointers are: it returns without an
    exception the vendor with its children by type, two levels below a
    SUPER vendor and one below a CITY vendor, and [null] exactly for a
    vendor that does not exist. *)
Theorem buildVendorHierarchy_three_levels (db : list Vendor.t) (vendorId : ObjectId) :
  NoDup (map Vendor._id db) →
  (∀ fuel, 3 ≤ fuel →
     CacheService.buildVendorHierarchy fuel db vendorId = Returns (hierarchyOf db vendorId))
  ∧ (hierarchyOf db vendorId = None ↔ Vendor.findById db vendorId = None).
Proof.
  intros Hids. split.
  - intros fuel. by apply build_hierarchyOf.
  - unfold hierarchyOf. by destruct (Vendor.findById db vendorId).
Qed.

Lemma buildVendorHierarchy_three_levels_witness :
  CacheService.buildVendorHierarchy 3 treeVendors "s"
  = Returns (Some (Json.Node "s" "Head Office" SUPER
                     [Json.Node "c" "Metro Cabs" CITY
                        [Json.Node "u" "East Depot" SUB [];
                         Json.Node "l" "Corner Cabs" LOCAL []]]))
  ∧ CacheService.buildVendorHierarchy 3 cyclicVendors "a"
    = Returns (Some (Json.Node "a" "Metro Cabs" CITY [Json.Node "b" "East Depot" SUB []])).
Proof.
  split.
  - rewrite (proj1 (buildVendorHierarchy_three_levels treeVendors "s"
                      ltac:(apply (bool_decide_unpack (NoDup _)); by vm_compute)) 3);
      [reflexivity | lia].
  - rewrite (proj1 (buildVendorHierarchy_three_levels cyclicVendors "a"
                      ltac:(apply (bool_decide_unpack (NoDup _)); by vm_compute)) 3);
      [reflexivity | lia].
Defined.

Lemma elem_of_nodeIds_children {A} (g : A → Json.HierarchyNode) (cs : list A) x :
  x ∈ flat_map nodeIds (map g cs) ↔ ∃ c, c ∈ cs ∧ x ∈ nodeIds (g c).
Proof.
  rewrite list_elem_of_In, in_flat_map. split.
  - intros (n & Hn & Hx). apply in_map_iff in Hn as (c & <- & Hc).
    exists c. split; by apply list_elem_of_In.
  - intros (c & Hc & Hx). exists (g c). split; [|by apply list_elem_of_In].
    apply in_map_iff. exists c. split; [done | by apply list_elem_of_In].
Qed.

Lemma elem_of_nodeIds_leaf v x : x ∈ nodeIds (leafNode v) ↔ x = Vendor._id v.
Proof. simpl. by rewrite list_elem_of_singleton. Qed.

Lemma elem_of_nodeIds_city db c x :
  x ∈ nodeIds (cityNode db c)
  ↔ x = Vendor._id c
    ∨ ∃ v, v ∈ db ∧ Vendor.parentVendor v = Some (Vendor._id c) ∧ Vendor._id v = x
           ∧ (Vendor.vendorType v = SUB ∨ Vendor.vendorType v = LOCAL).
Proof.
  cbn [nodeIds cityNode]. rewrite elem_of_cons, <- map_app, elem_of_nodeIds_children.
  apply or_iff_compat_l. split.
  - intros (v & Hv & Hx). exists v. apply elem_of_nodeIds_leaf in Hx.
    apply elem_of_app in Hv as [Hv|Hv];
      apply elem_of_findByParentAndType in Hv as (Hin & Hp & Hty); auto.
  - intros (v & Hv & Hp & Hx & Hty). exists v. rewrite elem_of_nodeIds_leaf. split; [|done].
    rewrite elem_of_app, !elem_of_findByParentAndType. destruct Hty; auto.
Qed.

(** Below the root, a hierarchy shows only vendors whose parent is a SUPER
    or a CITY vendor. *)
Lemma nodeIds_hierarchyOf db vendorId h x :
  hierarchyOf db vendorId = Some h →
  x ∈ nodeIds h →
  x = vendorId
  ∨ ∃ v parent,
      v ∈ db ∧ parent ∈ db ∧ Vendor._id v = x
      ∧ Vendor.parentVendor v = Some (Vendor._id parent)
      ∧ (Vendor.vendorType parent = SUPER ∨ Vendor.vendorType parent = CITY).
Proof.
  unfold hierarchyOf. destruct (Vendor.findById db vendorId) as [r|] eqn:Hf; [|done].
  pose proof (findById_Some _ _ _ Hf) as [Hr Hid]. intros [= <-].
  destruct (Vendor.vendorType r) eqn:Hty;
    try (rewrite elem_of_nodeIds_leaf; intros ->; by left).
  - cbn [nodeIds superNode]. rewrite elem_of_cons, elem_of_nodeIds_children.
    intros [->|(c & Hc & Hx)]; [by left|].
    apply elem_of_findByParentAndType in Hc as (Hc & Hcp & Hct).
    apply elem_of_nodeIds_city in Hx as [->|(v & Hv & Hp & Hx & _)].
    + right. exists c, r. split_and!; try done. by left.
    + right. exists v, c. split_and!; try done. by right.
  - rewrite elem_of_nodeIds_city. intros [->|(v & Hv & Hp & Hx & _)]; [by left|].
    right. exists v, r. split_and!; try done. by right.
Qed.

(** X5. The hierarchy that is built and cached never shows a vendor whose
    parent is a SUB vendor, the pairing SUB→LOCAL that [validateHierarchy]
    accepts: such a vendor appears only as the root of its own
    hierarchy. *)
Theorem hierarchy_omits_vendors_under_sub
    (db : list Vendor.t) (vendorId : ObjectId) (v parent : Vendor.t) :
  NoDup (map Vendor._id db) →
  v ∈ db → parent ∈ db →
  Vendor.parentVendor v = Some (Vendor._id parent) →
  Vendor.vendorType parent = SUB →
  vendorId ≠ Vendor._id v →
  ∀ fuel h,
    3 ≤ fuel →
    CacheService.buildVendorHierarchy fuel db vendorId = Returns (Some h) →
    Vendor._id v ∉ nodeIds h.
Proof.
  intros Hids Hv Hparent Hp Hty Hne fuel h Hfuel Hrun Hin.
  rewrite (build_hierarchyOf db Hids fuel vendorId Hfuel) in Hrun.
  injection Hrun as Hh.
  destruct (nodeIds_hierarchyOf _ _ _ _ Hh Hin) as [?|(v' & p' & Hv' & Hp' & Hid & Hpv & Hpt)];
    [done|].
  assert (v' = v) as -> by (by apply (same_id db Hids)).
  assert (p' = parent) as -> by (apply (same_id db Hids); congruence).
  destruct Hpt; congruence.
Qed.

Lemma hierarchy_omits_vendors_under_sub_witness :
  (∃ h, CacheService.buildVendorHierarchy 3 treeVendors "s" = Returns (Some h)
        ∧ ("m" ∉ nodeIds h)
        ∧ nodeIds h = ["s"; "c"; "u"; "l"])
  ∧ ∃ l, getAllSubVendors 6 treeVendors "s" = Some l ∧ "m" ∈ Vendor._id <$> l.
Proof.
  split.
  - eexists. split; [reflexivity|]. split; [|reflexivity].
    apply (hierarchy_omits_vendors_under_sub treeVendors "s"
             (Vendor.mk "m" "Lane Cabs" "lane@example.com" LOCAL (Some "u") [] None true)
             (Vendor.mk "u" "East Depot" "east@example.com" SUB (Some "c") [] None true))
      with (fuel := 3).
    + apply (bool_decide_unpack (NoDup _)). by vm_compute.
    + unfold treeVendors. rewrite !elem_of_cons. tauto.
    + unfold treeVendors. rewrite !elem_of_cons. tauto.
    + reflexivity.
    + reflexivity.
    + discriminate.
    + lia.
    + reflexivity.
  - eexists. split; [reflexivity|]. apply list_elem_of_In. vm_compute. tauto.
Defined.

(** ** The shape of the vendor collection *)

Lemma permitted_level pt ct : (pt, ct) ∈ permittedPairs → level ct < level pt.
Proof.
  unfold permittedPairs. rewrite !elem_of_cons, elem_of_nil.
  intros [H|[H|[H|[H|[]]]]]; injection H as -> ->; simpl; lia.
Qed.

(** The ordering of the types rules cycles out. *)
Lemma wellTyped_acyclic db : wellTyped db → acyclic db.
Proof.
  intros Hwt.
  assert (∀ x a, reaches db x a →
            ∀ xv av, Vendor.findById db x = Some xv → Vendor.findById db a = Some av →
                     level (Vendor.vendorType xv) < level (Vendor.vendorType av)) as Hlt.
  { induction 1 as [x v a Hf Hp | x v p a Hf Hp Hrest IH]; intros xv av Hx Ha;
      rewrite Hf in Hx; injection Hx as <-;
      pose proof (findById_Some _ _ _ Hf) as [Hin _];
      destruct (Hwt v _ Hin Hp) as (parent & Hparent & Hpair);
      apply permitted_level in Hpair.
    - rewrite Hparent in Ha. by injection Ha as <-.
    - specialize (IH _ _ Hparent Ha). lia. }
  intros x Hx. destruct (reaches_exists _ _ _ Hx) as [xv Hxv].
  specialize (Hlt _ _ Hx _ _ Hxv Hxv). lia.
Qed.

(** The recursion of [getAllSubVendors] goes one level down each time. *)
Lemma getAllSubVendors_by_level db fuel :
  consistent db →
  ∀ v, v ∈ db → level (Vendor.vendorType v) < fuel →
       is_Some (getAllSubVendors fuel db (Vendor._id v)).
Proof.
  intros [Hids Hwt]. induction fuel as [|fuel IH]; intros v Hv Hlevel; [lia|].
  eexists. apply getAllSubVendors_S. split; [|done].
  intros c [Hc Hp]%elem_of_findByParent. apply IH; [done|].
  destruct (Hwt c _ Hc Hp) as (parent & Hparent & Hpair).
  rewrite (findById_unique db v Hids Hv) in Hparent. injection Hparent as <-.
  apply permitted_level in Hpair. lia.
Qed.

Lemma level_bound ty : level ty < 4.
Proof. destruct ty; simpl; lia. Qed.

Lemma getAllSubVendors_four_levels db vendorId :
  consistent db → is_Some (getAllSubVendors 4 db vendorId).
Proof.
  intros Hc. destruct (Vendor.findById db vendorId) as [v|] eqn:Hf.
  - pose proof (findById_Some _ _ _ Hf) as [Hv <-].
    apply getAllSubVendors_by_level; [done.. | apply level_bound].
  - eexists. apply getAllSubVendors_S. split; [|done].
    intros c [Hin Hp]%elem_of_findByParent.
    destruct (proj2 Hc c _ Hin Hp) as (parent & Hparent & _). congruence.
Qed.

(** X6. On a collection with unique ids in which every parent pointer
    leads to an existing vendor of a permitted parent type,
    [getAllSubVendors] returns within four nested calls, and what it
    returns is the set of transitive descendants without duplicates: the
    ordering of the types bounds the depth that the code does not bound. *)
Theorem getAllSubVendors_well_typed (db : list Vendor.t) (vendorId : ObjectId) :
  consistent db →
  ∃ l,
    (∀ fuel, 4 ≤ fuel → getAllSubVendors fuel db vendorId = Some l)
    ∧ (∀ v, v ∈ l ↔ descendant db vendorId v)
    ∧ NoDup l
    ∧ (Vendor.findById db vendorId = None → l = []).
Proof.
  intros Hc. destruct (getAllSubVendors_four_levels db vendorId Hc) as [l Hl].
  pose proof (wellTyped_acyclic _ (proj2 Hc)) as Hacyc.
  exists l. split_and!.
  - intros fuel Hfuel. by apply (getAllSubVendors_more 4).
  - by apply (getAllSubVendors_descendants db (proj1 Hc) Hacyc _ _ _ Hl).
  - by apply (getAllSubVendors_descendants db (proj1 Hc) Hacyc _ _ _ Hl).
  - intros Hnone. apply getAllSubVendors_S in Hl as [_ ->].
    destruct (Vendor.findByParent db vendorId) as [|c cs] eqn:E; [done|].
    assert (c ∈ Vendor.findByParent db vendorId) as Hin by (rewrite E; by left).
    apply elem_of_findByParent in Hin as [Hin Hp].
    destruct (proj2 Hc c _ Hin Hp) as (parent & Hparent & _). congruence.
Qed.

Lemma treeVendors_consistent : consistent treeVendors.
Proof.
  split; [apply (bool_decide_unpack (NoDup _)); by vm_compute|].
  intros v p Hv Hp. unfold treeVendors in Hv.
  rewrite !elem_of_cons, elem_of_nil in Hv.
  destruct Hv as [->|[->|[->|[->|[->|[]]]]]]; simpl in Hp; try discriminate Hp;
    injection Hp as <-; eexists; (split; [reflexivity|]);
    unfold permittedPairs; rewrite !elem_of_cons; simpl; tauto.
Qed.

Lemma getAllSubVendors_well_typed_witness :
  ∃ l, getAllSubVendors 4 treeVendors "s" = Some l
       ∧ Vendor._id <$> l = ["c"; "u"; "m"; "l"]
       ∧ NoDup l.
Proof.
  destruct (getAllSubVendors_well_typed treeVendors "s" treeVendors_consistent)
    as (l & Hfuel & _ & Hnd & _).
  exists l. split_and!; try done.
  - by apply Hfuel.
  - specialize (Hfuel 4 ltac:(lia)). vm_compute in Hfuel. by injection Hfuel as <-.
Defined.

(** ** Registration and transfer keep the collection consistent *)

Lemma findById_app db v id :
  Vendor.findById (db ++ [v]) id
  = match Vendor.findById db id with
    | Some x => Some x
    | None => if bool_decide (Vendor._id v = id) then Some v else None
    end.
Proof.
  unfold Vendor.findById. induction db as [|a db IH]; simpl; [done|].
  by destruct (bool_decide (Vendor._id a = id)).
Qed.

Lemma findById_fresh db id : id ∉ map Vendor._id db → Vendor.findById db id = None.
Proof.
  intros Hfresh. destruct (Vendor.findById db id) as [v|] eqn:Hf; [|done].
  destruct (findById_Some _ _ _ Hf) as [Hin <-]. destruct Hfresh.
  by apply list_elem_of_fmap_2.
Qed.

Lemma findOneByIdAndType_findById db id ty v :
  NoDup (map Vendor._id db) →
  Vendor.findOneByIdAndType db id ty = Some v →
  Vendor.findById db id = Some v ∧ Vendor.vendorType v = ty.
Proof.
  intros Hids Hf. unfold Vendor.findOneByIdAndType in Hf.
  apply find_some in Hf as [Hin Hb]. apply andb_true_iff in Hb as [Hid Hty].
  apply bool_decide_eq_true in Hid, Hty. subst id. split; [|done].
  apply findById_unique; [done | by apply list_elem_of_In].
Qed.

(** Adding a vendor with a new id under an existing parent of a permitted
    type. *)
Lemma consistent_add db v :
  consistent db →
  Vendor._id v ∉ map Vendor._id db →
  (∀ p, Vendor.parentVendor v = Some p →
        ∃ parent, Vendor.findById db p = Some parent
                  ∧ (Vendor.vendorType parent, Vendor.vendorType v) ∈ permittedPairs) →
  consistent (db ++ [v]).
Proof.
  intros [Hids Hwt] Hfresh Hparent. split.
  - rewrite map_app. apply NoDup_app. split_and!; [done| |].
    + intros x Hx [->|[]%elem_of_nil]%elem_of_cons. done.
    + apply NoDup_singleton.
  - intros w p Hw Hp.
    assert (∃ parent, Vendor.findById db p = Some parent
                      ∧ (Vendor.vendorType parent, Vendor.vendorType w) ∈ permittedPairs)
      as (parent & Hf & Hpair).
    { apply elem_of_app in Hw as [Hw|Hw]; [by apply (Hwt w)|].
      apply list_elem_of_singleton in Hw as ->. by apply Hparent. }
    exists parent. by rewrite findById_app, Hf.
Qed.

Lemma registerVendor_outcome body newId w :
  registration SUPER SUPER newId w (VendorController.registerVendor body newId w)
  ∧ ∀ vendor w', VendorController.registerVendor body newId w = (Success 201 vendor, w') →
                 Vendor.parentVendor vendor = None.
Proof.
  unfold VendorController.registerVendor, registration.
  destruct (negb _); [split; [by left | done]|].
  destruct (JsString.truthy _); [split; [by left | done]|].
  destruct (Vendor.findOneByEmail _ _); [split; [by left | done]|].
  split.
  - right. eexists. split_and!; try reflexivity. intros p Hp. discriminate Hp.
  - by intros vendor w' [= <- _].
Qed.

Lemma registerCityVendor_outcome reqVendor body newId w :
  registration CITY SUPER newId w
    (VendorController.registerCityVendor reqVendor body newId w)
  ∧ ∀ vendor w',
      VendorController.registerCityVendor reqVendor body newId w = (Success 201 vendor, w') →
      Vendor.parentVendor vendor = Some (VendorController.body_parentVendorId body).
Proof.
  unfold VendorController.registerCityVendor, registration. cbv zeta.
  destruct (negb (bool_decide (Vendor.vendorType reqVendor = SUPER)));
    [split; [by left | done]|].
  destruct (negb (bool_decide (Vendor._id reqVendor = _))); [split; [by left | done]|].
  destruct (Vendor.findById _ _) as [parent|] eqn:Hf; [|split; [by left | done]].
  destruct (bool_decide (Vendor.vendorType parent = SUPER)) eqn:Hty;
    [|split; [by left | done]].
  apply bool_decide_eq_true in Hty. cbn [negb].
  destruct (Vendor.findOneByEmail _ _); [split; [by left | done]|].
  split.
  - right. eexists. split_and!; try reflexivity. intros p [= <-].
    exists parent. split_and!; [by left | done | by apply findById_Some in Hf as [_ ?]].
  - by intros vendor w' [= <- _].
Qed.

Lemma registerSubVendor_outcome reqVendor body newId w :
  registration SUB CITY newId w
    (VendorController.registerSubVendor reqVendor body newId w)
  ∧ ∀ vendor w',
      VendorController.registerSubVendor reqVendor body newId w = (Success 201 vendor, w') →
      Vendor.parentVendor vendor = Some (VendorController.body_parentVendorId body).
Proof.
  unfold VendorController.registerSubVendor, registration. cbv zeta.
  destruct (Vendor.findOneByIdAndType _ _ _) as [parent|] eqn:Hf; [|split; [by left | done]].
  destruct (negb (bool_decide (Vendor.vendorType reqVendor = SUPER)) && _);
    [split; [by left | done]|].
  destruct (bool_decide (Vendor.vendorType reqVendor = SUPER) && _);
    [split; [by left | done]|].
  destruct (Vendor.findOneByEmail _ _); [split; [by left | done]|].
  pose proof Hf as Hf'. unfold Vendor.findOneByIdAndType in Hf'.
  apply find_some in Hf' as [_ Hb]. apply andb_true_iff in Hb as [Hid Hty].
  apply bool_decide_eq_true in Hid, Hty.
  split.
  - right. eexists. split_and!; try reflexivity. intros p [= <-].
    exists parent. split_and!; [by right | done | done].
  - by intros vendor w' [= <- _].
Qed.

Lemma registerLocalVendor_outcome reqVendor body newId w :
  registration LOCAL CITY newId w
    (VendorController.registerLocalVendor reqVendor body newId w)
  ∧ ∀ vendor w',
      VendorController.registerLocalVendor reqVendor body newId w = (Success 201 vendor, w') →
      Vendor.parentVendor vendor = Some (VendorController.body_parentVendorId body).
Proof.
  unfold VendorController.registerLocalVendor, registration. cbv zeta.
  destruct (Vendor.findOneByIdAndType _ _ _) as [parent|] eqn:Hf; [|split; [by left | done]].
  pose proof Hf as Hf'. unfold Vendor.findOneByIdAndType in Hf'.
  apply find_some in Hf' as [_ Hb]. apply andb_true_iff in Hb as [Hid Hty].
  apply bool_decide_eq_true in Hid, Hty.
  destruct (negb (VendorController.isAuthorizedCreator _ _ _)); [split; [by left | done]|].
  destruct (negb (JsString.truthy _) || _ || _); [split; [by left | done]|].
  destruct (VendorController.body_operatingArea body) as [area|]; [|split; [by left | done]].
  destruct (Vendor.operatingArea parent) as [parentArea|]; [|split; [by left | done]].
  destruct (negb (existsb _ _)); [split; [by left | done]|].
  destruct (Vendor.findOneByEmail _ _); [split; [by left | done]|].
  split.
  - right. eexists. split_and!; try reflexivity. intros p [= <-].
    exists parent. split_and!; [by right | done | done].
  - by intros vendor w' [= <- _].
Qed.

Lemma registration_consistent ty pty newId w out :
  (pty, ty) ∈ permittedPairs ∨ (∀ vendor w', out = (Success 201 vendor, w') →
                                  Vendor.parentVendor vendor = None) →
  registration ty pty newId w out →
  consistent (vendors w) →
  newId ∉ map Vendor._id (vendors w) →
  consistent (vendors out.2).
Proof.
  intros Hpair [[_ ->]|(vendor & Hout & -> & Hid & Hty & Hparent)] Hc Hfresh; [done|].
  apply consistent_add; [done | by rewrite Hid |].
  intros p Hp. destruct Hpair as [Hpair|Hroot].
  - destruct (Hparent p Hp) as (parent & [Hf|Hf] & Hpt & _).
    + exists parent. by rewrite Hpt, Hty.
    + apply (findOneByIdAndType_findById _ _ _ _ (proj1 Hc)) in Hf as [Hf _].
      exists parent. by rewrite Hpt, Hty.
  - destruct out as [r w']. simpl in Hout. subst r.
    rewrite (Hroot vendor w' eq_refl) in Hp. discriminate Hp.
Qed.

Lemma permitted_registrations :
  (SUPER, CITY) ∈ permittedPairs ∧ (CITY, SUB) ∈ permittedPairs
  ∧ (CITY, LOCAL) ∈ permittedPairs.
Proof. unfold permittedPairs. rewrite !elem_of_cons. tauto. Qed.

(** X7. Each of the four registration handlers, given an [_id] that no
    stored vendor has, keeps the collection consistent: ids stay unique and
    every parent pointer leads to a stored vendor of a permitted parent
    type. *)
Theorem registration_keeps_consistent
    (reqVendor : Vendor.t) (vbody : VendorController.RegisterVendorBody)
    (body : VendorController.RegisterBody) (newId : ObjectId) (w : World) :
  consistent (vendors w) →
  newId ∉ map Vendor._id (vendors w) →
  consistent (vendors (VendorController.registerVendor vbody newId w).2)
  ∧ consistent (vendors (VendorController.registerCityVendor reqVendor body newId w).2)
  ∧ consistent (vendors (VendorController.registerSubVendor reqVendor body newId w).2)
  ∧ consistent (vendors (VendorController.registerLocalVendor reqVendor body newId w).2).
Proof.
  intros Hc Hfresh. destruct permitted_registrations as (Hsc & Hcs & Hcl).
  split_and!.
  - destruct (registerVendor_outcome vbody newId w) as [Hreg Hroot].
    apply (registration_consistent _ _ _ _ _ (or_intror Hroot) Hreg Hc Hfresh).
  - apply (registration_consistent CITY SUPER newId w); [by left| |done..].
    apply registerCityVendor_outcome.
  - apply (registration_consistent SUB CITY newId w); [by left| |done..].
    apply registerSubVendor_outcome.
  - apply (registration_consistent LOCAL CITY newId w); [by left| |done..].
    apply registerLocalVendor_outcome.
Qed.

Lemma metropolis_consistent : consistent (vendors metropolis).
Proof.
  split; [apply (bool_decide_unpack (NoDup _)); by vm_compute|].
  intros v p Hv Hp. unfold metropolis in Hv. cbn [vendors] in Hv.
  rewrite !elem_of_cons, elem_of_nil in Hv.
  destruct Hv as [->|[->|[]]]; simpl in Hp; try discriminate Hp.
  injection Hp as <-. eexists. split; [reflexivity|].
  unfold permittedPairs. rewrite !elem_of_cons. simpl. tauto.
Qed.

Lemma fresh_in_metropolis : "l" ∉ map Vendor._id (vendors metropolis).
Proof.
  intros H. apply list_elem_of_In in H. vm_compute in H.
  destruct H as [H|[H|[]]]; discriminate H.
Qed.

Lemma registration_keeps_consistent_witness :
  consistent (vendors (VendorController.registerLocalVendor
                         metropolisCity (localRequest "Metropolis" ["North"]) "l" metropolis).2)
  ∧ length (vendors (VendorController.registerLocalVendor
                       metropolisCity (localRequest "Metropolis" ["North"]) "l" metropolis).2)
    = 3.
Proof.
  split; [|reflexivity].
  exact (proj2 (proj2 (proj2
    (registration_keeps_consistent metropolisCity
       (VendorController.mkVendorBody "Head Office" "head2@example.com" "SUPER" None [])
       (localRequest "Metropolis" ["North"]) "l" metropolis
       metropolis_consistent fresh_in_metropolis)))).
Defined.

(** A vendor registered under a parent can be looked up by its id and
    forms with the parent a pair that [validateHierarchy] accepts. *)
Lemma registration_valid ty pty newId w vendor w' pid :
  (pty, ty) ∈ permittedPairs →
  registration ty pty newId w (Success 201 vendor, w') →
  Vendor.parentVendor vendor = Some pid →
  NoDup (map Vendor._id (vendors w)) →
  newId ∉ map Vendor._id (vendors w) →
  Vendor.findById (vendors w') newId = Some vendor
  ∧ validateHierarchy (vendors w') newId pid = true.
Proof.
  intros Hpair [[Hf _]|(v & Hout & Hvs & Hid & Hty & Hparent)] Hp Hids Hfresh; [done|].
  simpl in Hout, Hvs. injection Hout as <-.
  assert (Vendor.findById (vendors w') newId = Some vendor) as Hnew.
  { rewrite Hvs, findById_app, (findById_fresh _ _ Hfresh).
    by rewrite bool_decide_eq_true_2. }
  split; [done|]. apply validateHierarchy_true_iff.
  destruct (Hparent pid Hp) as (parent & Hfound & Hpt & _).
  assert (Vendor.findById (vendors w) pid = Some parent) as Hf.
  { destruct Hfound as [?|Hf]; [done|].
    by apply (findOneByIdAndType_findById _ _ _ _ Hids) in Hf as [? _]. }
  exists vendor, parent. split_and!; [done | by rewrite Hvs, findById_app, Hf |].
  by rewrite Hpt, Hty.
Qed.

(** X8. A vendor created by [registerCityVendor], [registerSubVendor] or
    [registerLocalVendor] with a new [_id] is stored under the parent named
    in the request, and [validateHierarchy] accepts the pair: the
    registration handlers only create nestings the hierarchy service
    considers valid. *)
Theorem registered_pair_is_valid
    (reqVendor : Vendor.t) (body : VendorController.RegisterBody)
    (newId : ObjectId) (w : World) :
  NoDup (map Vendor._id (vendors w)) →
  newId ∉ map Vendor._id (vendors w) →
  ∀ vendor w',
    VendorController.registerCityVendor reqVendor body newId w = (Success 201 vendor, w')
    ∨ VendorController.registerSubVendor reqVendor body newId w = (Success 201 vendor, w')
    ∨ VendorController.registerLocalVendor reqVendor body newId w = (Success 201 vendor, w') →
    Vendor.findById (vendors w') newId = Some vendor
    ∧ Vendor.parentVendor vendor = Some (VendorController.body_parentVendorId body)
    ∧ validateHierarchy (vendors w') newId (VendorController.body_parentVendorId body) = true.
Proof.
  intros Hids Hfresh vendor w' Hrun.
  destruct permitted_registrations as (Hsc & Hcs & Hcl).
  destruct Hrun as [Hrun|[Hrun|Hrun]].
  - destruct (registerCityVendor_outcome reqVendor body newId w) as [Hreg Hp].
    rewrite Hrun in Hreg. specialize (Hp _ _ Hrun).
    destruct (registration_valid _ _ _ _ _ _ _ Hsc Hreg Hp Hids Hfresh). by split_and!.
  - destruct (registerSubVendor_outcome reqVendor body newId w) as [Hreg Hp].
    rewrite Hrun in Hreg. specialize (Hp _ _ Hrun).
    destruct (registration_valid _ _ _ _ _ _ _ Hcs Hreg Hp Hids Hfresh). by split_and!.
  - destruct (registerLocalVendor_outcome reqVendor body newId w) as [Hreg Hp].
    rewrite Hrun in Hreg. specialize (Hp _ _ Hrun).
    destruct (registration_valid _ _ _ _ _ _ _ Hcl Hreg Hp Hids Hfresh). by split_and!.
Qed.

Lemma registered_pair_is_valid_witness :
  ∃ vendor w',
    VendorController.registerLocalVendor
      metropolisCity (localRequest "Metropolis" ["North"]) "l" metropolis
    = (Success 201 vendor, w')
    ∧ Vendor.findById (vendors w') "l" = Some vendor
    ∧ validateHierarchy (vendors w') "l" "c" = true.
Proof.
  destruct (VendorController.registerLocalVendor
              metropolisCity (localRequest "Metropolis" ["North"]) "l" metropolis)
    as [r w'] eqn:Hrun.
  assert (∃ vendor, r = Success 201 vendor) as [vendor ->].
  { vm_compute in Hrun. injection Hrun as <- _. by eexists. }
  exists vendor, w'. split; [done|].
  destruct (registered_pair_is_valid metropolisCity (localRequest "Metropolis" ["North"])
              "l" metropolis (proj1 metropolis_consistent) fresh_in_metropolis vendor w')
    as (H1 & _ & H3); [by right; right | done].
Defined.

(** ** transferVendor keeps the collection consistent *)

Lemma save_ids db v : map Vendor._id (Vendor.save db v) = map Vendor._id db.
Proof.
  unfold Vendor.save. induction db as [|a db IH]; simpl; [done|].
  rewrite IH. f_equal. destruct (bool_decide (Vendor._id a = Vendor._id v)) eqn:E; [|done].
  by apply bool_decide_eq_true in E.
Qed.

Lemma transferVendor_outcome vendorId newParentId w :
  (∃ msg, transferVendor vendorId newParentId w = (Throws msg, w))
  ∨ ∃ vendor,
      Vendor.findById (vendors w) vendorId = Some vendor
      ∧ validateHierarchy (vendors w) vendorId newParentId = true
      ∧ (transferVendor vendorId newParentId w).1
        = Returns (Vendor.mk (Vendor._id vendor) (Vendor.name vendor) (Vendor.email vendor)
                             (Vendor.vendorType vendor) (Some newParentId)
                             (Vendor.permissions vendor) (Vendor.operatingArea vendor)
                             (Vendor.isActive vendor))
      ∧ vendors (transferVendor vendorId newParentId w).2
        = Vendor.save (vendors w)
            (Vendor.mk (Vendor._id vendor) (Vendor.name vendor) (Vendor.email vendor)
                       (Vendor.vendorType vendor) (Some newParentId)
                       (Vendor.permissions vendor) (Vendor.operatingArea vendor)
                       (Vendor.isActive vendor)).
Proof.
  unfold transferVendor.
  destruct (Vendor.findById (vendors w) vendorId) as [vendor|] eqn:Hv; [|left; by eexists].
  destruct (Vendor.findById (vendors w) newParentId) as [np|]; [|left; by eexists].
  destruct (validateHierarchy (vendors w) vendorId newParentId) eqn:Hval;
    [|left; by eexists].
  right. exists vendor. by split_and!.
Qed.

Lemma transferVendor_consistent vendorId newParentId w :
  consistent (vendors w) →
  consistent (vendors (transferVendor vendorId newParentId w).2).
Proof.
  intros [Hids Hwt].
  destruct (transferVendor_outcome vendorId newParentId w)
    as [[msg ->]|(vendor & Hv & Hval & _ & ->)]; [done|].
  set (vendor' := Vendor.mk _ _ _ _ _ _ _ _).
  set (repl := fun x : Vendor.t =>
                 if bool_decide (Vendor._id x = Vendor._id vendor') then vendor' else x).
  assert (∀ x, x ∈ vendors w → Vendor.vendorType (repl x) = Vendor.vendorType x) as Hty.
  { intros x Hx. unfold repl. destruct (bool_decide _) eqn:E; [|done].
    apply bool_decide_eq_true in E. simpl in E.
    pose proof (findById_unique _ _ Hids Hx) as Hself.
    rewrite E, (findById_self _ _ _ Hv) in Hself. by injection Hself as <-. }
  split; [by rewrite save_ids|].
  intros x p Hx Hp. unfold Vendor.save in Hx. fold repl in Hx.
  apply list_elem_of_fmap in Hx as (y & -> & Hy).
  assert (∃ parent, Vendor.findById (vendors w) p = Some parent
                    ∧ (Vendor.vendorType parent, Vendor.vendorType y) ∈ permittedPairs)
    as (parent & Hf & Hpair).
  { unfold repl in Hp. destruct (bool_decide _) eqn:E.
    - apply bool_decide_eq_true in E. simpl in E, Hp. injection Hp as <-.
      apply validateHierarchy_true_iff in Hval as (c & np & Hc & Hnp & Hpair).
      exists np. split; [done|].
      pose proof (findById_unique _ _ Hids Hy) as Hself.
      rewrite E, (findById_self _ _ _ Hv) in Hself. injection Hself as <-. congruence.
    - by apply (Hwt y). }
  exists (repl parent). rewrite findById_save, Hf. split; [done|].
  rewrite (Hty y Hy), (Hty parent); [done|]. by apply findById_Some in Hf as [? _].
Qed.

(** X9. [transferVendor] keeps the collection consistent, and a transfer
    that is refused, because the vendor or the new parent is missing or the
    pair is not permitted, throws and leaves collections and cache as they
    were. *)
Theorem transferVendor_keeps_consistent (vendorId newParentId : ObjectId) (w : World) :
  consistent (vendors w) →
  consistent (vendors (transferVendor vendorId newParentId w).2)
  ∧ (validateHierarchy (vendors w) vendorId newParentId = false →
     ∃ msg, transferVendor vendorId newParentId w = (Throws msg, w))
  ∧ (validateHierarchy (vendors w) vendorId newParentId = true →
     ∃ vendor w',
       transferVendor vendorId newParentId w = (Returns vendor, w')
       ∧ Vendor.findById (vendors w') vendorId = Some vendor
       ∧ Vendor.parentVendor vendor = Some newParentId
       ∧ validateHierarchy (vendors w') vendorId newParentId = true).
Proof.
  intros Hc. split; [by apply transferVendor_consistent|]. split.
  - intros Hval.
    destruct (transferVendor_outcome vendorId newParentId w)
      as [?|(vendor & _ & Hval' & _)]; [done | congruence].
  - intros Hval.
    destruct (transferVendor vendorId newParentId w) as [r w'] eqn:Hrun.
    destruct (transferVendor_outcome vendorId newParentId w)
      as [[msg Hthrow]|(vendor & Hv & _ & Hr & Hvs)].
    { exfalso. pose proof Hval as Hval'.
      apply validateHierarchy_true_iff in Hval' as (c & np & Hc' & Hnp & _).
      rewrite Hrun in Hthrow. unfold transferVendor in Hrun.
      rewrite Hc', Hnp, Hval in Hrun. simpl in Hrun. congruence. }
    rewrite Hrun in Hr, Hvs. simpl in Hr, Hvs. subst r.
    eexists _, w'. split; [done|].
    destruct (transferVendor_returns _ _ _ _ _ Hrun) as (Hp & Hf & _).
    split_and!; try done.
    apply validateHierarchy_true_iff.
    apply validateHierarchy_true_iff in Hval as (c & np & Hc' & Hnp & Hpair).
    rewrite Hv in Hc'. injection Hc' as <-.
    eexists _, _. split; [exact Hf|]. rewrite Hvs, findById_save, Hnp. split; [done|].
    simpl. destruct (bool_decide _) eqn:E; [|done].
    apply bool_decide_eq_true in E. simpl in E.
    pose proof (findById_self _ _ _ Hnp) as Hself.
    rewrite E, (findById_self _ _ _ Hv) in Hself. injection Hself as <-. done.
Qed.

Lemma transferVendors_consistent : consistent (vendors transferWorld).
Proof.
  split; [apply (bool_decide_unpack (NoDup _)); by vm_compute|].
  intros v p Hv Hp. change (vendors transferWorld) with transferVendors in *.
  unfold transferVendors in Hv. rewrite !elem_of_cons, elem_of_nil in Hv.
  destruct Hv as [->|[->|[->|[]]]]; simpl in Hp; try discriminate Hp.
  injection Hp as <-. eexists. split; [reflexivity|].
  unfold permittedPairs. rewrite !elem_of_cons. simpl. tauto.
Qed.

Lemma transferVendor_keeps_consistent_witness :
  consistent (vendors (transferVendor "c1" "s2" transferWorld).2)
  ∧ (∃ msg, transferVendor "s1" "c1" transferWorld = (Throws msg, transferWorld))
  ∧ ∃ vendor w',
      transferVendor "c1" "s2" transferWorld = (Returns vendor, w')
      ∧ validateHierarchy (vendors w') "c1" "s2" = true.
Proof.
  destruct (transferVendor_keeps_consistent "c1" "s2" transferWorld transferVendors_consistent)
    as (H1 & _ & H3).
  destruct (transferVendor_keeps_consistent "s1" "c1" transferWorld transferVendors_consistent)
    as (_ & H2 & _).
  split_and!.
  - exact H1.
  - apply H2. reflexivity.
  - destruct (H3 eq_refl) as (vendor & w' & Hrun & _ & _ & Hval). by exists vendor, w'.
Defined.

(** ** Every served request keeps the hierarchy walkable *)

Lemma served_consistent w w' :
  served w w' → consistent (vendors w) → consistent (vendors w').
Proof.
  destruct permitted_registrations as (Hsc & Hcs & Hcl).
  intros [body newId w0 Hfresh | reqVendor body newId w0 Hfresh
          | reqVendor body newId w0 Hfresh | reqVendor body newId w0 Hfresh
          | vendorId newParentId w0] Hc.
  - destruct (registerVendor_outcome body newId w0) as [Hreg Hroot].
    apply (registration_consistent _ _ _ _ _ (or_intror Hroot) Hreg Hc Hfresh).
  - apply (registration_consistent CITY SUPER newId w0); [by left| |done..].
    apply registerCityVendor_outcome.
  - apply (registration_consistent SUB CITY newId w0); [by left| |done..].
    apply registerSubVendor_outcome.
  - apply (registration_consistent LOCAL CITY newId w0); [by left| |done..].
    apply registerLocalVendor_outcome.
  - by apply transferVendor_consistent.
Qed.

Lemma getParentChain_terminates db vendorId :
  acyclic db → is_Some (getParentChain (S (length db)) db vendorId).
Proof.
  intros Hacyc. unfold getParentChain.
  destruct (Vendor.findById db vendorId) as [cur|] eqn:Hcur; [|by eexists].
  apply (parentChainLoop_terminates _ _ Hacyc cur []).
  - by eapply findById_self.
  - constructor.
  - by intros x ?%elem_of_nil.
  - by intros x ?%elem_of_nil.
  - simpl. lia.
Qed.

(** X10. Whatever sequence of registrations and transfers is served, each
    registration with an [_id] not yet in use, a consistent collection stays
    consistent; so after any such sequence [getAllSubVendors] returns within
    four nested calls and [getParentChain] terminates, for every vendor
    id. *)
Theorem served_requests_keep_hierarchy_walkable (w0 w : World) :
  rtc served w0 w →
  consistent (vendors w0) →
  consistent (vendors w)
  ∧ (∀ vendorId, is_Some (getAllSubVendors 4 (vendors w) vendorId))
  ∧ (∀ vendorId,
       is_Some (getParentChain (S (length (vendors w))) (vendors w) vendorId)).
Proof.
  intros Hrun Hc0.
  assert (consistent (vendors w)) as Hc.
  { induction Hrun as [|x y z Hstep _ IH]; [done|]. apply IH.
    by apply (served_consistent x y). }
  split_and!; [done| |].
  - intros vendorId. by apply getAllSubVendors_four_levels.
  - intros vendorId. apply getParentChain_terminates, wellTyped_acyclic, Hc.
Qed.

Lemma served_requests_keep_hierarchy_walkable_witness :
  let w1 := (VendorController.registerLocalVendor
               metropolisCity (localRequest "Metropolis" ["North"]) "l" metropolis).2 in
  let w2 := (transferVendor "l" "c" w1).2 in
  consistent (vendors w2)
  ∧ Vendor._id <$> default [] (getAllSubVendors 4 (vendors w2) "s") = ["c"; "l"].
Proof.
  intros w1 w2.
  destruct (served_requests_keep_hierarchy_walkable metropolis w2) as (Hc & _ & _).
  - apply (rtc_l _ _ w1).
    + apply served_registerLocalVendor. exact fresh_in_metropolis.
    + apply rtc_once. apply served_transferVendor.
  - exact metropolis_consistent.
  - split; [exact Hc | reflexivity].
Defined.

(** * Further properties of the cache *)

Lemma hierarchy_key_not_all_vendors id : "vendor_hierarchy_" +:+ id ≠ "all_vendors".
Proof. cbv [String.append]. discriminate. Qed.

Lemma createVendor_redis vendor w :
  redis (VendorController.createVendor vendor w).2
  = match Vendor.parentVendor vendor with
    | Some p => delete ("vendor_hierarchy_" +:+ p) (delete "all_vendors" (redis w))
    | None => delete "all_vendors" (redis w)
    end.
Proof. unfold VendorController.createVendor. simpl. by destruct (Vendor.parentVendor vendor). Qed.

(** X11. A registration that succeeds removes from the cache the list of
    all vendors and the hierarchy of the direct parent, and nothing else;
    a registration that is refused leaves the cache as it was. The cached
    hierarchy of any other vendor, such as the SUPER vendor above the
    parent, is kept although the new vendor belongs in it. *)
Theorem registration_invalidates_parent_only
    (reqVendor : Vendor.t) (body : VendorController.RegisterBody)
    (newId : ObjectId) (w : World) (r : Response Vendor.t) (w' : World) :
  VendorController.registerCityVendor reqVendor body newId w = (r, w')
  ∨ VendorController.registerSubVendor reqVendor body newId w = (r, w')
  ∨ VendorController.registerLocalVendor reqVendor body newId w = (r, w') →
  (succeeded r = false → redis w' = redis w)
  ∧ (succeeded r = true →
     redis w' = delete ("vendor_hierarchy_" +:+ VendorController.body_parentVendorId body)
                       (delete "all_vendors" (redis w))
     ∧ ∀ other, other ≠ VendorController.body_parentVendorId body →
                redis w' !! ("vendor_hierarchy_" +:+ other)
                = redis w !! ("vendor_hierarchy_" +:+ other)).
Proof.
  intros Hrun.
  assert (succeeded r = false ∧ w' = w
          ∨ succeeded r = true
            ∧ redis w' = delete ("vendor_hierarchy_" +:+ VendorController.body_parentVendorId body)
                                (delete "all_vendors" (redis w))) as Hcases.
  { destruct Hrun as [Hrun|[Hrun|Hrun]].
    - pose proof (registerCityVendor_outcome reqVendor body newId w) as [Hreg Hp].
      rewrite Hrun in Hreg.
      destruct Hreg as [[? ?]|(vendor & Hr & _)]; [by left|]. simpl in Hr. subst r.
      right. split; [done|]. specialize (Hp _ _ Hrun).
      revert Hrun. unfold VendorController.registerCityVendor. cbv zeta.
      repeat match goal with
             | |- context [match ?x with Some _ => _ | None => _ end] => destruct x
             | |- context [if ?b then _ else _] => destruct b
             end; try done.
      intros Hcreate. replace w' with (VendorController.createVendor vendor w).2
        by (injection Hcreate as <- <-; reflexivity).
      injection Hcreate as Hv _. rewrite <- Hv at 1.
      by rewrite createVendor_redis.
    - pose proof (registerSubVendor_outcome reqVendor body newId w) as [Hreg Hp].
      rewrite Hrun in Hreg.
      destruct Hreg as [[? ?]|(vendor & Hr & _)]; [by left|]. simpl in Hr. subst r.
      right. split; [done|]. specialize (Hp _ _ Hrun).
      revert Hrun. unfold VendorController.registerSubVendor. cbv zeta.
      repeat match goal with
             | |- context [match ?x with Some _ => _ | None => _ end] => destruct x
             | |- context [if ?b then _ else _] => destruct b
             end; try done.
      intros Hcreate. replace w' with (VendorController.createVendor vendor w).2
        by (injection Hcreate as <- <-; reflexivity).
      injection Hcreate as Hv _. rewrite <- Hv at 1.
      by rewrite createVendor_redis.
    - pose proof (registerLocalVendor_outcome reqVendor body newId w) as [Hreg _].
      rewrite Hrun in Hreg.
      destruct Hreg as [[? ?]|(vendor & Hr & Hvs & _)]; [by left|]. simpl in Hr, Hvs. subst r.
      right. split; [done|].
      revert Hrun. unfold VendorController.registerLocalVendor. cbv zeta.
      cbn [Vendor.parentVendor template default].
      repeat match goal with
             | |- context [match ?x with Some _ => _ | None => _ end] => destruct x
             | |- context [if ?b then _ else _] => destruct b
             end; try done.
      all: by intros [= _ <-]. }
  destruct Hcases as [[Hf ->]|[Ht Hr]].
  - split; [done | congruence].
  - split; [congruence|]. intros _. split; [done|].
    intros other Hne. rewrite Hr.
    rewrite lookup_delete_ne by (intros H; by apply hierarchy_key_inj in H).
    apply lookup_delete_ne. intros H. symmetry in H. by apply hierarchy_key_not_all_vendors in H.
Qed.

Lemma registration_invalidates_parent_only_witness :
  ∃ vendor w',
    VendorController.registerLocalVendor
      metropolisCity (localRequest "Metropolis" ["North"]) "l" metropolisCached
    = (Success 201 vendor, w')
    ∧ redis w' !! "vendor_hierarchy_c" = None
    ∧ redis w' !! "vendor_hierarchy_s"
      = Some (Json.JHierarchy
                (Json.Node "s" "Head Office" SUPER [Json.Node "c" "Metro Cabs" CITY []]), 600)
    ∧ hierarchyOf (vendors w') "s"
      = Some (Json.Node "s" "Head Office" SUPER
                [Json.Node "c" "Metro Cabs" CITY [Json.Node "l" "Corner Cabs" LOCAL []]]).
Proof.
  destruct (VendorController.registerLocalVendor
              metropolisCity (localRequest "Metropolis" ["North"]) "l" metropolisCached)
    as [r w'] eqn:Hrun.
  assert (∃ vendor, r = Success 201 vendor) as [vendor ->].
  { vm_compute in Hrun. injection Hrun as <- _. by eexists. }
  exists vendor, w'. split; [done|].
  destruct (registration_invalidates_parent_only metropolisCity
              (localRequest "Metropolis" ["North"]) "l" metropolisCached _ w'
              (or_intror (or_intror Hrun))) as [_ Hok].
  destruct (Hok eq_refl) as [Hr Hother].
  split_and!.
  - rewrite Hr. apply lookup_delete_eq.
  - change "vendor_hierarchy_s" with ("vendor_hierarchy_" +:+ "s").
    rewrite (Hother "s") by done. by vm_compute.
  - vm_compute in Hrun. by injection Hrun as _ <-.
Defined.

(** X12. [cacheVendorHierarchy] always recomputes: with unique ids it
    stores under the key of the vendor, for 600 seconds, the hierarchy of
    the vendors as they are now ([null] for a missing vendor) and returns
    it; as long as that entry is in the cache, [getVendorHierarchy] returns
    this value, whatever has become of the vendor collection. *)
Theorem cached_hierarchy_is_served (fuel : nat) (vendorId : ObjectId) (w : World) :
  NoDup (map Vendor._id (vendors w)) →
  3 ≤ fuel →
  let value := CacheService.hierarchyJson (hierarchyOf (vendors w) vendorId) in
  ∃ w1,
    CacheService.cacheVendorHierarchy fuel vendorId w = (Returns value, w1)
    ∧ redis w1 = <["vendor_hierarchy_" +:+ vendorId := (value, 600)]> (redis w)
    ∧ vendors w1 = vendors w
    ∧ ∀ fuel' w2,
        redis w2 !! ("vendor_hierarchy_" +:+ vendorId)
        = redis w1 !! ("vendor_hierarchy_" +:+ vendorId) →
        (getVendorHierarchy fuel' vendorId w2).1 = Returns value.
Proof.
  intros Hids Hfuel value. unfold CacheService.cacheVendorHierarchy. cbv zeta.
  cbn [vendors log]. rewrite (build_hierarchyOf _ Hids fuel vendorId Hfuel).
  eexists. split; [reflexivity|]. split_and!; try reflexivity.
  intros fuel' w2 Hsame. unfold getVendorHierarchy, CacheService.get.
  rewrite Hsame. simpl. by rewrite lookup_insert_eq.
Qed.

Lemma cached_hierarchy_is_served_witness :
  ∃ w1,
    CacheService.cacheVendorHierarchy 3 "c" metropolis
    = (Returns (Json.JHierarchy (Json.Node "c" "Metro Cabs" CITY [])), w1)
    ∧ (getVendorHierarchy 3 "c" w1).1
      = Returns (Json.JHierarchy (Json.Node "c" "Metro Cabs" CITY [])).
Proof.
  destruct (cached_hierarchy_is_served 3 "c" metropolis (proj1 metropolis_consistent)
              ltac:(lia)) as (w1 & Hrun & _ & _ & Hget).
  exists w1. split; [exact Hrun | exact (Hget 3 w1 eq_refl)].
Defined.

(** X13. The compliance report is read through the cache: computed on a
    miss, it is stored for 300 seconds, and while the entry is there later
    calls return the stored report unchanged and write nothing, whatever
    the time and whatever documents, vehicles and drivers have changed in
    between. *)
Theorem compliance_report_is_cached (clock : nat → Z) (vendorId : ObjectId) (w : World) :
  redis w !! ("compliance_report_" +:+ vendorId) = None →
  ∃ r w1,
    DocumentService.getVendorComplianceReport clock vendorId w = (Json.JReport r, w1)
    ∧ redis w1 !! ("compliance_report_" +:+ vendorId) = Some (Json.JReport r, 300)
    ∧ ∀ clock' w2,
        redis w2 !! ("compliance_report_" +:+ vendorId)
        = redis w1 !! ("compliance_report_" +:+ vendorId) →
        ∃ w3,
          DocumentService.getVendorComplianceReport clock' vendorId w2 = (Json.JReport r, w3)
          ∧ redis w3 = redis w2
          ∧ ∀ key, CallSet key ∈ trace w3 → CallSet key ∈ trace w2.
Proof.
  intros Hmiss.
  destruct (getVendorComplianceReport_miss clock vendorId w Hmiss) as (r & w1 & Hrun & Hr & _).
  exists r, w1. split; [done|].
  assert (redis w1 !! ("compliance_report_" +:+ vendorId) = Some (Json.JReport r, 300))
    as Hkey by (by rewrite Hr, lookup_insert_eq).
  split; [done|].
  intros clock' w2 Hsame. rewrite Hkey in Hsame.
  unfold DocumentService.getVendorComplianceReport, CacheService.get.
  rewrite Hsame. simpl. eexists. split_and!; try reflexivity.
  intros key Hin. simpl in Hin. by apply elem_of_cons in Hin as [?|?].
Qed.

Lemma compliance_report_is_cached_witness :
  ∃ w1,
    DocumentService.getVendorComplianceReport (still 1000) "vendor" twoVehicles
    = (Json.JReport (Json.mkReport (Json.mkCounts 2 1 1) (Json.mkCounts 0 0 0)), w1)
    ∧ (DocumentService.getVendorComplianceReport (still 5000) "vendor" w1).1
      = Json.JReport (Json.mkReport (Json.mkCounts 2 1 1) (Json.mkCounts 0 0 0)).
Proof.
  destruct (compliance_report_is_cached (still 1000) "vendor" twoVehicles eq_refl)
    as (r & w1 & Hrun & _ & Hlater).
  assert (r = Json.mkReport (Json.mkCounts 2 1 1) (Json.mkCounts 0 0 0)) as ->.
  { vm_compute in Hrun. by injection Hrun as <- _. }
  exists w1. split; [done|].
  destruct (Hlater (still 5000) w1 eq_refl) as (w3 & -> & _). done.
Defined.

(** * Further properties of assignments *)

Lemma driver_findOne_vendor m id vendorId driver :
  Driver.findOne m id vendorId = Some driver → Driver.vendor driver = vendorId.
Proof.
  unfold Driver.findOne. destruct (m !! id); [|done].
  case_bool_decide; by intros [= <-].
Qed.

Lemma vehicle_findOne_vendor m id vendorId vehicle :
  Vehicle.findOne m id vendorId = Some vehicle → Vehicle.vendor vehicle = vendorId.
Proof.
  unfold Vehicle.findOne. destruct (m !! id); [|done].
  case_bool_decide; by intros [= <-].
Qed.

Lemma alter_lookup_insert {A} (f : A → A) (m : gmap ObjectId A) i x :
  m !! i = Some x → <[i := f x]> m = alter f i m.
Proof.
  intros Hx. apply map_eq. intros j. destruct (decide (i = j)) as [<-|Hne].
  - by rewrite lookup_insert_eq, lookup_alter_eq, Hx.
  - by rewrite lookup_insert_ne, lookup_alter_ne.
Qed.

Lemma unassignVehicleFromDriver_released reqVendor d w driver v :
  Driver.findOne (drivers w) d reqVendor = Some driver →
  Driver.assignedVehicle driver = Some v →
  ∃ w', DriverController.unassignVehicleFromDriver reqVendor d w
        = (Success 200 (mkUnassignment "Vehicle unassigned successfully" d v), w')
        ∧ released d v w w'.
Proof.
  intros Hd Ha. unfold DriverController.unassignVehicleFromDriver. rewrite Hd, Ha.
  eexists. split; [reflexivity|]. split; simpl; [|done].
  apply (alter_lookup_insert (fun x => Driver.with_assignedVehicle x None)).
  by apply driver_findOne_Some in Hd.
Qed.

Lemma unassignDriverFromVehicle_released reqVendor v w vehicle d :
  Vehicle.findOne (vehicles w) v reqVendor = Some vehicle →
  Vehicle.assignedDriver vehicle = Some d →
  ∃ w', VehicleController.unassignDriverFromVehicle reqVendor v w
        = (Success 200 (mkUnassignment "Driver unassigned successfully" v d), w')
        ∧ released d v w w'.
Proof.
  intros Hv Ha. unfold VehicleController.unassignDriverFromVehicle. rewrite Hv, Ha.
  eexists. split; [reflexivity|]. split; simpl; [done|].
  apply (alter_lookup_insert (fun x => Vehicle.with_assignedDriver x None)).
  by apply vehicle_findOne_Some in Hv.
Qed.

Lemma fleetRequest_effect reqVendor w w' :
  fleetRequest reqVendor w w' → effect reqVendor w w'.
Proof.
  destruct 1 as [d v w|v d w|d w|v w|d w].
  - unfold DriverController.assignVehicleToDriver.
    destruct (Driver.findOne (drivers w) d reqVendor) as [driver|] eqn:Hd;
      [|by apply effect_none].
    destruct (Vehicle.findOne (vehicles w) v reqVendor) as [vehicle|] eqn:Hv;
      [|by apply effect_none].
    destruct (bool_decide (is_Some (Vehicle.assignedDriver vehicle)) && _) eqn:Gv;
      [by apply effect_none|].
    destruct (bool_decide (is_Some (Driver.assignedVehicle driver)) && _) eqn:Gd;
      [by apply effect_none|].
    apply assigned_elsewhere_false in Gv, Gd.
    apply (effect_paired _ _ _ d v driver vehicle);
      eauto using driver_findOne_Some, vehicle_findOne_Some,
                  driver_findOne_vendor, vehicle_findOne_vendor.
  - unfold VehicleController.assignDriverToVehicle.
    destruct (Vehicle.findOne (vehicles w) v reqVendor) as [vehicle|] eqn:Hv;
      [|by apply effect_none].
    destruct (Driver.findOne (drivers w) d reqVendor) as [driver|] eqn:Hd;
      [|by apply effect_none].
    destruct (bool_decide (is_Some (Driver.assignedVehicle driver)) && _) eqn:Gd;
      [by apply effect_none|].
    destruct (bool_decide (is_Some (Vehicle.assignedDriver vehicle)) && _) eqn:Gv;
      [by apply effect_none|].
    apply assigned_elsewhere_false in Gv, Gd.
    apply (effect_paired _ _ _ d v driver vehicle);
      eauto using driver_findOne_Some, vehicle_findOne_Some,
                  driver_findOne_vendor, vehicle_findOne_vendor.
  - destruct (Driver.findOne (drivers w) d reqVendor) as [driver|] eqn:Hd.
    + destruct (Driver.assignedVehicle driver) as [v|] eqn:Ha.
      * destruct (unassignVehicleFromDriver_released _ _ _ _ _ Hd Ha) as (w' & -> & Hrel).
        apply (effect_released_by_driver _ _ _ d v driver);
          eauto using driver_findOne_Some, driver_findOne_vendor.
      * unfold DriverController.unassignVehicleFromDriver. rewrite Hd, Ha.
        by apply effect_none.
    + unfold DriverController.unassignVehicleFromDriver. rewrite Hd. by apply effect_none.
  - destruct (Vehicle.findOne (vehicles w) v reqVendor) as [vehicle|] eqn:Hv.
    + destruct (Vehicle.assignedDriver vehicle) as [d|] eqn:Ha.
      * destruct (unassignDriverFromVehicle_released _ _ _ _ _ Hv Ha) as (w' & -> & Hrel).
        apply (effect_released_by_vehicle _ _ _ d v vehicle);
          eauto using vehicle_findOne_Some, vehicle_findOne_vendor.
      * unfold VehicleController.unassignDriverFromVehicle. rewrite Hv, Ha.
        by apply effect_none.
    + unfold VehicleController.unassignDriverFromVehicle. rewrite Hv. by apply effect_none.
  - unfold DriverController.deleteDriver.
    destruct (Driver.findOne (drivers w) d reqVendor) as [driver|] eqn:Hd;
      [|by apply effect_none].
    apply (effect_deleted _ _ _ d driver);
      eauto using driver_findOne_Some, driver_findOne_vendor;
      simpl; by destruct (Driver.assignedVehicle driver).
Qed.

Lemma released_bidirectional d v w w' :
  released d v w w' → bidirectional w →
  (∃ driver, drivers w !! d = Some driver ∧ Driver.assignedVehicle driver = Some v)
  ∨ (∃ vehicle, vehicles w !! v = Some vehicle ∧ Vehicle.assignedDriver vehicle = Some d) →
  bidirectional w'.
Proof.
  intros [Ed Ev] [Bd Bv] Hpair.
  assert (∀ x, drivers w !! d = Some x → Driver.assignedVehicle x = Some v) as Hd.
  { intros x Hx. destruct Hpair as [(x' & Hx' & Ax)|(y & Hy & Ay)]; [congruence|].
    destruct (Bv _ _ _ Hy Ay) as (x' & Hx' & Ax). congruence. }
  assert (∀ y, vehicles w !! v = Some y → Vehicle.assignedDriver y = Some d) as Hv.
  { intros y Hy. destruct Hpair as [(x & Hx & Ax)|(y' & Hy' & Ay)]; [|congruence].
    destruct (Bd _ _ _ Hx Ax) as (y' & Hy' & Ay). congruence. }
  split.
  - intros d0 x v0. rewrite Ed, Ev. destruct (decide (d0 = d)) as [->|Hne].
    + rewrite lookup_alter_eq. destruct (drivers w !! d); [|done].
      simpl. by intros [= <-].
    + rewrite lookup_alter_ne by done. intros Hx Ax.
      destruct (Bd d0 x v0 Hx Ax) as (y & Hy & Ay).
      destruct (decide (v0 = v)) as [->|Hv0].
      * specialize (Hv _ Hy). congruence.
      * rewrite lookup_alter_ne by done. by exists y.
  - intros v0 y d0. rewrite Ed, Ev. destruct (decide (v0 = v)) as [->|Hne].
    + rewrite lookup_alter_eq. destruct (vehicles w !! v); [|done].
      simpl. by intros [= <-].
    + rewrite lookup_alter_ne by done. intros Hy Ay.
      destruct (Bv v0 y d0 Hy Ay) as (x & Hx & Ax).
      destruct (decide (d0 = d)) as [->|Hd0].
      * specialize (Hd _ Hx). congruence.
      * rewrite lookup_alter_ne by done. by exists x.
Qed.

Lemma deleted_bidirectional reqVendor d driver w w' :
  drivers w !! d = Some driver →
  drivers w' = delete d (drivers w) →
  vehicles w' = match Driver.assignedVehicle driver with
                | Some v => alter (fun x => Vehicle.with_assignedDriver x None) v (vehicles w)
                | None => vehicles w
                end →
  Driver.vendor driver = reqVendor →
  bidirectional w → bidirectional w'.
Proof.
  intros Hd Ed Ev _ [Bd Bv]. split.
  - intros d0 x v0. rewrite Ed, Ev. destruct (decide (d0 = d)) as [->|Hne].
    + by rewrite lookup_delete_eq.
    + rewrite lookup_delete_ne by done. intros Hx Ax.
      destruct (Bd d0 x v0 Hx Ax) as (y & Hy & Ay).
      destruct (Driver.assignedVehicle driver) as [v|] eqn:Ha; [|by exists y].
      destruct (decide (v0 = v)) as [->|Hv0].
      * destruct (Bd d driver v Hd Ha) as (y' & Hy' & Ay'). congruence.
      * rewrite lookup_alter_ne by done. by exists y.
  - intros v0 y d0. rewrite Ed, Ev. intros Hy Ay.
    assert (vehicles w !! v0 = Some y
            ∧ (∀ v, Driver.assignedVehicle driver = Some v → v0 ≠ v)) as [Hy' Hv0].
    { destruct (Driver.assignedVehicle driver) as [v|] eqn:Ha; [|done].
      destruct (decide (v0 = v)) as [->|Hv0].
      - rewrite lookup_alter_eq in Hy. destruct (vehicles w !! v); [|done].
        simpl in Hy. injection Hy as <-. done.
      - rewrite lookup_alter_ne in Hy by done. split; [done|]. by intros ? [= <-]. }
    destruct (Bv v0 y d0 Hy' Ay) as (x & Hx & Ax).
    destruct (decide (d0 = d)) as [->|Hd0].
    + exfalso. apply (Hv0 v0); [|done]. congruence.
    + rewrite lookup_delete_ne by done. by exists x.
Qed.

Lemma effect_invariant reqVendor w w' :
  effect reqVendor w w' → assignmentInvariant w → assignmentInvariant w'.
Proof.
  intros Heff [Hb _].
  assert (bidirectional w') as Hb'; [|split; [done | by apply bidirectional_exclusive]].
  destruct Heff as [Ed Ev|d v driver vehicle Hd Hv _ _ Fd Fv Ed Ev
                    |d v driver Hd _ Ha Hrel|d v vehicle Hv _ Ha Hrel
                    |d driver Hd Hvd Ed Ev].
  - destruct Hb as [Bd Bv]. split.
    + intros d x v. rewrite Ed, Ev. apply Bd.
    + intros v y d. rewrite Ed, Ev. apply Bv.
  - apply (paired_bidirectional d v w w'); [|done].
    exists driver, vehicle. split_and!; done.
  - apply (released_bidirectional d v w w'); [done..|]. left. by exists driver.
  - apply (released_bidirectional d v w w'); [done..|]. right. by exists vehicle.
  - by apply (deleted_bidirectional reqVendor d driver w w').
Qed.

(** X14. On a driver of the requesting vendor that has a vehicle,
    [unassignVehicleFromDriver] answers 200 and clears both pointers,
    also when the vehicle is no longer stored; where assignments are
    bidirectional and the vehicle belongs to the same vendor,
    [unassignDriverFromVehicle] on that vehicle leaves the same drivers
    and vehicles. A driver without a vehicle gets 400, a driver that is
    missing or belongs to another vendor 404, and the state is unchanged. *)
Theorem unassignment_is_symmetric
    (reqVendor driverId : ObjectId) (w : World) :
  (∀ driver vehicleId,
     Driver.findOne (drivers w) driverId reqVendor = Some driver →
     Driver.assignedVehicle driver = Some vehicleId →
     ∃ w1,
       DriverController.unassignVehicleFromDriver reqVendor driverId w
       = (Success 200 (mkUnassignment "Vehicle unassigned successfully" driverId vehicleId), w1)
       ∧ Driver.assignedVehicle <$> drivers w1 !! driverId = Some None
       ∧ (∀ vehicle, vehicles w1 !! vehicleId = Some vehicle →
                     Vehicle.assignedDriver vehicle = None)
       ∧ (∀ vehicle,
            bidirectional w →
            Vehicle.findOne (vehicles w) vehicleId reqVendor = Some vehicle →
            ∃ w2,
              VehicleController.unassignDriverFromVehicle reqVendor vehicleId w
              = (Success 200 (mkUnassignment "Driver unassigned successfully"
                                             vehicleId driverId), w2)
              ∧ drivers w2 = drivers w1 ∧ vehicles w2 = vehicles w1))
  ∧ (∀ driver,
       Driver.findOne (drivers w) driverId reqVendor = Some driver →
       Driver.assignedVehicle driver = None →
       DriverController.unassignVehicleFromDriver reqVendor driverId w
       = (Failure 400 "Driver does not have an assigned vehicle.", w))
  ∧ (Driver.findOne (drivers w) driverId reqVendor = None →
     DriverController.unassignVehicleFromDriver reqVendor driverId w
     = (Failure 404 "Driver not found", w)).
Proof.
  split_and!.
  - intros driver v Hd Ha.
    destruct (unassignVehicleFromDriver_released _ _ _ _ _ Hd Ha) as (w1 & Hrun & Ed & Ev).
    exists w1. split; [done|]. pose proof (driver_findOne_Some _ _ _ _ Hd) as Hd'.
    split_and!.
    + by rewrite Ed, lookup_alter_eq, Hd'.
    + intros vehicle. rewrite Ev, lookup_alter_eq.
      destruct (vehicles w !! v); [|done]. simpl. by intros [= <-].
    + intros vehicle [Bd Bv] Hv.
      pose proof (vehicle_findOne_Some _ _ _ _ Hv) as Hv'.
      destruct (Bd _ _ _ Hd' Ha) as (y & Hy & Ay).
      assert (y = vehicle) as -> by congruence.
      destruct (unassignDriverFromVehicle_released _ _ _ _ _ Hv Ay) as (w2 & Hrun2 & Ed2 & Ev2).
      exists w2. split; [done|]. by rewrite Ed, Ev, Ed2, Ev2.
  - intros driver Hd Ha. unfold DriverController.unassignVehicleFromDriver.
    by rewrite Hd, Ha.
  - intros Hd. unfold DriverController.unassignVehicleFromDriver. by rewrite Hd.
Qed.

Lemma unassignment_is_symmetric_witness :
  ∃ w1 w2,
    DriverController.unassignVehicleFromDriver "vendor" "drv" assignedPair
    = (Success 200 (mkUnassignment "Vehicle unassigned successfully" "drv" "car"), w1)
    ∧ VehicleController.unassignDriverFromVehicle "vendor" "car" assignedPair
      = (Success 200 (mkUnassignment "Driver unassigned successfully" "car" "drv"), w2)
    ∧ Driver.assignedVehicle <$> drivers w1 !! "drv" = Some None
    ∧ drivers w2 = drivers w1 ∧ vehicles w2 = vehicles w1.
Proof.
  destruct (unassignment_is_symmetric "vendor" "drv" assignedPair) as (H1 & _ & _).
  destruct (H1 (Driver.mk "Asha" "vendor" Driver.noDocuments (Some "car")) "car" eq_refl eq_refl)
    as (w1 & Hrun & Hd & _ & Hsym).
  assert (bidirectional assignedPair) as Hb.
  { split.
    - intros d driver v H A. unfold assignedPair in H. cbn [drivers] in H.
      apply lookup_singleton_Some in H as [<- <-]. injection A as <-.
      by eexists.
    - intros v vehicle d H A. unfold assignedPair in H. cbn [vehicles] in H.
      apply lookup_singleton_Some in H as [<- <-]. injection A as <-.
      by eexists. }
  destruct (Hsym (Vehicle.mk "KA01" "vendor" Vehicle.noDocuments (Some "drv")) Hb eq_refl)
    as (w2 & Hrun2 & Ed & Ev).
  exists w1, w2. split_and!; done.
Defined.

(** X15. The assignment, unassignment and driver-deletion requests of any
    vendors, in any number and order, keep assignments bidirectional and
    exclusive. *)
Theorem fleet_requests_keep_assignments_paired (w0 w : World) :
  rtc (fun w w' => ∃ reqVendor, fleetRequest reqVendor w w') w0 w →
  assignmentInvariant w0 → assignmentInvariant w.
Proof.
  induction 1 as [|w1 w2 w3 [reqVendor Hreq] _ IH]; [done|].
  intros Hinv. apply IH. apply (effect_invariant reqVendor w1); [|done].
  by apply fleetRequest_effect.
Qed.

Lemma fleet_requests_keep_assignments_paired_witness :
  assignmentInvariant
    (DriverController.deleteDriver "vendor" "drv"
       (VehicleController.assignDriverToVehicle "vendor" "car" "drv" freePair).2).2.
Proof.
  apply (fleet_requests_keep_assignments_paired freePair); [|apply freePair_invariant].
  eapply rtc_l; [exists "vendor"; apply request_assignDriverToVehicle|].
  eapply rtc_l; [exists "vendor"; apply request_deleteDriver|].
  apply rtc_refl.
Defined.

Lemma with_assignedVehicle_undo driver o :
  Driver.assignedVehicle driver = None →
  Driver.with_assignedVehicle (Driver.with_assignedVehicle driver o) None = driver.
Proof. destruct driver. simpl. by intros ->. Qed.

Lemma with_assignedDriver_undo vehicle o :
  Vehicle.assignedDriver vehicle = None →
  Vehicle.with_assignedDriver (Vehicle.with_assignedDriver vehicle o) None = vehicle.
Proof. destruct vehicle. simpl. by intros ->. Qed.

Lemma alter_insert_undo {A} (f : A → A) (m : gmap ObjectId A) i x y :
  m !! i = Some x → f y = x → alter f i (<[i := y]> m) = m.
Proof.
  intros Hx Hf. apply map_eq. intros j. destruct (decide (i = j)) as [<-|Hne].
  - by rewrite lookup_alter_eq, lookup_insert_eq, Hx; simpl; rewrite Hf.
  - by rewrite lookup_alter_ne, lookup_insert_ne.
Qed.

(** X16. Assigning a free driver and a free vehicle of one vendor to each
    other and then unassigning them, each step through the driver's or
    through the vehicle's handler, gives back the drivers and the vehicles
    of the start. *)
Theorem assign_then_unassign_restores
    (reqVendor driverId vehicleId : ObjectId) (w w1 w2 : World)
    (driver : Driver.t) (vehicle : Vehicle.t) :
  Driver.findOne (drivers w) driverId reqVendor = Some driver →
  Vehicle.findOne (vehicles w) vehicleId reqVendor = Some vehicle →
  Driver.assignedVehicle driver = None →
  Vehicle.assignedDriver vehicle = None →
  w1 = (DriverController.assignVehicleToDriver reqVendor driverId vehicleId w).2
  ∨ w1 = (VehicleController.assignDriverToVehicle reqVendor vehicleId driverId w).2 →
  w2 = (DriverController.unassignVehicleFromDriver reqVendor driverId w1).2
  ∨ w2 = (VehicleController.unassignDriverFromVehicle reqVendor vehicleId w1).2 →
  drivers w1 !! driverId = Some (Driver.with_assignedVehicle driver (Some vehicleId))
  ∧ vehicles w1 !! vehicleId = Some (Vehicle.with_assignedDriver vehicle (Some driverId))
  ∧ drivers w2 = drivers w ∧ vehicles w2 = vehicles w.
Proof.
  intros Hd Hv Fd Fv H1 H2.
  pose proof (driver_findOne_Some _ _ _ _ Hd) as Hd'.
  pose proof (vehicle_findOne_Some _ _ _ _ Hv) as Hv'.
  assert (drivers w1 = <[driverId := Driver.with_assignedVehicle driver (Some vehicleId)]> (drivers w)
          ∧ vehicles w1 = <[vehicleId := Vehicle.with_assignedDriver vehicle (Some driverId)]>
                            (vehicles w)) as [Ed Ev].
  { destruct H1 as [-> | ->].
    - unfold DriverController.assignVehicleToDriver. by rewrite Hd, Hv, Fd, Fv.
    - unfold VehicleController.assignDriverToVehicle. by rewrite Hd, Hv, Fd, Fv. }
  assert (released driverId vehicleId w1 w2) as [Ed2 Ev2].
  { destruct H2 as [-> | ->].
    - destruct (unassignVehicleFromDriver_released reqVendor driverId w1
                  (Driver.with_assignedVehicle driver (Some vehicleId)) vehicleId)
        as (w' & -> & Hrel); [|done..].
      unfold Driver.findOne. rewrite Ed, lookup_insert_eq. simpl.
      apply driver_findOne_vendor in Hd. by rewrite bool_decide_eq_true_2.
    - destruct (unassignDriverFromVehicle_released reqVendor vehicleId w1
                  (Vehicle.with_assignedDriver vehicle (Some driverId)) driverId)
        as (w' & -> & Hrel); [|done..].
      unfold Vehicle.findOne. rewrite Ev, lookup_insert_eq. simpl.
      apply vehicle_findOne_vendor in Hv. by rewrite bool_decide_eq_true_2. }
  split_and!.
  - by rewrite Ed, lookup_insert_eq.
  - by rewrite Ev, lookup_insert_eq.
  - rewrite Ed2, Ed. apply (alter_insert_undo _ _ _ driver); [done|].
    by apply with_assignedVehicle_undo.
  - rewrite Ev2, Ev. apply (alter_insert_undo _ _ _ vehicle); [done|].
    by apply with_assignedDriver_undo.
Qed.

Lemma assign_then_unassign_restores_witness :
  drivers (VehicleController.unassignDriverFromVehicle "vendor" "car"
             (DriverController.assignVehicleToDriver "vendor" "drv" "car" freePair).2).2
  = drivers freePair
  ∧ vehicles (VehicleController.unassignDriverFromVehicle "vendor" "car"
                (DriverController.assignVehicleToDriver "vendor" "drv" "car" freePair).2).2
    = vehicles freePair.
Proof.
  destruct (assign_then_unassign_restores "vendor" "drv" "car" freePair
              (DriverController.assignVehicleToDriver "vendor" "drv" "car" freePair).2
              (VehicleController.unassignDriverFromVehicle "vendor" "car"
                 (DriverController.assignVehicleToDriver "vendor" "drv" "car" freePair).2).2
              (Driver.mk "Asha" "vendor" Driver.noDocuments None) (Vehicle.mk "KA01" "vendor" Vehicle.noDocuments None)
              eq_refl eq_refl eq_refl eq_refl (or_introl eq_refl) (or_intror eq_refl))
    as (_ & _ & Hd & Hv).
  split; [exact Hd | exact Hv].
Defined.

Ltac split_lookups :=
  repeat match goal with
         | H : <[_:=_]> _ !! _ = Some _ |- _ =>
             apply lookup_insert_Some in H as [[? ?]|[? H]]
         | H : alter _ _ _ !! _ = Some _ |- _ =>
             apply lookup_alter_Some in H as [[? (? & H & ?)]|[? H]]
         | H : delete _ _ !! _ = Some _ |- _ =>
             apply lookup_delete_Some in H as [? H]
         end;
  simplify_eq/=.

Lemma effect_pointersWithinVendor reqVendor w w' :
  effect reqVendor w w' → pointersWithinVendor w → pointersWithinVendor w'.
Proof.
  intros Heff [S1 S2].
  destruct Heff as [Ed Ev|d v driver vehicle Hd Hv Vd Vv Fd Fv Ed Ev
                    |d v driver Hd Vd Ha [Ed Ev]|d v vehicle Hv Vv Ha [Ed Ev]
                    |d driver Hd Vd Ed Ev];
    (split; [intros d0 x v0 y | intros v0 y d0 x]); rewrite Ed, Ev;
    try (destruct (Driver.assignedVehicle driver) as [v|] eqn:Ha);
    intros H1 H2 H3; split_lookups;
    first [congruence | by eauto | by symmetry; eauto | idtac].
Qed.

Lemma effect_othersUntouched reqVendor w w' :
  effect reqVendor w w' → pointersWithinVendor w → othersUntouched reqVendor w w'.
Proof.
  intros Heff [S1 S2].
  destruct Heff as [Ed Ev|d v driver vehicle Hd Hv Vd Vv Fd Fv Ed Ev
                    |d v driver Hd Vd Ha [Ed Ev]|d v vehicle Hv Vv Ha [Ed Ev]
                    |d driver Hd Vd Ed Ev];
    (split; [intros d0 x Hne | intros v0 y Hne]); rewrite ?Ed, ?Ev;
    try (destruct (Driver.assignedVehicle driver) as [v|] eqn:Ha);
    try done;
    (split; intros H1;
     [split_lookups; first [done | by erewrite ?S1, ?S2 in Hne by eauto | idtac]
     |]).
  all: try match goal with
       | |- <[?i:=_]> _ !! ?j = _ => destruct (decide (i = j)) as [->|?];
             [|by rewrite lookup_insert_ne]
       | |- alter _ ?i _ !! ?j = _ => destruct (decide (i = j)) as [->|?];
             [|by rewrite lookup_alter_ne]
       | |- delete ?i _ !! ?j = _ => destruct (decide (i = j)) as [->|?];
             [|by rewrite lookup_delete_ne]
       end.
  all: exfalso; simplify_eq/=.
  all: try (erewrite ?S1, ?S2 in Hne by eauto; done).
Qed.

(** X17. Where every assignment pointer, answered by the record it names
    or not, stays within one vendor, a request of a vendor on its drivers
    and vehicles keeps it so, and the drivers and vehicles of every other
    vendor are after the request exactly what they were before. *)
Theorem fleet_requests_stay_within_vendor (reqVendor : ObjectId) (w w' : World) :
  fleetRequest reqVendor w w' → pointersWithinVendor w →
  pointersWithinVendor w' ∧ othersUntouched reqVendor w w'.
Proof.
  intros Hreq Hsame. apply fleetRequest_effect in Hreq.
  split; [by apply (effect_pointersWithinVendor reqVendor w) | by apply effect_othersUntouched].
Qed.

Lemma twoFleets_pointersWithinVendor : pointersWithinVendor twoFleets.
Proof.
  split; intros ? ? ? ? H1 H2 H3; unfold twoFleets, assignedPair in *;
    cbn [drivers vehicles] in *; split_lookups;
    repeat match goal with
           | H : {[_ := _]} !! _ = Some _ |- _ => apply lookup_singleton_Some in H as [? ?]
           end; by simplify_eq/=.
Qed.

Lemma fleet_requests_stay_within_vendor_witness :
  drivers (DriverController.deleteDriver "vendor" "drv" twoFleets).2 !! "dan"
  = Some (Driver.mk "Dan" "rival" Driver.noDocuments None)
  ∧ vehicles (DriverController.deleteDriver "vendor" "drv" twoFleets).2 !! "van"
    = Some (Vehicle.mk "MH02" "rival" Vehicle.noDocuments None).
Proof.
  destruct (fleet_requests_stay_within_vendor "vendor" twoFleets _
              (request_deleteDriver "vendor" "drv" twoFleets) twoFleets_pointersWithinVendor)
    as (_ & Hd & Hv).
  split.
  - by apply (Hd "dan" (Driver.mk "Dan" "rival" Driver.noDocuments None)).
  - by apply (Hv "van" (Vehicle.mk "MH02" "rival" Vehicle.noDocuments None)).
Defined.

(** X22. [unassignVehicleFromDriver] and [deleteDriver] update the vehicle
    named by the driver without asking for its vendor: a driver whose
    pointer names the assigned vehicle of another vendor lets its own
    vendor clear the pointer of that vehicle, and the records of the other
    vendor do not stay as they were. *)
Theorem one_way_pointer_crosses_vendors
    (reqVendor driverId vehicleId : ObjectId) (w w' : World)
    (driver : Driver.t) (vehicle : Vehicle.t) :
  Driver.findOne (drivers w) driverId reqVendor = Some driver →
  Driver.assignedVehicle driver = Some vehicleId →
  vehicles w !! vehicleId = Some vehicle →
  Vehicle.vendor vehicle ≠ reqVendor →
  is_Some (Vehicle.assignedDriver vehicle) →
  w' = (DriverController.unassignVehicleFromDriver reqVendor driverId w).2
  ∨ w' = (DriverController.deleteDriver reqVendor driverId w).2 →
  vehicles w' !! vehicleId = Some (Vehicle.with_assignedDriver vehicle None)
  ∧ ¬ othersUntouched reqVendor w w'.
Proof.
  intros Hd Ha Hv Hvendor [other Hother] Hrun.
  assert (vehicles w' !! vehicleId = Some (Vehicle.with_assignedDriver vehicle None)) as Hv'.
  { destruct Hrun as [-> | ->].
    - unfold DriverController.unassignVehicleFromDriver. rewrite Hd, Ha. simpl.
      by rewrite lookup_alter_eq, Hv.
    - unfold DriverController.deleteDriver. rewrite Hd, Ha. simpl.
      by rewrite lookup_alter_eq, Hv. }
  split; [done|]. intros [_ Hkeep].
  apply (Hkeep vehicleId vehicle Hvendor) in Hv. rewrite Hv' in Hv.
  injection Hv as Hsame. rewrite <- Hsame in Hother. discriminate Hother.
Qed.

Lemma one_way_pointer_crosses_vendors_witness :
  vehicles (DriverController.unassignVehicleFromDriver "vendor" "drv" crossedFleets).2 !! "van"
  = Some (Vehicle.mk "MH02" "rival" Vehicle.noDocuments None).
Proof.
  refine (proj1 (one_way_pointer_crosses_vendors "vendor" "drv" "van" crossedFleets _
                   (Driver.mk "Asha" "vendor" Driver.noDocuments (Some "van"))
                   (Vehicle.mk "MH02" "rival" Vehicle.noDocuments (Some "dan"))
                   eq_refl eq_refl eq_refl _ _ (or_introl eq_refl))).
  - discriminate.
  - by eexists.
Defined.

Ltac key_ne :=
  first [ by (cbv [String.append]; discriminate)
        | by (let E := fresh in intros E; apply String.app_inj in E) ].

(** X18. The two unassignment handlers release the same pair but delete
    different cache entries. The driver's handler deletes the entry named
    after the vehicle id where the vendor's vehicle list is kept, so that
    list stays in the cache unless the two ids coincide; the vehicle's
    handler deletes the vehicle list and keeps the entries of the driver
    and of the vendor's driver list. *)
Theorem unassignment_leaves_partner_lists_cached
    (reqVendor driverId vehicleId : ObjectId) (w : World)
    (driver : Driver.t) (vehicle : Vehicle.t) :
  Driver.findOne (drivers w) driverId reqVendor = Some driver →
  Driver.assignedVehicle driver = Some vehicleId →
  Vehicle.findOne (vehicles w) vehicleId reqVendor = Some vehicle →
  Vehicle.assignedDriver vehicle = Some driverId →
  (let w1 := (DriverController.unassignVehicleFromDriver reqVendor driverId w).2 in
   redis w1 !! ("driver_" +:+ driverId) = None
   ∧ redis w1 !! ("vendor_drivers_" +:+ reqVendor) = None
   ∧ redis w1 !! ("vehicle_" +:+ vehicleId) = None
   ∧ (vehicleId ≠ reqVendor →
      redis w1 !! ("vendor_vehicles_" +:+ reqVendor)
      = redis w !! ("vendor_vehicles_" +:+ reqVendor)))
  ∧ (let w2 := (VehicleController.unassignDriverFromVehicle reqVendor vehicleId w).2 in
     redis w2 !! ("vehicle_" +:+ vehicleId) = None
     ∧ redis w2 !! ("vendor_vehicles_" +:+ reqVendor) = None
     ∧ redis w2 !! ("driver_" +:+ driverId) = redis w !! ("driver_" +:+ driverId)
     ∧ redis w2 !! ("vendor_drivers_" +:+ reqVendor)
       = redis w !! ("vendor_drivers_" +:+ reqVendor)).
Proof.
  intros Hd Had Hv Hav.
  pose proof (driver_findOne_vendor _ _ _ _ Hd) as Vd.
  pose proof (vehicle_findOne_vendor _ _ _ _ Hv) as Vv.
  unfold DriverController.unassignVehicleFromDriver,
    VehicleController.unassignDriverFromVehicle.
  rewrite Hd, Had, Hv, Hav. cbn [snd Driver.vendor Driver.with_assignedVehicle
    Vehicle.vendor Vehicle.with_assignedDriver]. rewrite Vd, Vv.
  unfold CacheService.delAll. cbn [foldl CacheService.del snd redis set_redis log
    set_drivers set_vehicles].
  split; split_and!; try intros Hne;
    rewrite ?lookup_delete_ne by key_ne; done || apply lookup_delete_eq.
Qed.

Lemma unassignment_leaves_partner_lists_cached_witness :
  redis (DriverController.unassignVehicleFromDriver "vendor" "drv" assignedPair).2
    !! "vendor_vehicles_vendor"
  = redis assignedPair !! "vendor_vehicles_vendor"
  ∧ redis (VehicleController.unassignDriverFromVehicle "vendor" "car" assignedPair).2
      !! "vendor_vehicles_vendor"
    = None.
Proof.
  destruct (unassignment_leaves_partner_lists_cached "vendor" "drv" "car" assignedPair
              (Driver.mk "Asha" "vendor" Driver.noDocuments (Some "car"))
              (Vehicle.mk "KA01" "vendor" Vehicle.noDocuments (Some "drv"))
              eq_refl eq_refl eq_refl eq_refl) as [(_ & _ & _ & H1) (_ & H2 & _)].
  split; [apply H1; discriminate | exact H2].
Defined.

(** * Further properties of the document checks *)

Lemma ceilDiv_bounds a b :
  (0 < b)%Z →
  ((DocumentUtils.ceilDiv a b - 1) * b < a ∧ a ≤ DocumentUtils.ceilDiv a b * b)%Z.
Proof.
  intros Hb. unfold DocumentUtils.ceilDiv.
  pose proof (Z.div_mod (- a) b ltac:(lia)).
  pose proof (Z.mod_pos_bound (- a) b Hb). nia.
Qed.

(** What the subtraction of two timestamps returns: the difference, or
    beyond 2^53 an even integer next to it. *)
Lemma dateDifference_cases e t :
  let d := (e - t)%Z in
  ((Z.abs d ≤ 2 ^ 53)%Z ∧ DocumentUtils.dateDifference e t = d)
  ∨ ((2 ^ 53 < Z.abs d)%Z ∧ (d mod 2 = 0)%Z ∧ DocumentUtils.dateDifference e t = d)
  ∨ ((2 ^ 53 < Z.abs d)%Z ∧ (d mod 4 = 1)%Z ∧ DocumentUtils.dateDifference e t = (d - 1)%Z)
  ∨ ((2 ^ 53 < Z.abs d)%Z ∧ (d mod 4 = 3)%Z ∧ DocumentUtils.dateDifference e t = (d + 1)%Z).
Proof.
  cbv zeta. unfold DocumentUtils.dateDifference. cbv zeta.
  destruct (Z.leb_spec (Z.abs (e - t)) (2 ^ 53)) as [Hs|Hl]; [by left|]. right.
  rewrite Zeven_mod. destruct (Z.eqb_spec ((e - t) mod 2) 0) as [He|Ho]; [by left|]. right.
  destruct (Z.eqb_spec ((e - t) mod 4) 1) as [H1|H1]; [by left|]. right.
  split_and!; [done| |done].
  clear Hl. Z.div_mod_to_equations. lia.
Qed.

(** The later the day, the smaller the difference that is returned. *)
Lemma dateDifference_mono e t t' :
  (t ≤ t')%Z → (DocumentUtils.dateDifference e t' ≤ DocumentUtils.dateDifference e t)%Z.
Proof.
  intros Hle.
  destruct (dateDifference_cases e t) as [(A&->)|[(A&B&->)|[(A&B&->)|(A&B&->)]]];
  destruct (dateDifference_cases e t') as [(A'&->)|[(A'&B'&->)|[(A'&B'&->)|(A'&B'&->)]]];
  change (2^53)%Z with 9007199254740992%Z in *;
  Z.div_mod_to_equations; lia.
Qed.

Lemma dateDifference_exact e t :
  (Z.abs (e - t) ≤ 2 ^ 53)%Z → DocumentUtils.dateDifference e t = (e - t)%Z.
Proof.
  intros Hs. unfold DocumentUtils.dateDifference. cbv zeta.
  by destruct (Z.leb_spec (Z.abs (e - t)) (2 ^ 53)) as [_|Hl]; [|lia].
Qed.

Lemma ceilDiv_mono a a' b :
  (0 < b)%Z → (a ≤ a')%Z → (DocumentUtils.ceilDiv a b ≤ DocumentUtils.ceilDiv a' b)%Z.
Proof.
  intros Hb Hle. pose proof (ceilDiv_bounds a b Hb). pose proof (ceilDiv_bounds a' b Hb). nia.
Qed.

(** X19. For valid dates, [getDaysUntilExpiry] is the number of days,
    rounded up, from now to the expiry date: the expiry date lies within
    the last of that many days from now, as long as the two are at most
    2^53 milliseconds apart, and within a millisecond of it in any case;
    and the number never grows as time passes. So the overdue days reported
    for a document found expired are never negative and are 0 during the
    first day after expiry, and the days reported for a document found
    expiring soon are at least 1 and at most 30. *)
Theorem getDaysUntilExpiry_rounds_up (now now' expiryDate : Z) :
  validDate now → validDate now' → validDate expiryDate →
  (now ≤ now')%Z →
  ((Z.abs (expiryDate - now) ≤ 2 ^ 53)%Z →
   ((DocumentUtils.getDaysUntilExpiry now expiryDate - 1) * DocumentUtils.msPerDay
      < expiryDate - now
      ≤ DocumentUtils.getDaysUntilExpiry now expiryDate * DocumentUtils.msPerDay)%Z)
  ∧ ((DocumentUtils.getDaysUntilExpiry now expiryDate - 1) * DocumentUtils.msPerDay - 1
       < expiryDate - now
       ≤ DocumentUtils.getDaysUntilExpiry now expiryDate * DocumentUtils.msPerDay + 1)%Z
  ∧ (DocumentUtils.getDaysUntilExpiry now' expiryDate
     ≤ DocumentUtils.getDaysUntilExpiry now expiryDate)%Z
  ∧ (DocumentUtils.isDocumentExpired now expiryDate = true →
     (0 ≤ - DocumentUtils.getDaysUntilExpiry now' expiryDate)%Z)
  ∧ (DocumentUtils.isDocumentExpired now expiryDate = true →
     (now' < expiryDate + DocumentUtils.msPerDay)%Z →
     (- DocumentUtils.getDaysUntilExpiry now' expiryDate = 0)%Z)
  ∧ (DocumentUtils.isDocumentExpiringSoon now expiryDate 30 = true →
     (DocumentUtils.getDaysUntilExpiry now' expiryDate ≤ 30)%Z
     ∧ (1 ≤ DocumentUtils.getDaysUntilExpiry now expiryDate)%Z).
Proof.
  unfold validDate. intros Vn Vn' Ve Hle.
  unfold DocumentUtils.getDaysUntilExpiry. cbv zeta.
  assert (0 < DocumentUtils.msPerDay)%Z as Hd by done.
  assert (DocumentUtils.msPerDay = 86400000)%Z as Hday by done.
  pose proof (ceilDiv_bounds (DocumentUtils.dateDifference expiryDate now) _ Hd) as [B1 B2].
  pose proof (ceilDiv_bounds (DocumentUtils.dateDifference expiryDate now') _ Hd) as [B1' B2'].
  pose proof (dateDifference_mono expiryDate now now' Hle) as Hmono.
  pose proof (ceilDiv_mono _ _ _ Hd Hmono) as Hceil.
  rewrite isDocumentExpired_iff, isDocumentExpiringSoon_iff.
  change (2 ^ 53)%Z with 9007199254740992%Z.
  assert ((Z.abs (expiryDate - now) ≤ 9007199254740992)%Z →
          DocumentUtils.dateDifference expiryDate now = (expiryDate - now)%Z) as Ex
    by apply dateDifference_exact.
  assert ((Z.abs (expiryDate - now') ≤ 9007199254740992)%Z →
          DocumentUtils.dateDifference expiryDate now' = (expiryDate - now')%Z) as Ex'
    by apply dateDifference_exact.
  assert (Z.abs (DocumentUtils.dateDifference expiryDate now - (expiryDate - now)) ≤ 1)%Z
    as Near.
  { destruct (dateDifference_cases expiryDate now)
      as [(_&->)|[(_&_&->)|[(_&_&->)|(_&_&->)]]]; lia. }
  assert (expiryDate < now' →
          DocumentUtils.dateDifference expiryDate now' ≤ 0)%Z as Neg.
  { intros Hlt. destruct (dateDifference_cases expiryDate now')
      as [(_&->)|[(_&_&->)|[(A&_&->)|(A&_&->)]]]; lia. }
  rewrite Hday in *.
  split; [intros Hs; specialize (Ex Hs); lia|].
  split; [lia|].
  split; [exact Hceil|].
  split; [intros Hexp; specialize (Neg ltac:(lia)); lia|].
  split; [intros Hexp Hfirst; specialize (Ex' ltac:(lia)); lia|].
  intros [H1 H2]. specialize (Ex ltac:(lia)). split; [|lia].
  destruct (Z.le_gt_cases expiryDate now') as [Hpast|Hfut].
  - assert (DocumentUtils.dateDifference expiryDate now' ≤ 0)%Z as Hn; [|lia].
    destruct (Z.eq_dec expiryDate now') as [->|Hne]; [|apply Neg; lia].
    rewrite dateDifference_exact by lia. lia.
  - specialize (Ex' ltac:(lia)). lia.
Qed.

Lemma getDaysUntilExpiry_rounds_up_witness :
  DocumentUtils.isDocumentExpired 4500 4000 = true
  ∧ (- DocumentUtils.getDaysUntilExpiry 5000 4000 = 0)%Z
  ∧ (DocumentUtils.getDaysUntilExpiry (-8000000000000000) 4960000000000001 = 150000000)%Z.
Proof.
  destruct (getDaysUntilExpiry_rounds_up 4500 5000 4000
              ltac:(unfold validDate; lia) ltac:(unfold validDate; lia)
              ltac:(unfold validDate; lia) ltac:(lia))
    as (_ & _ & _ & _ & H & _).
  split_and!; [reflexivity | apply H; reflexivity | reflexivity].
Defined.

(** X20. The document service and the document utilities classify an
    expiry date alike: a document with an expiry date is expired for the
    service exactly when the utilities call its date expired, and expiring
    soon for the service exactly when the utilities call the date expiring
    within 30 days, although one compares instants and the other rounds
    the difference up to days. *)
Theorem service_agrees_with_utils (now : Z) (document : Document.t) (expiryDate : Z) :
  Document.expiryDate document = Some expiryDate →
  DocumentService.isDocumentExpired now document
  = DocumentUtils.isDocumentExpired now expiryDate
  ∧ DocumentService.isDocumentExpiringSoon now document
    = DocumentUtils.isDocumentExpiringSoon now expiryDate 30.
Proof.
  intros He. unfold DocumentService.isDocumentExpired, DocumentService.isDocumentExpiringSoon.
  rewrite He. cbv zeta. split.
  - apply eq_true_iff_eq. rewrite isDocumentExpired_iff. apply Z.ltb_lt.
  - apply eq_true_iff_eq. rewrite isDocumentExpiringSoon_iff.
    rewrite andb_true_iff, Z.leb_le, Z.gtb_gt. unfold DocumentUtils.msPerDay. lia.
Qed.

Lemma service_agrees_with_utils_witness :
  DocumentService.isDocumentExpiringSoon 1000
    (Document.mk "doc1" Document.VEHICLE "car1" (Some 2000%Z) true "vendor")
  = DocumentUtils.isDocumentExpiringSoon 1000 2000 30.
Proof.
  exact (proj2 (service_agrees_with_utils 1000
                  (Document.mk "doc1" Document.VEHICLE "car1" (Some 2000%Z) true "vendor")
                  2000 eq_refl)).
Defined.

(** The verified documents of an entity that are found unexpired at the
    readings of one clock are found unexpired at the earlier readings of
    another. *)
Lemma every_unexpired_earlier clock clock' (items : list Document.t) :
  (∀ i j, (clock i ≤ clock' j)%Z) →
  ∀ t t',
    (Timed.every (fun doc =>
                    if Document.isVerified doc then
                      let* expired := DocumentService.callIsDocumentExpired doc
                      in Timed.ret (negb expired)
                    else Timed.ret false) items clock' t').1 = true →
    (Timed.every (fun doc =>
                    if Document.isVerified doc then
                      let* expired := DocumentService.callIsDocumentExpired doc
                      in Timed.ret (negb expired)
                    else Timed.ret false) items clock t).1 = true.
Proof.
  intros Hle. induction items as [|d items IH]; intros t t'; simpl; [done|].
  rewrite !bind_run. destruct (Document.isVerified d); [|done].
  rewrite !bind_run. unfold DocumentService.callIsDocumentExpired.
  unfold DocumentService.isDocumentExpired.
  destruct (Document.expiryDate d) as [e|]; simpl.
  - destruct (e <? clock' t')%Z eqn:E'; simpl; [done|].
    apply Z.ltb_ge in E'. specialize (Hle t t').
    replace (e <? clock t)%Z with false by (symmetry; apply Z.ltb_ge; lia).
    simpl. apply IH.
  - apply IH.
Qed.

(** X21. Compliance of an entity can be lost but not gained by the passing
    of time alone: an entity found compliant on a clock is found compliant
    on every clock whose readings are not later. It depends only on the
    documents of that entity: documents of other entities added to the
    list change nothing, not even the number of readings of the clock. *)
Theorem compliance_is_lost_not_gained_with_time
    (clock clock' : nat → Z) (t t' : nat) (entityId : ObjectId)
    (docs others : list Document.t) :
  (∀ i j, (clock i ≤ clock' j)%Z) →
  (∀ d, d ∈ others → Document.entityId d ≠ entityId) →
  ((DocumentService.isEntityCompliant entityId docs clock' t').1 = true →
   (DocumentService.isEntityCompliant entityId docs clock t).1 = true)
  ∧ DocumentService.isEntityCompliant entityId (docs ++ others) clock t
    = DocumentService.isEntityCompliant entityId docs clock t.
Proof.
  intros Hle Hothers. split.
  - unfold DocumentService.isEntityCompliant. cbv zeta.
    case_bool_decide; [|done]. by apply every_unexpired_earlier.
  - unfold DocumentService.isEntityCompliant. cbv zeta.
    rewrite List.filter_app.
    replace (List.filter (fun doc => bool_decide (Document.entityId doc = entityId)) others)
      with (@nil Document.t); [by rewrite app_nil_r|].
    symmetry. induction others as [|d others IH]; [done|]. simpl.
    rewrite bool_decide_eq_false_2 by (apply Hothers; by left).
    apply IH. intros x Hx. apply Hothers. by right.
Qed.

Lemma compliance_is_lost_not_gained_with_time_witness :
  (DocumentService.isEntityCompliant "car1" (documents twoVehicles) (still 1000) 0).1 = true
  ∧ (DocumentService.isEntityCompliant "car1" (documents twoVehicles) (still 2500) 0).1 = false.
Proof.
  destruct (compliance_is_lost_not_gained_with_time (still 1000) (still 1500) 0 0 "car1"
              (documents twoVehicles) [] ltac:(intros i j; unfold still; lia)
              ltac:(intros d Hd; by apply elem_of_nil in Hd)) as [H _].
  split; [apply H; reflexivity | reflexivity].
Defined.
